(** * KnotenWerk: graph consistency and active-path derivation

    A shallow embedding of the core of [src/app.js]: the branch-type and
    colour normalisers, [normalizeGraph], [enforceGraphConsistency],
    [rebuildActivePathFromSelections] and [applyTypedEdgeSelection],
    together with the properties the specification states about them.

    JavaScript objects used as dictionaries and [Map]/[Set] instances are
    finite maps and sets; arrays are lists; in-place mutation is explicit
    state passing. *)

From Stdlib Require Import ZArith NArith Ascii String.
From Stdlib Require QArith Qround.
From stdpp Require Import gmap list sets option.
Import stdpp.list_basics.list stdpp.list_relations.list stdpp.list_misc.list
       stdpp.list_monad.list.

Set Warnings "-register-all,-clear-no-such-hyp".
Local Open Scope N_scope.

(** ** JavaScript strings

    A string is its sequence of UTF-16 code units. *)

Abbreviation jsstring := (list N).

Definition js (s : string) : jsstring :=
  map N_of_ascii (list_ascii_of_string s).

(** [WhiteSpace] and [LineTerminator] of ECMAScript, the code units
    [String.prototype.trim] strips. *)
Definition isWhiteSpace (c : N) : bool :=
  bool_decide (c ∈ [9; 10; 11; 12; 13; 32; 160; 5760; 8192; 8193; 8194; 8195;
                    8196; 8197; 8198; 8199; 8200; 8201; 8202; 8232; 8233;
                    8239; 8287; 12288; 65279]).

Fixpoint trimStart (s : jsstring) : jsstring :=
  match s with
  | c :: s' => if isWhiteSpace c then trimStart s' else s
  | [] => []
  end.

Definition trimEnd (s : jsstring) : jsstring := rev (trimStart (rev s)).

Definition trim (s : jsstring) : jsstring := trimEnd (trimStart s).

(** [toLowerCase] on the letters [A]-[Z]; every other code unit is kept.
    The comparisons of this file test the result against ASCII text only
    (the word [or], hexadecimal digits), and no code unit outside [A]-[Z]
    has a lower-case image among those characters. *)
Definition lowerChar (c : N) : N :=
  if bool_decide (65 ≤ c ∧ c ≤ 90) then c + 32 else c.

Definition toLowerCase (s : jsstring) : jsstring := map lowerChar s.

(** Truthiness of a string: non-empty. *)
Definition nonEmpty (s : jsstring) : bool :=
  match s with [] => false | _ => true end.

(** ** JavaScript values

    Numbers are the mathematical integers together with the three
    non-finite doubles; fractional doubles are outside the model. *)

Inductive jsnum : Type :=
  | NumFin (z : Z)
  | NumNaN
  | NumPosInf
  | NumNegInf.

Inductive jsval : Type :=
  | JUndefined
  | JNull
  | JBool (b : bool)
  | JNum (n : jsnum)
  | JStr (s : jsstring)
  | JArr (items : list jsval)
  | JObj (fields : list (jsstring * jsval)).

Global Instance jsnum_eq_dec : EqDecision jsnum.
Proof. solve_decision. Defined.

Definition isFinite (n : jsnum) : bool :=
  match n with NumFin _ => true | _ => false end.

(** [Number.isFinite(x) ? x : null] on a field that holds a number or
    [null]. *)
Definition finiteOrNull (x : option jsnum) : option jsnum :=
  match x with
  | Some n => if isFinite n then Some n else None
  | None => None
  end.

(** Decimal digits of a natural number, most significant first. *)
Fixpoint digitsFuel (fuel : nat) (n : N) (acc : jsstring) : jsstring :=
  match fuel with
  | O => acc
  | S fuel' =>
      let acc' := (48 + n mod 10) :: acc in
      if bool_decide (n < 10) then acc' else digitsFuel fuel' (n / 10) acc'
  end.

Definition natToString (n : N) : jsstring :=
  digitsFuel (S (N.to_nat (N.log2 n))) n [].

Definition numToString (n : jsnum) : jsstring :=
  match n with
  | NumFin z =>
      if bool_decide (z < 0)%Z then 45 :: natToString (Z.to_N (- z))
      else natToString (Z.to_N z)
  | NumNaN => js "NaN"
  | NumPosInf => js "Infinity"
  | NumNegInf => js "-Infinity"
  end.

(** [Array.prototype.join] with separator [","] over already converted
    elements. *)
Fixpoint joinComma (parts : list jsstring) : jsstring :=
  match parts with
  | [] => []
  | [p] => p
  | p :: rest => p ++ 44 :: joinComma rest
  end.

(** [String(value)]: [null] and [undefined] elements of an array print as
    the empty string, a plain object as [[object Object]]. *)
Fixpoint toString (v : jsval) : jsstring :=
  match v with
  | JUndefined => js "undefined"
  | JNull => js "null"
  | JBool true => js "true"
  | JBool false => js "false"
  | JNum n => numToString n
  | JStr s => s
  | JArr items =>
      joinComma
        (map (fun item =>
                match item with
                | JUndefined | JNull => []
                | _ => toString item
                end) items)
  | JObj _ => js "[object Object]"
  end.

(** Truthiness ([ToBoolean]). *)
Definition truthy (v : jsval) : bool :=
  match v with
  | JUndefined | JNull => false
  | JBool b => b
  | JNum (NumFin z) => negb (bool_decide (z = 0%Z))
  | JNum NumNaN => false
  | JNum _ => true
  | JStr s => nonEmpty s
  | JArr _ | JObj _ => true
  end.

(** Property read [value.key]: own properties of an object; primitives,
    [null]-free optional chains and arrays have none of the keys used
    here. *)
Fixpoint assoc (key : jsstring) (fields : list (jsstring * jsval)) : jsval :=
  match fields with
  | [] => JUndefined
  | (k, v) :: rest => if bool_decide (k = key) then v else assoc key rest
  end.

Definition getProp (v : jsval) (key : jsstring) : jsval :=
  match v with
  | JObj fields => assoc key fields
  | _ => JUndefined
  end.

(** ** [new Map(pairs)] and [new Set(items)]

    A later pair with the same key replaces an earlier one. *)

Definition jsMap {V : Type} (pairs : list (jsstring * V)) : gmap jsstring V :=
  foldl (fun m kv => <[kv.1 := kv.2]> m) ∅ pairs.

Definition jsSet (items : list jsstring) : gset jsstring :=
  list_to_set items.

Definition has (s : gset jsstring) (x : jsstring) : bool :=
  bool_decide (x ∈ s).

Definition hasKey {V : Type} (m : gmap jsstring V) (x : jsstring) : bool :=
  bool_decide (is_Some (m !! x)).

(** [array.includes(x)] *)
Definition includes (l : list jsstring) (x : jsstring) : bool :=
  bool_decide (x ∈ l).

(** ** Normalisers *)

Definition GRAPH_VERSION : Z := 1.
Definition DEFAULT_NODE_TYPE : jsstring := js "xor".

(** [String(value || '')] *)
Definition stringOrEmpty (value : jsval) : jsstring :=
  if truthy value then toString value else [].

(** [String(value || '').trim().toLowerCase() === 'or' ? 'or' : 'xor'] *)
Definition normalizeNodeType (value : jsval) : jsstring :=
  if bool_decide (toLowerCase (trim (stringOrEmpty value)) = js "or")
  then js "or" else js "xor".

Definition isHexDigit (c : N) : bool :=
  bool_decide ((48 ≤ c ∧ c ≤ 57) ∨ (97 ≤ c ∧ c ≤ 102)).

(** [/^#[0-9a-f]{n}$/.test(raw)] *)
Definition isHexColor (n : nat) (raw : jsstring) : bool :=
  match raw with
  | 35 :: digits => forallb isHexDigit digits && bool_decide (length digits = n)
  | _ => false
  end.

Definition normalizeHexColor (value : jsval) : option jsstring :=
  match value with
  | JStr value =>
      let raw := toLowerCase (trim value) in
      if negb (nonEmpty raw) then None
      else if isHexColor 6 raw then Some raw
      else if isHexColor 3 raw then
        match raw with
        | [h; r; g; b] => Some [35; r; r; g; g; b; b]
        | _ => None
        end
      else None
  | _ => None
  end.

(** ** Data model *)

Record Button : Type := mkButton {
  button_id : jsstring;
  button_text : jsstring;
  button_to : option jsstring
}.

Record Edge : Type := mkEdge {
  edge_id : jsstring;
  edge_from : jsstring;
  edge_to : option jsstring;
  edge_buttonId : jsstring;
  edge_pendingX : option jsnum;
  edge_pendingY : option jsnum
}.

Record Node : Type := mkNode {
  node_id : jsstring;
  node_x : jsnum;
  node_y : jsnum;
  node_text : jsstring;
  node_type : jsstring;
  node_color : option jsstring;
  node_buttons : list Button
}.

Record Ui : Type := mkUi {
  selectedNodeId : option jsstring;
  activePath : list jsstring;
  activeSelections : gmap jsstring (list jsstring)
}.

Record Graph : Type := mkGraph {
  graph_id : jsstring;
  graph_name : jsstring;
  graph_version : Z;
  createdAt : jsstring;
  updatedAt : jsstring;
  nodes : list Node;
  edges : list Edge;
  ui : Ui
}.

Global Instance Button_eq_dec : EqDecision Button.
Proof. solve_decision. Defined.
Global Instance Edge_eq_dec : EqDecision Edge.
Proof. solve_decision. Defined.
Global Instance Node_eq_dec : EqDecision Node.
Proof. solve_decision. Defined.
Global Instance Ui_eq_dec : EqDecision Ui.
Proof. solve_decision. Defined.
Global Instance Graph_eq_dec : EqDecision Graph.
Proof. solve_decision. Defined.

(** A nullable string field as a value. *)
Definition ofNullable (x : option jsstring) : jsval :=
  match x with Some s => JStr s | None => JNull end.

Definition withUi (graph : Graph) (u : Ui) : Graph :=
  mkGraph (graph_id graph) (graph_name graph) (graph_version graph)
          (createdAt graph) (updatedAt graph) (nodes graph) (edges graph) u.

Definition withEdges (graph : Graph) (es : list Edge) : Graph :=
  mkGraph (graph_id graph) (graph_name graph) (graph_version graph)
          (createdAt graph) (updatedAt graph) (nodes graph) es (ui graph).

Definition withNodes (graph : Graph) (ns : list Node) : Graph :=
  mkGraph (graph_id graph) (graph_name graph) (graph_version graph)
          (createdAt graph) (updatedAt graph) ns (edges graph) (ui graph).

Definition nodeMap (graph : Graph) : gmap jsstring Node :=
  jsMap (map (fun node => (node_id node, node)) (nodes graph)).

Definition edgeMap (graph : Graph) : gmap jsstring Edge :=
  jsMap (map (fun edge => (edge_id edge, edge)) (edges graph)).

Definition nodeIds (graph : Graph) : gset jsstring :=
  jsSet (map node_id (nodes graph)).

Definition edgeIds (graph : Graph) : gset jsstring :=
  jsSet (map edge_id (edges graph)).

(** ** Active-path derivation: [rebuildActivePathFromSelections] *)

Section Walk.
Variable nodeById : gmap jsstring Node.
Variable edgeById : gmap jsstring Edge.
Variable selections : gmap jsstring (list jsstring).

(** The edges the walk iterates over at a node: the whole selection of
    an OR node, its first entry for an XOR node. *)
Definition selectedEdgeIds (node : Node) (nodeId : jsstring) : list jsstring :=
  let rawSelected := default [] (selections !! nodeId) in
  if bool_decide (node_type node = js "xor") then take 1 rawSelected
  else rawSelected.

(** The guard of the [forEach] body: the edge the id names, when it
    leaves [nodeId] and its target is an existing node. *)
Definition traversable (nodeId edgeId : jsstring) : option (Edge * jsstring) :=
  match edgeById !! edgeId with
  | Some edge =>
      match edge_to edge with
      | Some target =>
          if bool_decide (edge_from edge = nodeId) && hasKey nodeById target
          then Some (edge, target)
          else None
      | None => None
      end
  | None => None
  end.

(** The inner closure [walk(nodeId, stack)]. [nextPath] is the array
    shared by all calls, threaded through them; [fuel] bounds the depth
    of the recursion and [None] means it ran out. *)
Fixpoint walk (fuel : nat) (nodeId : jsstring) (stack : gset jsstring)
         (nextPath : list jsstring) : option (list jsstring) :=
  match fuel with
  | O => None
  | S fuel' =>
      match nodeById !! nodeId with
      | None => Some nextPath
      | Some node =>
          let nextPath := nextPath ++ [nodeId] in
          if has stack nodeId then Some nextPath
          else
            let nextStack := stack ∪ {[nodeId]} in
            foldl
              (fun acc edgeId =>
                 match acc with
                 | None => None
                 | Some path =>
                     match traversable nodeId edgeId with
                     | Some (edge, target) =>
                         walk fuel' target nextStack (path ++ [edge_id edge])
                     | None => Some path
                     end
                 end)
              (Some nextPath) (selectedEdgeIds node nodeId)
      end
  end.
End Walk.

(** Depth needed by [walk]: one level per node id plus the level that
    meets the stack. *)
Definition walkFuel (graph : Graph) : nat := S (length (nodes graph)).

(** The second half of [rebuildActivePathFromSelections]: selections
    restricted to the nodes and edges of the path. An entry of the path
    counts as a node when it is a node id, as an edge only otherwise. *)
Definition activeNodeIds (graph : Graph) (nextPath : list jsstring) : gset jsstring :=
  jsSet (filter (fun entry => entry ∈ nodeIds graph) nextPath).

Definition activeEdgeIds (graph : Graph) (nextPath : list jsstring) : gset jsstring :=
  jsSet (filter (fun entry => (entry ∉ nodeIds graph) ∧ (entry ∈ edgeIds graph)) nextPath).

(** [filtered.push(edgeId)] for the ids that pass [keep] and are not yet
    included. *)
Definition pushUnique (keep : jsstring -> bool) (edgeIdList : list jsstring) : list jsstring :=
  foldl (fun filtered edgeId =>
           if keep edgeId && negb (includes filtered edgeId)
           then filtered ++ [edgeId] else filtered)
        [] edgeIdList.

Definition pruneSelections (activeNodes activeEdges : gset jsstring)
           (selections : gmap jsstring (list jsstring)) : gmap jsstring (list jsstring) :=
  map_imap
    (fun nodeId edgeIdList =>
       if negb (has activeNodes nodeId) then None
       else
         let filtered := pushUnique (has activeEdges) edgeIdList in
         if bool_decide (0 < length filtered)%nat then Some filtered else None)
    selections.

Definition rebuildActivePathFromSelections (graph : Graph) : Graph :=
  match nodes graph with
  | [] =>
      withUi graph (mkUi (selectedNodeId (ui graph)) [] ∅)
  | root :: _ =>
      let rootNodeId := node_id root in
      if negb (nonEmpty rootNodeId) then
        withUi graph (mkUi (selectedNodeId (ui graph)) [] ∅)
      else
        let selections := activeSelections (ui graph) in
        let nextPath :=
          default []
            (walk (nodeMap graph) (edgeMap graph) selections
                  (walkFuel graph) rootNodeId ∅ []) in
        let prunedSelections :=
          pruneSelections (activeNodeIds graph nextPath)
                          (activeEdgeIds graph nextPath) selections in
        withUi graph (mkUi (selectedNodeId (ui graph)) nextPath prunedSelections)
  end.

(** ** The consistency enforcer: [enforceGraphConsistency] *)

(** The part of the global [state] object the core reads and writes. *)
Record PendingChoice : Type := mkPendingChoice {
  sourceNodeId : jsstring;
  buttonText : jsstring
}.

Record AppState : Type := mkAppState {
  selectedEdgeId : option jsstring;
  selectedEdgeSelectionSource : option jsstring;
  pendingChoice : option PendingChoice;
  lastChosenEdgeId : option jsstring;
  lastChosenNodeId : option jsstring
}.

(** Truthiness of a nullable string. *)
Definition truthyId (x : option jsstring) : bool :=
  match x with Some s => nonEmpty s | None => false end.

(** The callback of [graph.edges.filter]: the edge as the callback leaves
    it, or [None] when the callback returns [false]. *)
Definition sanitizeEdge (nodeIdSet : gset jsstring) (edge : Edge) : option Edge :=
  if negb (has nodeIdSet (edge_from edge)) then None
  else
    let dangling :=
      Some (mkEdge (edge_id edge) (edge_from edge) None (edge_buttonId edge)
                   (finiteOrNull (edge_pendingX edge))
                   (finiteOrNull (edge_pendingY edge))) in
    match edge_to edge with
    | Some target =>
        if nonEmpty (trim target) then
          if has nodeIdSet (trim target) then
            Some (mkEdge (edge_id edge) (edge_from edge) (Some (trim target))
                         (edge_buttonId edge) None None)
          else None
        else dangling
    | None => dangling
    end.

(** [outgoingByNode]: each edge is pushed on the list of its source. *)
Definition outgoingMap (es : list Edge) : gmap jsstring (list Edge) :=
  foldl (fun m edge =>
           <[edge_from edge := default [] (m !! edge_from edge) ++ [edge]]> m)
        ∅ es.

Definition outgoingOf (outgoingByNode : gmap jsstring (list Edge))
           (nodeId : jsstring) : list Edge :=
  default [] (outgoingByNode !! nodeId).

(** [typeof edge.to === 'string' && edge.to ? edge.to : null] *)
Definition targetOrNull (target : option jsstring) : option jsstring :=
  match target with
  | Some t => if nonEmpty t then Some t else None
  | None => None
  end.

(** The two assignments that end a round of the inner
    [outgoing.forEach]: [button.to] follows the edge and an empty
    [button.text] becomes [Choice]. *)
Definition retarget (edge : Edge) (button : Button) : Button :=
  mkButton (button_id button)
           (if nonEmpty (button_text button) then button_text button
            else js "Choice")
           (targetOrNull (edge_to edge)).

(** One round of the inner [outgoing.forEach]. The buttons of the node
    are objects shared between [node.buttons] and the map [buttonById];
    the map holds the position of each button in the array. *)
Definition mirrorEdge (st : list Button * gmap jsstring nat) (edge : Edge)
  : list Button * gmap jsstring nat :=
  let '(buttons, buttonById) := st in
  match buttonById !! edge_buttonId edge with
  | Some i => (alter (retarget edge) i buttons, buttonById)
  | None =>
      (buttons ++
         [retarget edge (mkButton (edge_buttonId edge) (js "Choice") (edge_to edge))],
       <[edge_buttonId edge := length buttons]> buttonById)
  end.

Definition buttonIndex (buttons : list Button) : gmap jsstring nat :=
  jsMap (imap (fun i button => (button_id button, i)) buttons).

(** The body of the first [graph.nodes.forEach]. *)
Definition mirrorNode (outgoingByNode : gmap jsstring (list Edge)) (node : Node) : Node :=
  let outgoing := outgoingOf outgoingByNode (node_id node) in
  let '(buttons, _) :=
    foldl mirrorEdge (node_buttons node, buttonIndex (node_buttons node)) outgoing in
  let validButtonIds := jsSet (map edge_buttonId outgoing) in
  mkNode (node_id node) (node_x node) (node_y node) (node_text node)
         (normalizeNodeType (JStr (node_type node)))
         (normalizeHexColor (ofNullable (node_color node)))
         (filter (fun button => button_id button ∈ validButtonIds) buttons).

(** [derivedSelections]: the selections read off a previous active
    path. *)
Definition deriveSelections (edgeIdSet : gset jsstring) (edgeById : gmap jsstring Edge)
           (path : list jsstring) : gmap jsstring (list jsstring) :=
  foldl (fun derived entry =>
           if negb (has edgeIdSet entry) then derived
           else
             match edgeById !! entry with
             | None => derived
             | Some edge =>
                 let current := default [] (derived !! edge_from edge) in
                 <[edge_from edge :=
                     if includes current (edge_id edge) then current
                     else current ++ [edge_id edge]]> derived
             end)
        ∅ path.

(** [typeof edge.to === 'string' && edge.to && nodeById.has(edge.to)] *)
Definition resolves (nodeIdSet : gset jsstring) (edge : Edge) : bool :=
  match edge_to edge with
  | Some t => nonEmpty t && has nodeIdSet t
  | None => false
  end.

(** The body of the second [graph.nodes.forEach]. *)
Definition normalizeSelection (nodeIdSet : gset jsstring)
           (outgoingByNode : gmap jsstring (list Edge))
           (sourceSelections : gmap jsstring (list jsstring))
           (normalizedSelections : gmap jsstring (list jsstring)) (node : Node)
  : gmap jsstring (list jsstring) :=
  let outgoing := outgoingOf outgoingByNode (node_id node) in
  let validEdgeIds :=
    jsSet (map edge_id
               (filter (fun edge => Is_true (resolves nodeIdSet edge)) outgoing)) in
  let rawSelection := default [] (sourceSelections !! node_id node) in
  let uniqueSelection := pushUnique (has validEdgeIds) rawSelection in
  let uniqueSelection :=
    if bool_decide (node_type node = js "xor")
       && bool_decide (1 < length uniqueSelection)%nat
    then take 1 uniqueSelection else uniqueSelection in
  if bool_decide (0 < length uniqueSelection)%nat
  then <[node_id node := uniqueSelection]> normalizedSelections
  else normalizedSelections.

Definition enforceGraphConsistency (state : AppState) (graph : Graph) : AppState * Graph :=
  let nodeIdSet0 := nodeIds graph in
  let graph := withEdges graph (omap (sanitizeEdge nodeIdSet0) (edges graph)) in
  let outgoingByNode := outgoingMap (edges graph) in
  let graph := withNodes graph (map (mirrorNode outgoingByNode) (nodes graph)) in
  let nodeIdSet := nodeIds graph in
  let edgeIdSet := edgeIds graph in
  let edgeById := edgeMap graph in
  let selected :=
    match selectedNodeId (ui graph) with
    | Some s => if has nodeIdSet s then Some s else None
    | None => None
    end in
  let currentSelections := activeSelections (ui graph) in
  let hasExplicitSelections := negb (bool_decide (currentSelections = ∅)) in
  let derivedSelections :=
    if hasExplicitSelections then ∅
    else deriveSelections edgeIdSet edgeById (activePath (ui graph)) in
  let sourceSelections :=
    if hasExplicitSelections then currentSelections else derivedSelections in
  let normalizedSelections :=
    foldl (normalizeSelection nodeIdSet outgoingByNode sourceSelections) ∅ (nodes graph) in
  let graph :=
    rebuildActivePathFromSelections
      (withUi graph (mkUi selected (activePath (ui graph)) normalizedSelections)) in
  let state :=
    if truthyId (selectedEdgeId state)
       && negb (has edgeIdSet (default [] (selectedEdgeId state)))
    then mkAppState None None (pendingChoice state)
                    (lastChosenEdgeId state) (lastChosenNodeId state)
    else state in
  let state :=
    match pendingChoice state with
    | Some pending =>
        if negb (has nodeIdSet (sourceNodeId pending))
        then mkAppState (selectedEdgeId state) (selectedEdgeSelectionSource state)
                        None (lastChosenEdgeId state) (lastChosenNodeId state)
        else state
    | None => state
    end in
  (state, graph).

(** ** The selection model: [applyTypedEdgeSelection]

    [state.currentGraph] is kept apart from the other fields of [state];
    [None] is the [null] of a session without a graph. *)

Record SelectionResult : Type := mkSelectionResult {
  edge : Edge;
  sourceNodeType : jsstring;
  edgeIsSelected : bool
}.

Definition findNode (currentGraph : option Graph) (nodeId : jsstring) : option Node :=
  match currentGraph with
  | Some graph => List.find (fun node => bool_decide (node_id node = nodeId)) (nodes graph)
  | None => None
  end.

Definition findEdge (currentGraph : option Graph) (edgeId : jsstring) : option Edge :=
  match currentGraph with
  | Some graph => List.find (fun edge => bool_decide (edge_id edge = edgeId)) (edges graph)
  | None => None
  end.

Definition edgeHasTarget (edge : Edge) : bool :=
  match edge_to edge with
  | Some target => bool_decide (0 < length (trim target))%nat
  | None => false
  end.

(** [Array.from(new Set(list))]: first occurrences, in order. *)
Definition jsUnique (l : list jsstring) : list jsstring :=
  pushUnique (fun _ => true) l.

(** The OR/XOR branch of [applyTypedEdgeSelection]: the selection map it
    leaves and the flag [edgeIsSelected]. *)
Definition toggleSelection (sourceNodeType sourceId edgeId : jsstring)
           (selections : gmap jsstring (list jsstring))
  : gmap jsstring (list jsstring) * bool :=
  let currentSelection :=
    match selections !! sourceId with
    | Some l => jsUnique (filter (fun id => Is_true (nonEmpty id)) l)
    | None => []
    end in
  if bool_decide (sourceNodeType = js "or") then
    if includes currentSelection edgeId then
      let nextSelection := filter (fun id => id ≠ edgeId) currentSelection in
      if bool_decide (0 < length nextSelection)%nat
      then (<[sourceId := nextSelection]> selections, false)
      else (delete sourceId selections, false)
    else (<[sourceId := currentSelection ++ [edgeId]]> selections, true)
  else
    if bool_decide (currentSelection = [edgeId])
    then (delete sourceId selections, false)
    else (<[sourceId := [edgeId]]> selections, true).

Definition clearIfAbsent (path : list jsstring) (x : option jsstring) : option jsstring :=
  if truthyId x && negb (includes path (default [] x)) then None else x.

Definition applyTypedEdgeSelection (state : AppState) (currentGraph : option Graph)
           (edgeId : jsstring)
  : option SelectionResult * AppState * option Graph :=
  match currentGraph with
  | None => (None, state, currentGraph)
  | Some graph =>
      match findEdge currentGraph edgeId with
      | None => (None, state, currentGraph)
      | Some edge =>
          if negb (edgeHasTarget edge) then (None, state, currentGraph)
          else
            match findNode currentGraph (edge_from edge) with
            | None => (None, state, currentGraph)
            | Some sourceNode =>
                let sourceNodeType := normalizeNodeType (JStr (node_type sourceNode)) in
                let '(selections, edgeIsSelected) :=
                  toggleSelection sourceNodeType (node_id sourceNode) (edge_id edge)
                                  (activeSelections (ui graph)) in
                let graph :=
                  rebuildActivePathFromSelections
                    (withUi graph (mkUi (selectedNodeId (ui graph))
                                        (activePath (ui graph)) selections)) in
                let chosenEdge :=
                  if edgeIsSelected then Some (edge_id edge)
                  else if bool_decide (lastChosenEdgeId state = Some (edge_id edge))
                       then None else lastChosenEdgeId state in
                let chosenNode :=
                  if edgeIsSelected then edge_to edge
                  else if bool_decide (lastChosenNodeId state = edge_to edge)
                       then None else lastChosenNodeId state in
                let state :=
                  mkAppState (selectedEdgeId state) (selectedEdgeSelectionSource state)
                             (pendingChoice state)
                             (clearIfAbsent (activePath (ui graph)) chosenEdge)
                             (clearIfAbsent (activePath (ui graph)) chosenNode) in
                (Some (mkSelectionResult edge sourceNodeType edgeIsSelected),
                 state, Some graph)
            end
      end
  end.

(** ** Import: [normalizeGraph]

    [uid] and [nowISO] read the random source and the clock of the host.
    The [n]-th random part [uid] draws is [random n] and the [n]-th
    reading of the clock is [clock n]; the number of parts drawn so far is
    threaded through the calls. The [while] loops that draw ids until one
    is free run on fuel: [None] stands for a loop that has not ended
    within it. *)

Inductive Outcome (A : Type) : Type :=
  | Returned (value : A)
  | Thrown (message : jsstring)
  | OutOfFuel.

Arguments Returned {A} value.
Arguments Thrown {A} message.
Arguments OutOfFuel {A}.

(** [!value || typeof value !== 'object'], negated: objects and arrays. *)
Definition isObjectLike (value : jsval) : bool :=
  match value with
  | JArr _ | JObj _ => true
  | _ => false
  end.

Definition isArray (value : jsval) : bool :=
  match value with JArr _ => true | _ => false end.

(** The elements of an array ([[]] for any other value). *)
Definition itemsOf (value : jsval) : list jsval :=
  match value with JArr items => items | _ => [] end.

(** [typeof v === 'string' && v.trim() ? v.trim() : fallback], with
    [None] for the fallback. *)
Definition trimmedString (value : jsval) : option jsstring :=
  match value with
  | JStr s => if nonEmpty (trim s) then Some (trim s) else None
  | _ => None
  end.

(** [Number.isFinite(v) ? v : fallback] *)
Definition finiteOr (value : jsval) (fallback : jsnum) : jsnum :=
  match value with
  | JNum n => if isFinite n then n else fallback
  | _ => fallback
  end.

(** [Number.isFinite(v) ? v : null] *)
Definition finiteOrNullOf (value : jsval) : option jsnum :=
  match value with
  | JNum n => if isFinite n then Some n else None
  | _ => None
  end.

(** [array.filter((entry) => typeof entry === 'string')] *)
Definition stringsOf (items : list jsval) : list jsstring :=
  omap (fun item => match item with JStr s => Some s | _ => None end) items.

(** The raw [ui.activeSelections] object as the enforcer reads it: it
    looks at the properties that hold an array, and in such an array at
    the strings. *)
Definition selectionsOf (raw : jsval) : gmap jsstring (list jsstring) :=
  match raw with
  | JObj fields =>
      omap (fun value =>
              match value with
              | JArr items => Some (stringsOf items)
              | _ => None
              end)
           (foldr (fun kv m => <[kv.1 := kv.2]> m) (∅ : gmap jsstring jsval) fields)
  | _ => ∅
  end.

(** [typeof version === 'number' && version > GRAPH_VERSION] *)
Definition exceedsVersion (version : jsval) : bool :=
  match version with
  | JNum (NumFin z) => bool_decide (GRAPH_VERSION < z)%Z
  | JNum NumPosInf => true
  | _ => false
  end.

(** [array.forEach((item, index) => ...)] with a body that may run out of
    fuel. *)
Fixpoint forEach {St A : Type} (body : St -> A -> nat -> option St) (index : nat)
         (st : St) (items : list A) : option St :=
  match items with
  | [] => Some st
  | item :: rest =>
      match body st item index with
      | Some st' => forEach body (S index) st' rest
      | None => None
      end
  end.

Section NormalizeGraph.

Variable random : nat -> jsstring.
Variable clock : nat -> jsstring.

(** [uid(prefix)] at the [n]-th draw. *)
Definition uid (prefix : jsstring) (n : nat) : jsstring :=
  prefix ++ js "_" ++ random n.

(** [while (taken.has(id)) id = uid(prefix)]: the id the loop ends with
    and the number of parts drawn by then. *)
Fixpoint freshen (fuel : nat) (prefix : jsstring) (taken : gset jsstring)
         (id : jsstring) (n : nat) : option (jsstring * nat) :=
  match fuel with
  | O => None
  | S fuel' =>
      if has taken id then freshen fuel' prefix taken (uid prefix n) (S n)
      else Some (id, n)
  end.

(** [typeof raw === 'string' && raw.trim() ? raw.trim() : uid(prefix)] *)
Definition idOrUid (prefix : jsstring) (raw : jsval) (n : nat) : jsstring * nat :=
  match trimmedString raw with
  | Some id => (id, n)
  | None => (uid prefix n, S n)
  end.

(** The body of [rawNode.buttons.forEach]. *)
Definition normalizeButton (fuel : nat) (st : list Button * gset jsstring * nat)
           (rawButton : jsval) (index : nat)
  : option (list Button * gset jsstring * nat) :=
  let '(buttons, buttonSet, n) := st in
  if negb (isObjectLike rawButton) then Some st
  else
    let '(buttonId, n) := idOrUid (js "b") (getProp rawButton (js "id")) n in
    match freshen fuel (js "b") buttonSet buttonId n with
    | None => None
    | Some (buttonId, n) =>
        Some (buttons ++
                [mkButton buttonId
                          (default (js "Choice")
                                   (trimmedString (getProp rawButton (js "text"))))
                          (trimmedString (getProp rawButton (js "to")))],
              {[buttonId]} ∪ buttonSet, n)
    end.

(** The body of [input.nodes.forEach]. *)
Definition normalizeNode (fuel : nat) (st : list Node * gset jsstring * nat)
           (rawNode : jsval) (index : nat)
  : option (list Node * gset jsstring * nat) :=
  let '(graphNodes, nodeIdSet, n) := st in
  if negb (isObjectLike rawNode) then Some st
  else
    let '(nodeId, n) := idOrUid (js "n") (getProp rawNode (js "id")) n in
    match freshen fuel (js "n") nodeIdSet nodeId n with
    | None => None
    | Some (nodeId, n) =>
        match forEach (normalizeButton fuel) 0%nat ([], ∅, n)
                      (itemsOf (getProp rawNode (js "buttons"))) with
        | None => None
        | Some (buttons, _, n) =>
            Some (graphNodes ++
                    [mkNode nodeId
                            (finiteOr (getProp rawNode (js "x"))
                                      (NumFin (140 + Z.of_nat index * 30)))
                            (finiteOr (getProp rawNode (js "y"))
                                      (NumFin (100 + Z.of_nat index * 30)))
                            (default (js "Node " ++ natToString (N.of_nat (index + 1)))
                                     (trimmedString (getProp rawNode (js "text"))))
                            (normalizeNodeType (getProp rawNode (js "type")))
                            (normalizeHexColor (getProp rawNode (js "color")))
                            buttons],
                  {[nodeId]} ∪ nodeIdSet, n)
        end
    end.

(** [graph.nodes.some((node) => node.id === id)] *)
Definition someNode (graphNodes : list Node) (id : jsstring) : bool :=
  includes (map node_id graphNodes) id.

(** The body of [input.edges.forEach]. *)
Definition normalizeEdge (fuel : nat) (graphNodes : list Node)
           (st : list Edge * gset jsstring * nat) (rawEdge : jsval) (index : nat)
  : option (list Edge * gset jsstring * nat) :=
  let '(graphEdges, edgeIdSet, n) := st in
  if negb (isObjectLike rawEdge) then Some st
  else
    match getProp rawEdge (js "from") with
    | JStr from =>
        let fromId := trim from in
        let toId := trimmedString (getProp rawEdge (js "to")) in
        if negb (nonEmpty fromId) then Some st
        else if negb (someNode graphNodes fromId) then Some st
        else if truthyId toId && negb (someNode graphNodes (default [] toId)) then Some st
        else
          let '(edgeId, n) := idOrUid (js "e") (getProp rawEdge (js "id")) n in
          match freshen fuel (js "e") edgeIdSet edgeId n with
          | None => None
          | Some (edgeId, n) =>
              let '(buttonId, n) :=
                idOrUid (js "b") (getProp rawEdge (js "buttonId")) n in
              Some (graphEdges ++
                      [mkEdge edgeId fromId toId buttonId
                              (finiteOrNullOf (getProp rawEdge (js "pendingX")))
                              (finiteOrNullOf (getProp rawEdge (js "pendingY")))],
                    {[edgeId]} ∪ edgeIdSet, n)
          end
    | _ => Some st
    end.

(** The node pushed when the import has produced none. *)
Definition startNode (n : nat) : Node :=
  mkNode (uid (js "n") n) (NumFin 220) (NumFin 120) (js "Start") DEFAULT_NODE_TYPE None [].

(** The part of [normalizeGraph] after the four checks. *)
Definition buildGraph (fuel : nat) (state : AppState) (input : jsval)
  : option (AppState * Graph) :=
  let '(id, n) :=
    match getProp input (js "id") with
    | JStr s => if nonEmpty s then (s, 0%nat) else (uid (js "g") 0, 1%nat)
    | _ => (uid (js "g") 0, 1%nat)
    end in
  let name := default (js "Untitled Graph") (trimmedString (getProp input (js "name"))) in
  let '(created, ticks) :=
    match getProp input (js "createdAt") with
    | JStr s => (s, 0%nat)
    | _ => (clock 0%nat, 1%nat)
    end in
  let updated :=
    match getProp input (js "updatedAt") with
    | JStr s => s
    | _ => clock ticks
    end in
  let rawUi := getProp input (js "ui") in
  let graphUi :=
    mkUi match getProp rawUi (js "selectedNodeId") with
         | JStr s => Some s
         | _ => None
         end
         (stringsOf (itemsOf (getProp rawUi (js "activePath"))))
         (selectionsOf (getProp rawUi (js "activeSelections"))) in
  match forEach (normalizeNode fuel) 0%nat ([], ∅, n) (itemsOf (getProp input (js "nodes"))) with
  | None => None
  | Some (graphNodes, _, n) =>
      let '(graphNodes, n) :=
        match graphNodes with
        | [] => ([startNode n], S n)
        | _ => (graphNodes, n)
        end in
      match forEach (normalizeEdge fuel graphNodes) 0%nat ([], ∅, n)
                    (itemsOf (getProp input (js "edges"))) with
      | None => None
      | Some (graphEdges, _, _) =>
          Some (enforceGraphConsistency state
                  (mkGraph id name GRAPH_VERSION created updated
                           graphNodes graphEdges graphUi))
      end
  end.

Definition normalizeGraph (fuel : nat) (state : AppState) (input : jsval)
           (sourceLabel : jsstring) : Outcome (AppState * Graph) :=
  if negb (isObjectLike input) then
    Thrown (sourceLabel ++ js ": root must be an object.")
  else if exceedsVersion (getProp input (js "version")) then
    Thrown (sourceLabel ++ js ": unsupported graph version "
                        ++ toString (getProp input (js "version")) ++ js ".")
  else if negb (isArray (getProp input (js "nodes"))) then
    Thrown (sourceLabel ++ js ": nodes must be an array.")
  else if negb (isArray (getProp input (js "edges"))) then
    Thrown (sourceLabel ++ js ": edges must be an array.")
  else
    match buildGraph fuel state input with
    | Some result => Returned result
    | None => OutOfFuel
    end.

End NormalizeGraph.

(** * Properties *)

(** ** Maps and sets built from arrays *)

Section JsMap.
Context {V : Type}.
Implicit Types (pairs : list (jsstring * V)) (k : jsstring) (v : V).

Lemma jsMap_snoc pairs k v : jsMap (pairs ++ [(k, v)]) = <[k := v]> (jsMap pairs).
Proof. unfold jsMap. by rewrite foldl_app. Qed.

Lemma jsMap_lookup_Some pairs k v :
  jsMap pairs !! k = Some v -> (k, v) ∈ pairs.
Proof.
  induction pairs as [|[k' v'] pairs IH] using rev_ind; [done|].
  rewrite jsMap_snoc, lookup_insert. case_decide as Hk; simpl in *.
  - intros [= <-]. subst. apply elem_of_app. right. apply list_elem_of_singleton. done.
  - intros H. apply elem_of_app. left. by apply IH.
Qed.

Lemma jsMap_is_Some pairs k :
  is_Some (jsMap pairs !! k) <-> k ∈ pairs.*1.
Proof.
  induction pairs as [|[k' v'] pairs IH] using rev_ind.
  - unfold jsMap; simpl. rewrite lookup_empty.
    split; [by intros [? ?]|by intros ?%elem_of_nil].
  - rewrite jsMap_snoc, fmap_app, lookup_insert, elem_of_app. simpl.
    rewrite list_elem_of_singleton.
    case_decide as Hk; simpl in *.
    + subst. split; [by right|eauto].
    + rewrite IH. split; [by left|]. intros [?|?]; [done|]. by subst.
Qed.

Lemma jsMap_lookup_None pairs k :
  jsMap pairs !! k = None <-> k ∉ pairs.*1.
Proof. rewrite <- jsMap_is_Some, eq_None_not_Some. done. Qed.

(** With pairwise distinct keys every pair is found under its key. *)
Lemma jsMap_lookup_NoDup pairs k v :
  NoDup pairs.*1 -> (k, v) ∈ pairs -> jsMap pairs !! k = Some v.
Proof.
  induction pairs as [|[k' v'] pairs IH] using rev_ind; [by intros _ ?%elem_of_nil|].
  rewrite fmap_app, jsMap_snoc, lookup_insert. simpl.
  intros [Hnd [Hdisj _]]%list.NoDup_app Hin.
  apply elem_of_app in Hin as [Hin|Hin].
  - case_decide as Hk; simpl in *.
    + subst. exfalso. apply (Hdisj k); [|by apply list_elem_of_singleton].
      apply list_elem_of_fmap. by exists (k, v).
    + by apply IH.
  - apply list_elem_of_singleton in Hin as [= -> ->]. simpl. by rewrite decide_True.
Qed.
End JsMap.

Lemma elem_of_jsSet (items : list jsstring) x : x ∈ jsSet items <-> x ∈ items.
Proof. unfold jsSet. by rewrite elem_of_list_to_set. Qed.

Lemma has_true s x : has s x = true <-> x ∈ s.
Proof. unfold has. by rewrite bool_decide_eq_true. Qed.

Lemma has_false s x : has s x = false <-> x ∉ s.
Proof. unfold has. by rewrite bool_decide_eq_false. Qed.

Lemma includes_true l x : includes l x = true <-> x ∈ l.
Proof. unfold includes. by rewrite bool_decide_eq_true. Qed.

Lemma includes_false l x : includes l x = false <-> x ∉ l.
Proof. unfold includes. by rewrite bool_decide_eq_false. Qed.

Lemma elem_of_nodeIds graph x :
  x ∈ nodeIds graph <-> exists node, node ∈ nodes graph /\ node_id node = x.
Proof.
  unfold nodeIds. rewrite elem_of_jsSet, list_elem_of_fmap. naive_solver.
Qed.

Lemma elem_of_edgeIds graph x :
  x ∈ edgeIds graph <-> exists e, e ∈ edges graph /\ edge_id e = x.
Proof.
  unfold edgeIds. rewrite elem_of_jsSet, list_elem_of_fmap. naive_solver.
Qed.

Lemma nodeMap_lookup_Some graph x node :
  nodeMap graph !! x = Some node -> node ∈ nodes graph /\ node_id node = x.
Proof.
  intros H%jsMap_lookup_Some. apply list_elem_of_fmap in H as [n [[= -> ->] Hn]]. done.
Qed.

Lemma nodeMap_is_Some graph x :
  is_Some (nodeMap graph !! x) <-> x ∈ nodeIds graph.
Proof.
  unfold nodeMap, nodeIds. rewrite jsMap_is_Some, elem_of_jsSet.
  by rewrite <- list_fmap_compose.
Qed.

Lemma hasKey_nodeMap graph x : hasKey (nodeMap graph) x = has (nodeIds graph) x.
Proof. unfold hasKey, has. apply bool_decide_ext, nodeMap_is_Some. Qed.

Lemma edgeMap_lookup_Some graph x e :
  edgeMap graph !! x = Some e -> e ∈ edges graph /\ edge_id e = x.
Proof.
  intros H%jsMap_lookup_Some. apply list_elem_of_fmap in H as [n [[= -> ->] Hn]]. done.
Qed.

Lemma edgeMap_is_Some graph x :
  is_Some (edgeMap graph !! x) <-> x ∈ edgeIds graph.
Proof.
  unfold edgeMap, edgeIds. rewrite jsMap_is_Some, elem_of_jsSet.
  by rewrite <- list_fmap_compose.
Qed.

(** ** The walk *)

Section WalkFacts.
Variable nodeById : gmap jsstring Node.
Variable edgeById : gmap jsstring Edge.

Abbreviation path := (list jsstring).

(** The edges a visit of [nodeId] follows, with their targets, in the
    order of the selection. *)
Definition steps (selections : gmap jsstring (list jsstring)) (node : Node)
           (nodeId : jsstring) : list (Edge * jsstring) :=
  omap (traversable nodeById edgeById nodeId) (selectedEdgeIds selections node nodeId).

(** What a list of steps appends to the path, given the output of the
    walk from each target. *)
Fixpoint stepsOut (w : jsstring -> option path) (l : list (Edge * jsstring))
  : option path :=
  match l with
  | [] => Some []
  | (e, target) :: l' =>
      match w target, stepsOut w l' with
      | Some p, Some q => Some (edge_id e :: p ++ q)
      | _, _ => None
      end
  end.

Section OneSelection.
Variable selections : gmap jsstring (list jsstring).

Abbreviation walk' := (walk nodeById edgeById selections).

Definition walkBody (fuel : nat) (nodeId : jsstring) (nextStack : gset jsstring)
           (acc : option path) (edgeId : jsstring) : option path :=
  match acc with
  | None => None
  | Some p =>
      match traversable nodeById edgeById nodeId edgeId with
      | Some (e, target) => walk' fuel target nextStack (p ++ [edge_id e])
      | None => Some p
      end
  end.

Lemma walk_S fuel nodeId stack nextPath :
  walk' (S fuel) nodeId stack nextPath =
  match nodeById !! nodeId with
  | None => Some nextPath
  | Some node =>
      if has stack nodeId then Some (nextPath ++ [nodeId])
      else foldl (walkBody fuel nodeId (stack ∪ {[nodeId]}))
                 (Some (nextPath ++ [nodeId]))
                 (selectedEdgeIds selections node nodeId)
  end.
Proof. reflexivity. Qed.

Lemma walkBody_None fuel nodeId nextStack l :
  foldl (walkBody fuel nodeId nextStack) None l = None.
Proof. by induction l. Qed.

Lemma walk_foldl fuel nodeId nextStack
      (Hacc : forall n st acc, walk' fuel n st acc = (acc ++.) <$> walk' fuel n st []) l :
  forall acc,
    foldl (walkBody fuel nodeId nextStack) (Some acc) l =
    (acc ++.) <$> stepsOut (fun t => walk' fuel t nextStack [])
                           (omap (traversable nodeById edgeById nodeId) l).
Proof.
  induction l as [|edgeId l IH]; intros acc; simpl.
  - by rewrite app_nil_r.
  - destruct (traversable nodeById edgeById nodeId edgeId) as [[e target]|] eqn:Ht;
      simpl; [|apply IH].
    rewrite Hacc. destruct (walk' fuel target nextStack []) as [p|]; simpl.
    + rewrite IH. destruct (stepsOut _ _) as [q|]; simpl; [|done].
      f_equal. by rewrite <- !app_assoc.
    + apply walkBody_None.
Qed.

(** The shared array only ever grows at its end. *)
Lemma walk_acc fuel :
  forall nodeId stack acc,
    walk' fuel nodeId stack acc = (acc ++.) <$> walk' fuel nodeId stack [].
Proof.
  induction fuel as [|fuel IH]; intros nodeId stack acc; [done|].
  rewrite !walk_S. destruct (nodeById !! nodeId) as [node|]; simpl.
  - destruct (has stack nodeId); simpl; [done|].
    rewrite !(walk_foldl _ _ _ IH). simpl.
    destruct (stepsOut _ _); simpl; [|done]. by rewrite <- app_assoc.
  - by rewrite app_nil_r.
Qed.

(** The walk as a function of the steps taken at each node. *)
Lemma walk_unfold fuel nodeId stack :
  walk' (S fuel) nodeId stack [] =
  match nodeById !! nodeId with
  | None => Some []
  | Some node =>
      if has stack nodeId then Some [nodeId]
      else (nodeId ::.) <$>
           stepsOut (fun t => walk' fuel t (stack ∪ {[nodeId]}) [])
                    (steps selections node nodeId)
  end.
Proof.
  rewrite walk_S. destruct (nodeById !! nodeId) as [node|]; [|done].
  destruct (has stack nodeId); [done|].
  rewrite (walk_foldl _ _ _ (walk_acc fuel)). simpl.
  by destruct (stepsOut _ _).
Qed.
End OneSelection.
End WalkFacts.

(** ** [pushUnique] *)

Lemma pushUnique_snoc keep l x :
  pushUnique keep (l ++ [x]) =
  if keep x && negb (includes (pushUnique keep l) x)
  then pushUnique keep l ++ [x] else pushUnique keep l.
Proof. unfold pushUnique. by rewrite foldl_app. Qed.

Lemma elem_of_pushUnique keep l x :
  x ∈ pushUnique keep l <-> x ∈ l /\ keep x = true.
Proof.
  induction l as [|y l IH] using rev_ind.
  - unfold pushUnique; simpl. rewrite elem_of_nil. tauto.
  - rewrite pushUnique_snoc, (elem_of_app l), list_elem_of_singleton.
    destruct (keep y) eqn:Hy; simpl.
    + destruct (includes (pushUnique keep l) y) eqn:Hin; simpl.
      * apply includes_true in Hin. rewrite IH. split; [tauto|].
        intros [[?| ->] ?]; [tauto|]. by apply IH.
      * rewrite elem_of_app, list_elem_of_singleton, IH. split; [|tauto].
        intros [?| ->]; tauto.
    + rewrite IH. split; [tauto|]. intros [[?| ->] ?]; [tauto|congruence].
Qed.

Lemma NoDup_pushUnique keep l : NoDup (pushUnique keep l).
Proof.
  induction l as [|y l IH] using rev_ind; [constructor|].
  rewrite pushUnique_snoc.
  destruct (keep y); simpl; [|done].
  destruct (includes (pushUnique keep l) y) eqn:Hin; simpl; [done|].
  apply includes_false in Hin. apply list.NoDup_app. split; [done|]. split.
  - intros x Hx ->%list_elem_of_singleton. done.
  - apply NoDup_singleton.
Qed.

Lemma pushUnique_id keep l :
  NoDup l -> (forall x, x ∈ l -> keep x = true) -> pushUnique keep l = l.
Proof.
  induction l as [|y l IH] using rev_ind; [done|].
  intros [Hnd [Hdisj _]]%list.NoDup_app Hkeep.
  rewrite pushUnique_snoc, IH; [|done|].
  - rewrite Hkeep; [|apply elem_of_app; right; by apply list_elem_of_singleton].
    simpl. destruct (includes l y) eqn:Hin; [|done].
    apply includes_true in Hin. exfalso.
    apply (Hdisj y Hin). by apply list_elem_of_singleton.
  - intros x Hx. apply Hkeep, elem_of_app. by left.
Qed.

Lemma pushUnique_filter keep l :
  NoDup l -> pushUnique keep l = filter (fun x => Is_true (keep x)) l.
Proof.
  induction l as [|y l IH] using rev_ind; [done|].
  intros [Hnd [Hdisj _]]%list.NoDup_app.
  rewrite pushUnique_snoc, list.filter_app, IH by done.
  assert (Hy : includes (filter (fun x => Is_true (keep x)) l) y = false).
  { apply includes_false. intros [_ Hin]%list_elem_of_filter.
    apply (Hdisj y Hin). by apply list_elem_of_singleton. }
  rewrite Hy. rewrite filter_cons, filter_nil.
  destruct (keep y) eqn:Hk; simpl; [done|by rewrite app_nil_r].
Qed.

Lemma length_pushUnique keep l : (length (pushUnique keep l) <= length l)%nat.
Proof.
  induction l as [|y l IH] using rev_ind; [done|].
  rewrite pushUnique_snoc, length_app. simpl.
  destruct (_ && _); [rewrite length_app; simpl|]; lia.
Qed.

Lemma pushUnique_nil_iff keep l :
  pushUnique keep l = [] <-> forall x, x ∈ l -> keep x = false.
Proof.
  split.
  - intros Hnil x Hx. destruct (keep x) eqn:Hk; [|done].
    assert (x ∈ pushUnique keep l) as Hin by by apply elem_of_pushUnique.
    rewrite Hnil in Hin. by apply elem_of_nil in Hin.
  - intros Hall. apply elem_of_nil_inv. intros x [Hx Hk]%elem_of_pushUnique.
    rewrite Hall in Hk; done.
Qed.

(** ** The stages of [enforceGraphConsistency] *)

Definition sanitized (graph : Graph) : Graph :=
  withEdges graph (omap (sanitizeEdge (nodeIds graph)) (edges graph)).

Definition mirrored (graph : Graph) : Graph :=
  let graph := sanitized graph in
  withNodes graph (map (mirrorNode (outgoingMap (edges graph))) (nodes graph)).

Definition keptSelectedNode (graph : Graph) : option jsstring :=
  match selectedNodeId (ui graph) with
  | Some s => if has (nodeIds graph) s then Some s else None
  | None => None
  end.

Definition sourceSelectionsOf (graph : Graph) : gmap jsstring (list jsstring) :=
  if negb (bool_decide (activeSelections (ui graph) = ∅))
  then activeSelections (ui graph)
  else deriveSelections (edgeIds graph) (edgeMap graph) (activePath (ui graph)).

Definition normalizedSelectionsOf (graph : Graph) : gmap jsstring (list jsstring) :=
  foldl (normalizeSelection (nodeIds graph) (outgoingMap (edges graph))
                            (sourceSelectionsOf graph))
        ∅ (nodes graph).

Definition prepared (graph : Graph) : Graph :=
  let graph := mirrored graph in
  withUi graph (mkUi (keptSelectedNode graph) (activePath (ui graph))
                     (normalizedSelectionsOf graph)).

Lemma enforce_graph state graph :
  (enforceGraphConsistency state graph).2 =
  rebuildActivePathFromSelections (prepared graph).
Proof.
  unfold enforceGraphConsistency, prepared, normalizedSelectionsOf, sourceSelectionsOf,
    keptSelectedNode, mirrored, sanitized. simpl.
  by destruct (negb (bool_decide (activeSelections (ui graph) = ∅))).
Qed.

Lemma mirrorNode_frame out node :
  node_id (mirrorNode out node) = node_id node /\
  node_x (mirrorNode out node) = node_x node /\
  node_y (mirrorNode out node) = node_y node /\
  node_text (mirrorNode out node) = node_text node.
Proof. unfold mirrorNode. by destruct (foldl _ _ _). Qed.

Lemma mirrorNode_id out node : node_id (mirrorNode out node) = node_id node.
Proof. apply mirrorNode_frame. Qed.

Lemma mirrorNode_type out node :
  node_type (mirrorNode out node) = normalizeNodeType (JStr (node_type node)).
Proof. unfold mirrorNode. by destruct (foldl _ _ _). Qed.

Lemma mirrored_node_ids graph :
  map node_id (nodes (mirrored graph)) = map node_id (nodes graph).
Proof.
  unfold mirrored. simpl. rewrite map_map. apply map_ext. intros. apply mirrorNode_id.
Qed.

Lemma nodeIds_mirrored graph : nodeIds (mirrored graph) = nodeIds graph.
Proof. unfold nodeIds. by rewrite mirrored_node_ids. Qed.

Lemma rebuild_frame graph :
  let graph' := rebuildActivePathFromSelections graph in
  nodes graph' = nodes graph /\ edges graph' = edges graph /\
  selectedNodeId (ui graph') = selectedNodeId (ui graph) /\
  graph_id graph' = graph_id graph /\ graph_name graph' = graph_name graph /\
  graph_version graph' = graph_version graph /\
  createdAt graph' = createdAt graph /\ updatedAt graph' = updatedAt graph.
Proof.
  unfold rebuildActivePathFromSelections.
  destruct (nodes graph) as [|root rest] eqn:Hn; simpl; [by rewrite Hn|].
  destruct (negb (nonEmpty (node_id root))); simpl; by rewrite Hn.
Qed.

Lemma rebuild_nodes graph : nodes (rebuildActivePathFromSelections graph) = nodes graph.
Proof. apply rebuild_frame. Qed.

Lemma rebuild_edges graph : edges (rebuildActivePathFromSelections graph) = edges graph.
Proof. apply rebuild_frame. Qed.

Lemma enforce_nodes state graph :
  nodes (enforceGraphConsistency state graph).2 = nodes (mirrored graph).
Proof. by rewrite enforce_graph, rebuild_nodes. Qed.

Lemma enforce_edges state graph :
  edges (enforceGraphConsistency state graph).2 = edges (sanitized graph).
Proof. by rewrite enforce_graph, rebuild_edges. Qed.

Lemma nodeIds_enforce state graph :
  nodeIds (enforceGraphConsistency state graph).2 = nodeIds graph.
Proof. unfold nodeIds at 1. rewrite enforce_nodes. apply nodeIds_mirrored. Qed.

(** C9. After a pass of [enforceGraphConsistency], [ui.selectedNodeId] is
    [null] or the id of a node of the graph. *)
Theorem enforce_selectedNodeId_valid state graph :
  let graph' := (enforceGraphConsistency state graph).2 in
  selectedNodeId (ui graph') = None \/
  exists node, node ∈ nodes graph' /\ selectedNodeId (ui graph') = Some (node_id node).
Proof.
  intros graph'. subst graph'.
  destruct (rebuild_frame (prepared graph)) as (Hn & _ & Hs & _).
  rewrite enforce_graph, Hs, Hn. simpl. unfold keptSelectedNode.
  destruct (selectedNodeId (ui (mirrored graph))) as [s|]; [|by left].
  destruct (has (nodeIds (mirrored graph)) s) eqn:Hhas; [|by left].
  right. apply has_true, elem_of_nodeIds in Hhas as [node [Hin <-]]. eauto.
Qed.

(** C10. [enforceGraphConsistency] keeps the nodes of the graph, in their
    order, with their [id], [x], [y] and [text], and keeps the [id],
    [name], [version], [createdAt] and [updatedAt] of the graph. *)
Theorem enforce_frame state graph :
  let graph' := (enforceGraphConsistency state graph).2 in
  Forall2 (fun node node' =>
             node_id node' = node_id node /\ node_x node' = node_x node /\
             node_y node' = node_y node /\ node_text node' = node_text node)
          (nodes graph) (nodes graph') /\
  graph_id graph' = graph_id graph /\ graph_name graph' = graph_name graph /\
  graph_version graph' = graph_version graph /\
  createdAt graph' = createdAt graph /\ updatedAt graph' = updatedAt graph.
Proof.
  intros graph'. subst graph'.
  destruct (rebuild_frame (prepared graph)) as (Hn & _ & _ & Hrest).
  rewrite enforce_graph. split; [|exact Hrest].
  rewrite Hn. simpl. apply Forall2_fmap_r, Forall_Forall2_diag, Forall_forall.
  intros node _. apply mirrorNode_frame.
Qed.

(** ** Strings: [trim] *)

Definition blank (s : jsstring) : Prop := Forall (fun c => isWhiteSpace c = true) s.

Lemma trimStart_blank_app pre s : blank pre -> trimStart (pre ++ s) = trimStart s.
Proof.
  induction 1 as [|c pre Hc _ IH]; [done|]. simpl. by rewrite Hc.
Qed.

Lemma trimStart_split s :
  exists pre, s = pre ++ trimStart s /\ blank pre /\
              match trimStart s with c :: _ => isWhiteSpace c = false | [] => True end.
Proof.
  induction s as [|c s (pre & Hs & Hpre & Hhead)].
  { exists []. split; [done|]. split; [constructor|done]. }
  simpl. destruct (isWhiteSpace c) eqn:Hc.
  - exists (c :: pre). split; [simpl; congruence|]. split; [by constructor|done].
  - exists []. split; [done|]. split; [constructor|done].
Qed.

Lemma trimStart_fixed c s : isWhiteSpace c = false -> trimStart (c :: s) = c :: s.
Proof. intros Hc. simpl. by rewrite Hc. Qed.

Lemma blank_rev s : blank s -> blank (rev s).
Proof. apply Forall_rev. Qed.

Lemma trimEnd_blank_app s post : blank post -> trimEnd (s ++ post) = trimEnd s.
Proof.
  intros Hpost. unfold trimEnd. rewrite rev_app_distr.
  by rewrite trimStart_blank_app by by apply blank_rev.
Qed.

Lemma trimEnd_fixed s c : isWhiteSpace c = false -> trimEnd (s ++ [c]) = s ++ [c].
Proof.
  intros Hc. unfold trimEnd. rewrite rev_app_distr. simpl.
  rewrite Hc. simpl. by rewrite rev_involutive.
Qed.

Lemma trimEnd_split s :
  exists post, s = trimEnd s ++ post /\ blank post.
Proof.
  destruct (trimStart_split (rev s)) as (pre & Hs & Hpre & _).
  exists (rev pre). split; [|by apply blank_rev].
  unfold trimEnd. rewrite <- rev_app_distr, <- Hs. by rewrite rev_involutive.
Qed.

(** [trim] removes a blank prefix and a blank suffix. *)
Lemma trim_split s :
  exists pre post, s = pre ++ trim s ++ post /\ blank pre /\ blank post.
Proof.
  destruct (trimStart_split s) as (pre & Hs & Hpre & _).
  destruct (trimEnd_split (trimStart s)) as (post & Hpost & Hblank).
  exists pre, post. unfold trim. by rewrite <- Hpost.
Qed.

(** A text between blanks that neither starts nor ends with white space
    is what [trim] returns. *)
Lemma trim_core pre post first middle last :
  blank pre -> blank post ->
  isWhiteSpace first = false -> isWhiteSpace last = false ->
  trim (pre ++ (first :: middle ++ [last]) ++ post) = first :: middle ++ [last].
Proof.
  intros Hpre Hpost Hfirst Hlast. unfold trim.
  rewrite trimStart_blank_app by done.
  change ((first :: middle ++ [last]) ++ post) with (first :: (middle ++ [last]) ++ post).
  rewrite trimStart_fixed by done.
  change (first :: (middle ++ [last]) ++ post) with ((first :: middle ++ [last]) ++ post).
  rewrite trimEnd_blank_app by done.
  exact (trimEnd_fixed (first :: middle) last Hlast).
Qed.

Lemma lowerChar_o c : lowerChar c = 111 -> c = 79 \/ c = 111.
Proof. unfold lowerChar. case_bool_decide; lia. Qed.

Lemma lowerChar_r c : lowerChar c = 114 -> c = 82 \/ c = 114.
Proof. unfold lowerChar. case_bool_decide; lia. Qed.

Lemma toLowerCase_or core :
  toLowerCase core = js "or" ->
  exists o r, core = [o; r] /\ isWhiteSpace o = false /\ isWhiteSpace r = false.
Proof.
  destruct core as [|o [|r [|? ?]]]; try discriminate.
  intros [= Ho%lowerChar_o Hr%lowerChar_r]. exists o, r.
  destruct Ho as [-> | ->], Hr as [-> | ->]; done.
Qed.

(** C8, as the code has it. The normalised branch type is [or] exactly
    when [String(value || '')], stripped of the white space around it, is
    the word [or] in any letter case; it is [xor] in every other case. A
    string value is its own conversion, a missing value converts to the
    empty string. *)
Theorem normalizeNodeType_trimmed_or value :
  (normalizeNodeType value = js "or" <->
   exists pre core post,
     stringOrEmpty value = pre ++ core ++ post /\ blank pre /\ blank post /\
     toLowerCase core = js "or") /\
  (normalizeNodeType value <> js "or" -> normalizeNodeType value = js "xor") /\
  (forall s, value = JStr s -> stringOrEmpty value = s) /\
  (value = JUndefined -> stringOrEmpty value = []).
Proof.
  split; [|split; [|split]].
  - unfold normalizeNodeType. case_bool_decide as Hor.
    + split; [intros _|done].
      destruct (trim_split (stringOrEmpty value)) as (pre & post & Hs & Hpre & Hpost).
      by exists pre, (trim (stringOrEmpty value)), post.
    + split; [done|]. intros (pre & core & post & Hs & Hpre & Hpost & Hcore).
      exfalso. apply Hor.
      destruct (toLowerCase_or _ Hcore) as (o & r & -> & Ho & Hr).
      rewrite Hs. by rewrite (trim_core pre post o [] r Hpre Hpost Ho Hr : trim (pre ++ [o; r] ++ post) = [o; r]).
  - unfold normalizeNodeType. by case_bool_decide.
  - intros s ->. unfold stringOrEmpty. simpl. by destruct s.
  - by intros ->.
Qed.

(** C8, as the specification words it, fails: a string that only matches
    [or] after trimming is normalised to [or] as well. *)
Lemma normalizeNodeType_not_exact_match :
  normalizeNodeType (JStr (js " or")) = js "or" /\ toLowerCase (js " or") <> js "or".
Proof. split; [by vm_compute|]. by vm_compute. Qed.

(** ** Termination of the walk *)

Lemma size_jsSet_le (items : list jsstring) : (size (jsSet items) <= length items)%nat.
Proof.
  unfold jsSet. induction items as [|x items IH].
  - by rewrite list_to_set_nil, size_empty.
  - rewrite list_to_set_cons, size_union_alt, size_singleton. cbn [length].
    pose proof (subseteq_size (list_to_set items ∖ {[x]}) (list_to_set items : gset jsstring)
                              ltac:(set_solver)). lia.
Qed.

Lemma dom_nodeMap graph : dom (nodeMap graph) = nodeIds graph.
Proof.
  apply set_eq. intros x. by rewrite elem_of_dom, nodeMap_is_Some.
Qed.

Section WalkTermination.
Variable nodeById : gmap jsstring Node.
Variable edgeById : gmap jsstring Edge.
Variable selections : gmap jsstring (list jsstring).

Lemma stepsOut_is_Some w l :
  (forall e target, (e, target) ∈ l -> is_Some (w target)) -> is_Some (stepsOut w l).
Proof.
  induction l as [|[e target] l IH]; intros Hw; simpl; [eauto|].
  destruct (Hw e target) as [p ->]; [apply elem_of_cons; by left|].
  destruct IH as [q ->]; [|eauto].
  intros e' t' Hin. apply (Hw e' t'). apply elem_of_cons. by right.
Qed.

(** Each level of the recursion puts a node id on the stack that was not
    on it, so the depth is bounded by the number of node ids. *)
Lemma walk_total fuel :
  forall nodeId stack,
    (size (dom nodeById ∖ stack) < fuel)%nat ->
    is_Some (walk nodeById edgeById selections fuel nodeId stack []).
Proof.
  induction fuel as [|fuel IH]; intros nodeId stack Hsize; [lia|].
  rewrite walk_unfold. destruct (nodeById !! nodeId) as [node|] eqn:Hnode; [|eauto].
  destruct (has stack nodeId) eqn:Hstack; [eauto|].
  apply has_false in Hstack. apply fmap_is_Some, stepsOut_is_Some.
  intros e target _. apply IH.
  assert (dom nodeById ∖ (stack ∪ {[nodeId]}) ⊂ dom nodeById ∖ stack) as Hsub.
  { apply elem_of_dom_2 in Hnode. set_solver. }
  apply subset_size in Hsub. lia.
Qed.

Lemma stepsOut_ext w1 w2 l q :
  stepsOut w1 l = Some q ->
  (forall e target p, (e, target) ∈ l -> w1 target = Some p -> w2 target = Some p) ->
  stepsOut w2 l = Some q.
Proof.
  revert q. induction l as [|[e target] l IH]; intros q; simpl; [done|].
  destruct (w1 target) as [p|] eqn:Hp; [|done].
  destruct (stepsOut w1 l) as [q'|] eqn:Hq; [|done].
  intros [= <-] Hw. rewrite (Hw e target p); [|apply elem_of_cons; by left|done].
  assert (stepsOut w2 l = Some q') as ->; [|done].
  apply IH; [done|]. intros e' t' p' Hin Hw1.
  apply (Hw e' t' p'); [apply elem_of_cons; by right|done].
Qed.

(** More fuel does not change a result. *)
Lemma walk_fuel_mono fuel :
  forall fuel' nodeId stack p,
    (fuel <= fuel')%nat ->
    walk nodeById edgeById selections fuel nodeId stack [] = Some p ->
    walk nodeById edgeById selections fuel' nodeId stack [] = Some p.
Proof.
  induction fuel as [|fuel IH]; intros fuel' nodeId stack p Hle; [done|].
  destruct fuel' as [|fuel']; [lia|].
  rewrite !walk_unfold. destruct (nodeById !! nodeId) as [node|]; [|done].
  destruct (has stack nodeId); [done|].
  destruct (stepsOut _ _) as [q|] eqn:Hq; [|done]. intros [= <-].
  erewrite stepsOut_ext; [done|exact Hq|].
  intros e target p' _. apply IH. lia.
Qed.
End WalkTermination.

(** The walk of [rebuildActivePathFromSelections] returns. *)
Lemma walk_terminates graph selections nodeId :
  is_Some (walk (nodeMap graph) (edgeMap graph) selections (walkFuel graph) nodeId ∅ []).
Proof.
  apply walk_total. rewrite dom_nodeMap, difference_empty_L. unfold walkFuel, nodeIds.
  pose proof (size_jsSet_le (map node_id (nodes graph))) as Hle.
  rewrite length_map in Hle. lia.
Qed.

(** The result of [rebuildActivePathFromSelections] on a graph with a
    root, from the path the walk returns. *)
Lemma rebuild_ui graph root rest p :
  nodes graph = root :: rest -> nonEmpty (node_id root) = true ->
  walk (nodeMap graph) (edgeMap graph) (activeSelections (ui graph))
       (walkFuel graph) (node_id root) ∅ [] = Some p ->
  ui (rebuildActivePathFromSelections graph) =
  mkUi (selectedNodeId (ui graph)) p
       (pruneSelections (activeNodeIds graph p) (activeEdgeIds graph p)
                        (activeSelections (ui graph))).
Proof.
  intros Hnodes Hne Hwalk. unfold rebuildActivePathFromSelections.
  rewrite Hnodes, Hne. cbn [negb]. by rewrite Hwalk.
Qed.

Lemma rebuild_ui_empty graph :
  match nodes graph with [] => True | root :: _ => nonEmpty (node_id root) = false end ->
  ui (rebuildActivePathFromSelections graph) = mkUi (selectedNodeId (ui graph)) [] ∅.
Proof.
  unfold rebuildActivePathFromSelections.
  destruct (nodes graph) as [|root rest]; [done|]. by intros ->.
Qed.

(** ** Cycle safety *)

Lemma steps_single nodeById edgeById selections node nodeId edgeId e target :
  selections !! nodeId = Some [edgeId] ->
  edgeById !! edgeId = Some e -> edge_from e = nodeId -> edge_to e = Some target ->
  is_Some (nodeById !! target) ->
  steps nodeById edgeById selections node nodeId = [(e, target)].
Proof.
  intros Hsel He Hfrom Hto Htarget. unfold steps, selectedEdgeIds. rewrite Hsel. simpl.
  assert (traversable nodeById edgeById nodeId edgeId = Some (e, target)) as Ht.
  { unfold traversable, hasKey. rewrite He, Hto.
    by rewrite !bool_decide_eq_true_2. }
  destruct (bool_decide (node_type node = js "xor")); simpl; by rewrite Ht.
Qed.

Lemma two_nodes graph a b :
  a ≠ b -> a ∈ nodeIds graph -> b ∈ nodeIds graph -> (2 <= length (nodes graph))%nat.
Proof.
  intros Hab [na [Ha <-]]%elem_of_nodeIds [nb [Hb <-]]%elem_of_nodeIds.
  destruct (nodes graph) as [|n1 [|n2 rest]]; simpl; [|exfalso|lia].
  - by apply elem_of_nil in Ha.
  - apply list_elem_of_singleton in Ha, Hb. congruence.
Qed.

(** C2, as the code has it. When the selections form the cycle
    [a -e1-> b -e2-> a] from the root [a], the walk returns for every
    fuel of at least [walkFuel], the derived path is [a, e1, b, e2, a],
    and so it has at most (2 x node count + 1) entries. *)
Theorem cycle_walk_returns graph root rest a b e1 e2 edge1 edge2 nodeB fuel :
  nodes graph = root :: rest -> node_id root = a -> nonEmpty a = true ->
  a ≠ b -> nodeMap graph !! b = Some nodeB ->
  edgeMap graph !! e1 = Some edge1 -> edge_from edge1 = a -> edge_to edge1 = Some b ->
  edgeMap graph !! e2 = Some edge2 -> edge_from edge2 = b -> edge_to edge2 = Some a ->
  activeSelections (ui graph) !! a = Some [e1] ->
  activeSelections (ui graph) !! b = Some [e2] ->
  (walkFuel graph <= fuel)%nat ->
  walk (nodeMap graph) (edgeMap graph) (activeSelections (ui graph)) fuel a ∅ []
    = Some [a; e1; b; e2; a] /\
  activePath (ui (rebuildActivePathFromSelections graph)) = [a; e1; b; e2; a] /\
  (length (activePath (ui (rebuildActivePathFromSelections graph)))
   <= 2 * length (nodes graph) + 1)%nat.
Proof.
  intros Hnodes Hroot Hne Hab HnodeB He1 Hfrom1 Hto1 He2 Hfrom2 Hto2 Hsel1 Hsel2 Hfuel.
  assert (a ∈ nodeIds graph) as Ha.
  { apply elem_of_nodeIds. exists root. rewrite Hnodes. split; [|done].
    apply elem_of_cons. by left. }
  assert (is_Some (nodeMap graph !! a)) as [nodeA HnodeA] by by apply nodeMap_is_Some.
  assert (b ∈ nodeIds graph) as Hb by (apply nodeMap_is_Some; eauto).
  pose proof (two_nodes graph a b Hab Ha Hb) as Hlen.
  pose proof (edgeMap_lookup_Some _ _ _ He1) as [_ Hid1].
  pose proof (edgeMap_lookup_Some _ _ _ He2) as [_ Hid2].
  assert (forall fuel', (3 <= fuel')%nat ->
            walk (nodeMap graph) (edgeMap graph) (activeSelections (ui graph)) fuel' a ∅ []
            = Some [a; e1; b; e2; a]) as Hwalk.
  { intros fuel' Hle.
    apply (walk_fuel_mono _ _ _ 3); [done|].
    rewrite walk_unfold, HnodeA.
    replace (has ∅ a) with false by (symmetry; apply has_false; set_solver).
    rewrite (steps_single _ _ _ nodeA a e1 edge1 b) by eauto. cbn [stepsOut].
    rewrite walk_unfold, HnodeB.
    replace (has (∅ ∪ {[a]}) b) with false by (symmetry; apply has_false; set_solver).
    rewrite (steps_single _ _ _ nodeB b e2 edge2 a) by eauto. cbn [stepsOut].
    rewrite walk_unfold, HnodeA.
    replace (has (∅ ∪ {[a]} ∪ {[b]}) a) with true by (symmetry; apply has_true; set_solver).
    simpl. by rewrite Hid1, Hid2. }
  assert (activePath (ui (rebuildActivePathFromSelections graph)) = [a; e1; b; e2; a])
    as Hpath.
  { erewrite rebuild_ui; [done|exact Hnodes|by rewrite Hroot|].
    rewrite Hroot. apply Hwalk. unfold walkFuel. lia. }
  split; [|split].
  - apply Hwalk. unfold walkFuel in Hfuel. lia.
  - done.
  - rewrite Hpath. simpl. lia.
Qed.

(** The two-node cycle: root [a], [e1] from [a] to [b] selected at [a],
    [e2] from [b] to [a] selected at [b]. *)
Definition cycleNodeA : Node :=
  mkNode (js "a") (NumFin 0) (NumFin 0) (js "A") (js "xor") None
         [mkButton (js "b1") (js "Choice") (Some (js "b"))].

Definition cycleNodeB : Node :=
  mkNode (js "b") (NumFin 0) (NumFin 0) (js "B") (js "xor") None
         [mkButton (js "b2") (js "Choice") (Some (js "a"))].

Definition cycleEdge1 : Edge :=
  mkEdge (js "e1") (js "a") (Some (js "b")) (js "b1") None None.

Definition cycleEdge2 : Edge :=
  mkEdge (js "e2") (js "b") (Some (js "a")) (js "b2") None None.

Definition cycleGraph : Graph :=
  mkGraph (js "g") (js "Cycle") 1 (js "2024-01-01") (js "2024-01-01")
    [cycleNodeA; cycleNodeB] [cycleEdge1; cycleEdge2]
    (mkUi None [] {[ js "a" := [js "e1"]; js "b" := [js "e2"] ]}).

Lemma cycle_walk_returns_witness :
  activePath (ui (rebuildActivePathFromSelections cycleGraph))
  = [js "a"; js "e1"; js "b"; js "e2"; js "a"].
Proof.
  refine (proj1 (proj2 (cycle_walk_returns cycleGraph cycleNodeA [cycleNodeB]
                          (js "a") (js "b") (js "e1") (js "e2")
                          cycleEdge1 cycleEdge2 cycleNodeB (walkFuel cycleGraph)
                          _ _ _ _ _ _ _ _ _ _ _ _ _ _)));
    solve [vm_compute; reflexivity | vm_compute; discriminate].
Defined.

(** C2, as the specification words it, fails on the two-node cycle: the
    path has five entries, more than twice the number of nodes. *)
Lemma cycle_path_exceeds_bound :
  activePath (ui (rebuildActivePathFromSelections cycleGraph))
  = [js "a"; js "e1"; js "b"; js "e2"; js "a"] /\
  length (nodes cycleGraph) = 2%nat /\
  ~ (length (activePath (ui (rebuildActivePathFromSelections cycleGraph)))
     <= 2 * length (nodes cycleGraph))%nat.
Proof. vm_compute. split; [done|]. split; [done|]. lia. Qed.

(** ** Pruned selections *)

Lemma pruneSelections_lookup activeNodes activeEdges selections nodeId :
  pruneSelections activeNodes activeEdges selections !! nodeId =
  match selections !! nodeId with
  | Some edgeIdList =>
      if negb (has activeNodes nodeId) then None
      else
        let filtered := pushUnique (has activeEdges) edgeIdList in
        if bool_decide (0 < length filtered)%nat then Some filtered else None
  | None => None
  end.
Proof.
  unfold pruneSelections. rewrite map_lookup_imap.
  by destruct (selections !! nodeId).
Qed.

Lemma pruneSelections_Some activeNodes activeEdges selections nodeId filtered :
  pruneSelections activeNodes activeEdges selections !! nodeId = Some filtered ->
  exists edgeIdList,
    selections !! nodeId = Some edgeIdList /\ nodeId ∈ activeNodes /\
    filtered = pushUnique (has activeEdges) edgeIdList /\ filtered <> [].
Proof.
  rewrite pruneSelections_lookup.
  destruct (selections !! nodeId) as [l|]; [|done].
  destruct (has activeNodes nodeId) eqn:Hn; simpl; [|done].
  case_bool_decide as Hlen; [|done]. intros [= <-].
  exists l. apply has_true in Hn. repeat split; try done.
  intros Hnil. rewrite Hnil in Hlen. simpl in Hlen. lia.
Qed.

(** [rebuildActivePathFromSelections] only ever removes selections. *)
Lemma rebuild_selections_sub graph nodeId filtered :
  activeSelections (ui (rebuildActivePathFromSelections graph)) !! nodeId = Some filtered ->
  exists edgeIdList,
    activeSelections (ui graph) !! nodeId = Some edgeIdList /\
    forall x, x ∈ filtered -> x ∈ edgeIdList.
Proof.
  unfold rebuildActivePathFromSelections.
  destruct (nodes graph) as [|root rest]; simpl; [by rewrite lookup_empty|].
  destruct (negb (nonEmpty (node_id root))); simpl; [by rewrite lookup_empty|].
  intros (l & Hl & _ & -> & _)%pruneSelections_Some.
  exists l. split; [done|]. by intros x [? _]%elem_of_pushUnique.
Qed.

(** ** The selection toggle *)

Lemma toggleSelection_flag sourceNodeType sourceId edgeId selections :
  let '(selections', flag) := toggleSelection sourceNodeType sourceId edgeId selections in
  flag = true <-> edgeId ∈ default [] (selections' !! sourceId).
Proof.
  unfold toggleSelection.
  set (current := match selections !! sourceId with Some l => _ | None => [] end).
  case_bool_decide as Htype.
  - destruct (includes current edgeId) eqn:Hin.
    + case_bool_decide as Hlen.
      * rewrite lookup_insert_eq. simpl. split; [done|].
        intros [Hne _]%list_elem_of_filter. done.
      * rewrite lookup_delete_eq. simpl. split; [done|]. by intros ?%elem_of_nil.
    + rewrite lookup_insert_eq. simpl. split; [|done]. intros _.
      apply elem_of_app. right. by apply list_elem_of_singleton.
  - case_bool_decide as Hsole.
    + rewrite lookup_delete_eq. simpl. split; [done|]. by intros ?%elem_of_nil.
    + rewrite lookup_insert_eq. simpl. split; [|done]. intros _.
      by apply list_elem_of_singleton.
Qed.

(** A stray node: [c] is not reachable from the root [r], and its edge
    [e] leads to [r]. *)
Definition strayEdge : Edge :=
  mkEdge (js "e") (js "c") (Some (js "r")) (js "b1") None None.

Definition strayGraph : Graph :=
  mkGraph (js "g") (js "Stray") 1 (js "2024-01-01") (js "2024-01-01")
    [ mkNode (js "r") (NumFin 0) (NumFin 0) (js "R") (js "xor") None [];
      mkNode (js "c") (NumFin 0) (NumFin 0) (js "C") (js "xor") None
             [mkButton (js "b1") (js "Choice") (Some (js "r"))] ]
    [strayEdge]
    (mkUi None [js "r"] ∅).

Definition idleState : AppState := mkAppState None None None None None.

(** The part of C4 on rejection. *)
Definition rejects (graph : Graph) (edgeId : jsstring) : Prop :=
  findEdge (Some graph) edgeId = None \/
  exists e, findEdge (Some graph) edgeId = Some e /\
            (edgeHasTarget e = false \/ findNode (Some graph) (edge_from e) = None).

(** C4, as the code has it. A toggle of an edge id that names no edge, or
    names an edge without a target, or an edge whose source node does not
    exist, returns [null] and leaves the state and the graph as they were.
    Every other toggle returns the edge, the normalised branch type of its
    source node and the flag [edgeIsSelected]; the flag says whether the
    toggle itself left the edge in the selection of the source node,
    before the path is derived again, and a [false] flag means the edge is
    not selected afterwards. *)
Theorem applyTypedEdgeSelection_result state graph edgeId :
  (rejects graph edgeId ->
   applyTypedEdgeSelection state (Some graph) edgeId = (None, state, Some graph)) /\
  (~ rejects graph edgeId ->
   exists e sourceNode state' graph',
     findEdge (Some graph) edgeId = Some e /\
     findNode (Some graph) (edge_from e) = Some sourceNode /\
     let sourceType := normalizeNodeType (JStr (node_type sourceNode)) in
     let toggled := toggleSelection sourceType (node_id sourceNode) (edge_id e)
                                    (activeSelections (ui graph)) in
     applyTypedEdgeSelection state (Some graph) edgeId =
       (Some (mkSelectionResult e sourceType toggled.2), state', Some graph') /\
     (toggled.2 = true <-> edge_id e ∈ default [] (toggled.1 !! node_id sourceNode)) /\
     (toggled.2 = false ->
      edge_id e ∉ default [] (activeSelections (ui graph') !! node_id sourceNode))).
Proof.
  unfold rejects. split.
  - unfold applyTypedEdgeSelection.
    intros [-> | (e & -> & [Hdangling | Hsource])]; [done| |].
    + by rewrite Hdangling.
    + rewrite Hsource. by destruct (negb (edgeHasTarget e)).
  - intros Hok. unfold applyTypedEdgeSelection.
    destruct (findEdge (Some graph) edgeId) as [e|] eqn:He; [|exfalso; apply Hok; by left].
    destruct (edgeHasTarget e) eqn:Htarget; cbn [negb];
      [|exfalso; apply Hok; right; exists e; auto].
    destruct (findNode (Some graph) (edge_from e)) as [sourceNode|] eqn:Hsource;
      [|exfalso; apply Hok; right; exists e; auto].
    pose proof (toggleSelection_flag (normalizeNodeType (JStr (node_type sourceNode)))
                  (node_id sourceNode) (edge_id e) (activeSelections (ui graph))) as Hflag.
    destruct (toggleSelection _ _ _ _) as [selections flag] eqn:Htoggle.
    eexists e, sourceNode, _, _. split; [done|]. split; [done|].
    cbv zeta. rewrite Htoggle. cbn [fst snd].
    split; [reflexivity|]. split; [exact Hflag|].
    intros -> Hin.
    destruct (activeSelections (ui (rebuildActivePathFromSelections _)) !! node_id sourceNode)
      as [filtered|] eqn:Hsel; simpl in Hin; [|by apply elem_of_nil in Hin].
    apply rebuild_selections_sub in Hsel as (l & Hl & Hsub). simpl in Hl.
    assert (edge_id e ∈ default [] (selections !! node_id sourceNode)) as Hbefore.
    { rewrite Hl. simpl. by apply Hsub. }
    apply Hflag in Hbefore. done.
Qed.

(** C4, as the specification words it, fails for an edge whose source is
    off the active path: the toggle reports the edge as selected and the
    path derivation drops the selection again. *)
Lemma toggle_reports_pruned_selection :
  let '(result, _, graph') := applyTypedEdgeSelection idleState (Some strayGraph) (js "e") in
  result = Some (mkSelectionResult strayEdge (js "xor") true) /\
  (activeSelections ∘ ui) <$> graph' = Some ∅.
Proof. vm_compute. done. Qed.

(** ** Button mirroring *)

(** The last element of a list with a given key. *)
Fixpoint lastWith {A : Type} (key : A -> jsstring) (k : jsstring) (l : list A) : option A :=
  match l with
  | [] => None
  | x :: l' =>
      match lastWith key k l' with
      | Some y => Some y
      | None => if bool_decide (key x = k) then Some x else None
      end
  end.

(** [f] applied to the last button with id [k]. *)
Fixpoint updLast (k : jsstring) (f : Button -> Button) (buttons : list Button)
  : list Button :=
  match buttons with
  | [] => []
  | b :: rest =>
      if bool_decide (k ∈ map button_id rest) then b :: updLast k f rest
      else if bool_decide (button_id b = k) then f b :: rest
      else b :: rest
  end.

Section LastWith.
Context {A : Type} (key : A -> jsstring).
Implicit Types (l : list A) (k : jsstring).

Lemma lastWith_None k l : lastWith key k l = None <-> k ∉ map key l.
Proof.
  induction l as [|x l IH]; simpl; [split; [intros _ ?%elem_of_nil|]; done|].
  rewrite not_elem_of_cons, <- IH.
  destruct (lastWith key k l); [split; [done|by intros [_ ?]]|].
  case_bool_decide; split; try done; naive_solver.
Qed.

Lemma lastWith_Some k l x : lastWith key k l = Some x -> key x = k /\ x ∈ l.
Proof.
  induction l as [|y l IH]; simpl; [done|].
  destruct (lastWith key k l) as [z|].
  - intros [= ->]. destruct IH as [? ?]; [done|]. split; [done|]. apply elem_of_cons. by right.
  - case_bool_decide; [|done]. intros [= ->]. split; [done|]. apply elem_of_cons. by left.
Qed.

Lemma lastWith_app k l1 l2 :
  lastWith key k (l1 ++ l2) =
  match lastWith key k l2 with Some y => Some y | None => lastWith key k l1 end.
Proof.
  induction l1 as [|x l1 IH]; simpl; [by destruct (lastWith key k l2)|].
  rewrite IH. by destruct (lastWith key k l2).
Qed.

Lemma lastWith_snoc k l x :
  lastWith key k (l ++ [x]) = if bool_decide (key x = k) then Some x else lastWith key k l.
Proof. rewrite lastWith_app. simpl. by case_bool_decide. Qed.

Lemma lastWith_is_Some k l : is_Some (lastWith key k l) <-> k ∈ map key l.
Proof.
  rewrite <- not_eq_None_Some, lastWith_None. split; [|by intros ? ?].
  intros H. by destruct (decide (k ∈ map key l)).
Qed.


(** With pairwise distinct keys, the element with a key is the only one. *)
Lemma lastWith_NoDup k l x :
  NoDup (map key l) -> x ∈ l -> key x = k -> lastWith key k l = Some x.
Proof.
  induction l as [|y l IH]; simpl; [by intros _ ?%elem_of_nil|].
  intros [Hy Hnd]%NoDup_cons [->|Hin]%elem_of_cons Hk.
  - destruct (lastWith key k l) as [z|] eqn:Hz.
    + apply lastWith_Some in Hz as [Hz1 Hz2]. exfalso. apply Hy.
      rewrite Hk, <- Hz1. apply list_elem_of_fmap. eauto.
    + by rewrite bool_decide_eq_true_2.
  - by rewrite IH.
Qed.
End LastWith.

Lemma retarget_id edge button : button_id (retarget edge button) = button_id button.
Proof. done. Qed.


Lemma retarget_to edge button : button_to (retarget edge button) = targetOrNull (edge_to edge).
Proof. done. Qed.

Section UpdLast.
Variable f : Button -> Button.
Hypothesis f_id : forall b, button_id (f b) = button_id b.

Lemma updLast_ids k buttons : map button_id (updLast k f buttons) = map button_id buttons.
Proof.
  induction buttons as [|b rest IH]; simpl; [done|].
  case_bool_decide; simpl; [by rewrite IH|].
  case_bool_decide; simpl; [by rewrite f_id|done].
Qed.

Lemma updLast_absent k buttons : k ∉ map button_id buttons -> updLast k f buttons = buttons.
Proof.
  induction buttons as [|b rest IH]; simpl; [done|].
  intros [Hb Hrest]%not_elem_of_cons.
  rewrite bool_decide_eq_false_2 by done. by rewrite bool_decide_eq_false_2.
Qed.

Lemma updLast_snoc k buttons b :
  updLast k f (buttons ++ [b]) =
  if bool_decide (button_id b = k) then buttons ++ [f b] else updLast k f buttons ++ [b].
Proof.
  induction buttons as [|x rest IH]; simpl.
  - done.
  - rewrite map_app, IH. simpl. case_bool_decide as Hb.
    + rewrite bool_decide_eq_true_2; [done|].
      apply elem_of_app. right. apply list_elem_of_singleton. done.
    + destruct (decide (k ∈ map button_id rest)) as [Hin|Hin].
      * rewrite !bool_decide_eq_true_2; [done|done|]. apply elem_of_app. by left.
      * rewrite !(bool_decide_eq_false_2 (k ∈ _)); [|done|].
        -- by case_bool_decide.
        -- intros [?|?%list_elem_of_singleton]%elem_of_app; [done|]. congruence.
Qed.

Lemma lastWith_updLast k k' buttons :
  lastWith button_id k' (updLast k f buttons) =
  if bool_decide (k' = k) then f <$> lastWith button_id k buttons
  else lastWith button_id k' buttons.
Proof.
  induction buttons as [|b rest IH] using rev_ind; [by case_bool_decide|].
  rewrite updLast_snoc, !lastWith_snoc.
  destruct (decide (button_id b = k)) as [Hb|Hb].
  - rewrite !(bool_decide_eq_true_2 (button_id b = k)) by done.
    rewrite lastWith_snoc, f_id.
    destruct (decide (k' = k)) as [->|Hk'].
    + by rewrite !bool_decide_eq_true_2.
    + rewrite (bool_decide_eq_false_2 (k' = k)) by done.
      by rewrite !bool_decide_eq_false_2 by congruence.
  - rewrite !(bool_decide_eq_false_2 (button_id b = k)) by done.
    rewrite lastWith_snoc, IH.
    destruct (decide (k' = k)) as [->|Hk'].
    + rewrite !(bool_decide_eq_true_2 (k = k)) by done.
      by rewrite !(bool_decide_eq_false_2 (button_id b = k)) by done.
    + rewrite !(bool_decide_eq_false_2 (k' = k)) by done. done.
Qed.
End UpdLast.

(** [buttonById] is determined by the array of buttons. *)
Lemma buttonIndex_snoc buttons b :
  buttonIndex (buttons ++ [b]) = <[button_id b := length buttons]> (buttonIndex buttons).
Proof.
  unfold buttonIndex. rewrite imap_app. simpl. rewrite jsMap_snoc. simpl.
  by rewrite Nat.add_0_r.
Qed.

Lemma buttonIndex_keys buttons :
  (imap (fun i button => (button_id button, i)) buttons).*1 = map button_id buttons.
Proof.
  induction buttons as [|b rest IH] using rev_ind; [done|].
  rewrite imap_app, fmap_app, map_app, IH. done.
Qed.

Lemma buttonIndex_None buttons k :
  buttonIndex buttons !! k = None <-> k ∉ map button_id buttons.
Proof. unfold buttonIndex. by rewrite jsMap_lookup_None, buttonIndex_keys. Qed.

Lemma buttonIndex_lt buttons k i :
  buttonIndex buttons !! k = Some i -> (i < length buttons)%nat.
Proof.
  intros H%jsMap_lookup_Some. apply list_elem_of_lookup in H as [j Hj].
  rewrite list_lookup_imap in Hj.
  destruct (buttons !! j) as [b|] eqn:Hb; simpl in Hj; [|done].
  injection Hj as _ <-. by apply lookup_lt_Some in Hb.
Qed.

Lemma buttonIndex_alter f buttons i :
  (forall b, button_id (f b) = button_id b) ->
  buttonIndex (alter f i buttons) = buttonIndex buttons.
Proof.
  intros Hf. unfold buttonIndex. f_equal. apply list_eq. intros j.
  rewrite !list_lookup_imap. destruct (decide (i = j)) as [->|Hij].
  - rewrite list_lookup_alter_eq. destruct (buttons !! j); simpl; [|done]. by rewrite Hf.
  - by rewrite list_lookup_alter_ne.
Qed.

Lemma buttonIndex_updLast f buttons k i :
  buttonIndex buttons !! k = Some i -> alter f i buttons = updLast k f buttons.
Proof.
  revert i. induction buttons as [|b rest IH] using rev_ind; intros i; [done|].
  rewrite buttonIndex_snoc, lookup_insert, updLast_snoc.
  case_decide as Hb; simpl.
  - intros [= <-]. rewrite bool_decide_eq_true_2 by done.
    rewrite alter_app_r_alt by done. by rewrite Nat.sub_diag.
  - intros Hi. rewrite bool_decide_eq_false_2 by done.
    rewrite alter_app_l by by eapply buttonIndex_lt. by rewrite IH.
Qed.

(** One round of the inner loop on the array alone. *)
Definition mirrorStep (buttons : list Button) (edge : Edge) : list Button :=
  if bool_decide (edge_buttonId edge ∈ map button_id buttons)
  then updLast (edge_buttonId edge) (retarget edge) buttons
  else buttons ++
       [retarget edge (mkButton (edge_buttonId edge) (js "Choice") (edge_to edge))].

Lemma mirrorEdge_step buttons edge :
  mirrorEdge (buttons, buttonIndex buttons) edge =
  (mirrorStep buttons edge, buttonIndex (mirrorStep buttons edge)).
Proof.
  unfold mirrorEdge, mirrorStep.
  destruct (buttonIndex buttons !! edge_buttonId edge) as [i|] eqn:Hi.
  - rewrite bool_decide_eq_true_2.
    + rewrite <- (buttonIndex_updLast _ _ _ _ Hi).
      by rewrite buttonIndex_alter by apply retarget_id.
    + destruct (decide (edge_buttonId edge ∈ map button_id buttons)) as [|Hn]; [done|].
      apply buttonIndex_None in Hn. congruence.
  - rewrite bool_decide_eq_false_2 by by apply buttonIndex_None.
    by rewrite buttonIndex_snoc.
Qed.

Lemma mirrorEdge_fold outgoing : forall buttons,
  foldl mirrorEdge (buttons, buttonIndex buttons) outgoing =
  (foldl mirrorStep buttons outgoing, buttonIndex (foldl mirrorStep buttons outgoing)).
Proof.
  induction outgoing as [|edge outgoing IH]; intros buttons; cbn [foldl]; [done|].
  by rewrite mirrorEdge_step, IH.
Qed.

Lemma mirrorStep_ids buttons edge :
  map button_id (mirrorStep buttons edge) =
  if bool_decide (edge_buttonId edge ∈ map button_id buttons)
  then map button_id buttons
  else map button_id buttons ++ [edge_buttonId edge].
Proof.
  unfold mirrorStep. case_bool_decide.
  - apply updLast_ids, retarget_id.
  - by rewrite map_app.
Qed.


Lemma mirrorAll_NoDup outgoing : forall buttons,
  NoDup (map button_id buttons) ->
  NoDup (map button_id (foldl mirrorStep buttons outgoing)).
Proof.
  induction outgoing as [|edge outgoing IH]; intros buttons Hnd; cbn [foldl]; [done|].
  apply IH. rewrite mirrorStep_ids. case_bool_decide as Hin; [done|].
  apply NoDup_app. split; [done|]. split; [|apply NoDup_singleton].
  intros x Hx ->%list_elem_of_singleton. done.
Qed.

(** After the loop the last button with the [buttonId] of an edge has
    been retargeted by the last edge with that [buttonId]. *)
Lemma mirrorAll_last outgoing : forall buttons k e,
  lastWith edge_buttonId k outgoing = Some e ->
  exists b0, lastWith button_id k (foldl mirrorStep buttons outgoing) = Some (retarget e b0).
Proof.
  induction outgoing as [|edge outgoing IH] using rev_ind; intros buttons k e; [done|].
  rewrite lastWith_snoc, foldl_app. cbn [foldl].
  set (current := foldl mirrorStep buttons outgoing). unfold mirrorStep.
  destruct (decide (edge_buttonId edge = k)) as [Hk|Hk].
  - rewrite bool_decide_eq_true_2 by done. intros [= <-]. subst k.
    case_bool_decide as Hin.
    + rewrite lastWith_updLast by apply retarget_id. rewrite bool_decide_eq_true_2 by done.
      apply (lastWith_is_Some button_id) in Hin as [b0 ->]. by exists b0.
    + rewrite lastWith_snoc. simpl. rewrite bool_decide_eq_true_2 by done. eauto.
  - rewrite bool_decide_eq_false_2 by done. intros He.
    destruct (IH buttons k e He) as [b0 Hb0]. exists b0. fold current in Hb0.
    case_bool_decide as Hin.
    + rewrite lastWith_updLast by apply retarget_id.
      by rewrite bool_decide_eq_false_2 by congruence.
    + rewrite lastWith_snoc. simpl. by rewrite bool_decide_eq_false_2 by done.
Qed.








(** ** Idempotent normalisers *)

Lemma trimStart_idem s : trimStart (trimStart s) = trimStart s.
Proof.
  destruct (trimStart_split s) as (pre & _ & _ & Hhead).
  destruct (trimStart s) as [|c u]; [done|]. by apply trimStart_fixed.
Qed.

Lemma trimEnd_idem s : trimEnd (trimEnd s) = trimEnd s.
Proof. unfold trimEnd. by rewrite rev_involutive, trimStart_idem. Qed.

Lemma blank_head c s : blank (c :: s) -> isWhiteSpace c = true.
Proof. by inversion 1. Qed.

Lemma trimEnd_head c s :
  isWhiteSpace c = false -> exists v, trimEnd (c :: s) = c :: v.
Proof.
  intros Hc. destruct (trimEnd_split (c :: s)) as (post & Heq & Hpost).
  destruct (trimEnd (c :: s)) as [|x v].
  - simpl in Heq. subst post. apply blank_head in Hpost. congruence.
  - injection Heq as <- _. eauto.
Qed.

Lemma trimStart_trim s : trimStart (trim s) = trim s.
Proof.
  unfold trim. destruct (trimStart_split s) as (pre & _ & _ & Hhead).
  destruct (trimStart s) as [|c u]; [done|].
  destruct (trimEnd_head c u Hhead) as [v ->]. by apply trimStart_fixed.
Qed.

Lemma trim_idem s : trim (trim s) = trim s.
Proof.
  unfold trim at 1. rewrite trimStart_trim. unfold trim. apply trimEnd_idem.
Qed.


Lemma normalizeNodeType_cases value :
  normalizeNodeType value = js "or" \/ normalizeNodeType value = js "xor".
Proof. unfold normalizeNodeType. case_bool_decide; auto. Qed.

Lemma isHexDigit_not_white c : isHexDigit c = true -> isWhiteSpace c = false.
Proof.
  unfold isHexDigit, isWhiteSpace. rewrite bool_decide_eq_true, bool_decide_eq_false.
  intros Hc Hin. repeat (apply elem_of_cons in Hin as [->|Hin]; [lia|]).
  by apply elem_of_nil in Hin.
Qed.

Lemma isHexDigit_lower c : isHexDigit c = true -> lowerChar c = c.
Proof.
  unfold isHexDigit, lowerChar. rewrite bool_decide_eq_true. intros Hc.
  rewrite bool_decide_eq_false_2; [done|]. lia.
Qed.

(** A colour in the six-digit lower-case form. *)
Definition sixHex (c : jsstring) : Prop :=
  exists d1 d2 d3 d4 d5 d6,
    c = [35; d1; d2; d3; d4; d5; d6] /\
    Forall (fun d => isHexDigit d = true) [d1; d2; d3; d4; d5; d6].

Lemma normalizeHexColor_sixHex c : sixHex c -> normalizeHexColor (JStr c) = Some c.
Proof.
  intros (d1 & d2 & d3 & d4 & d5 & d6 & -> & Hd).
  repeat (apply Forall_cons in Hd as [? Hd]).
  unfold normalizeHexColor.
  assert (trim [35; d1; d2; d3; d4; d5; d6] = [35; d1; d2; d3; d4; d5; d6]) as ->.
  { apply (trim_core [] [] 35 [d1; d2; d3; d4; d5] d6); try constructor.
    by apply isHexDigit_not_white. }
  unfold toLowerCase. cbn [map].
  repeat match goal with
         | H : isHexDigit ?d = true |- context [lowerChar ?d] =>
             rewrite (isHexDigit_lower d H)
         end.
  change (lowerChar 35) with 35. cbn [nonEmpty negb isHexColor forallb length].
  repeat match goal with H : isHexDigit _ = true |- _ => rewrite H; clear H end.
  by rewrite bool_decide_eq_true_2.
Qed.

Lemma normalizeHexColor_Some value c : normalizeHexColor value = Some c -> sixHex c.
Proof.
  unfold normalizeHexColor. destruct value as [| | | |s| |]; try done.
  set (raw := toLowerCase (trim s)). destruct (nonEmpty raw); simpl; [|done].
  destruct (isHexColor 6 raw) eqn:H6.
  - intros [= <-]. unfold isHexColor in H6.
    destruct raw as [|h digits]; [done|].
    destruct (decide (h = 35)) as [->|Hh].
    + apply andb_true_iff in H6 as [Hall Hlen].
      apply bool_decide_eq_true in Hlen.
      destruct digits as [|d1 [|d2 [|d3 [|d4 [|d5 [|d6 [|? ?]]]]]]]; try done.
      exists d1, d2, d3, d4, d5, d6. split; [done|].
      simpl in Hall. repeat (apply andb_true_iff in Hall as [? Hall]).
      repeat constructor; done.
    + exfalso. clear -H6 Hh. destruct h as [|p]; [done|].
      do 6 (destruct p as [p|p|]; try done).
  - destruct (isHexColor 3 raw) eqn:H3; [|done].
    destruct raw as [|h [|r [|g [|b [|? ?]]]]]; try done.
    destruct (decide (h = 35)) as [->|Hh].
    + intros [= <-]. simpl in H3.
      apply andb_true_iff in H3 as [Hall _].
      apply andb_true_iff in Hall as [Hr Hall].
      apply andb_true_iff in Hall as [Hg Hall].
      apply andb_true_iff in Hall as [Hb _].
      exists r, r, g, g, b, b. split; [done|]. repeat constructor; done.
    + exfalso. clear -H3 Hh. destruct h as [|p]; [done|].
      do 6 (destruct p as [p|p|]; try done).
Qed.



(** ** Edge sanitation *)

Lemma sanitizeEdge_Some nodeIdSet e e' :
  sanitizeEdge nodeIdSet e = Some e' ->
  edge_id e' = edge_id e /\ edge_from e' = edge_from e /\
  edge_buttonId e' = edge_buttonId e /\ edge_from e ∈ nodeIdSet /\
  match edge_to e' with
  | Some target => target ∈ nodeIdSet /\ nonEmpty target = true /\ trim target = target
  | None => True
  end.
Proof.
  unfold sanitizeEdge. destruct (has nodeIdSet (edge_from e)) eqn:Hfrom; simpl; [|done].
  apply has_true in Hfrom.
  destruct (edge_to e) as [target|]; [|by intros [= <-]].
  destruct (nonEmpty (trim target)) eqn:Hne; [|by intros [= <-]].
  destruct (has nodeIdSet (trim target)) eqn:Hto; [|done].
  intros [= <-]. simpl. apply has_true in Hto. rewrite trim_idem. done.
Qed.




Lemma sanitizeEdge_to nodeIdSet e1 e2 e1' e2' :
  sanitizeEdge nodeIdSet e1 = Some e1' -> sanitizeEdge nodeIdSet e2 = Some e2' ->
  edge_to e1 = edge_to e2 -> edge_to e1' = edge_to e2'.
Proof.
  unfold sanitizeEdge. intros H1 H2 Hto. rewrite <- Hto in H2.
  destruct (negb (has nodeIdSet (edge_from e1))); [done|].
  destruct (negb (has nodeIdSet (edge_from e2))); [done|].
  destruct (edge_to e1) as [target|].
  - destruct (nonEmpty (trim target)).
    + destruct (has nodeIdSet (trim target)); [|done].
      by injection H1 as <-; injection H2 as <-.
    + by injection H1 as <-; injection H2 as <-.
  - by injection H1 as <-; injection H2 as <-.
Qed.

Lemma targetOrNull_sanitized nodeIdSet e e' :
  sanitizeEdge nodeIdSet e = Some e' -> targetOrNull (edge_to e') = edge_to e'.
Proof.
  intros (_ & _ & _ & _ & Hto)%sanitizeEdge_Some. unfold targetOrNull.
  destruct (edge_to e') as [target|]; [|done]. destruct Hto as (_ & -> & _). done.
Qed.

(** ** Outgoing edges *)

Lemma outgoingOf_filter es nodeId :
  outgoingOf (outgoingMap es) nodeId = filter (fun e => edge_from e = nodeId) es.
Proof.
  unfold outgoingOf, outgoingMap.
  induction es as [|e es IH] using rev_ind; [done|].
  rewrite foldl_app, filter_app. cbn [foldl]. rewrite lookup_insert.
  rewrite filter_cons, filter_nil. case_decide as Hfrom.
  - subst nodeId. simpl. by rewrite IH.
  - by rewrite app_nil_r.
Qed.

Lemma mirrorNode_buttons out node :
  node_buttons (mirrorNode out node) =
  filter (fun b => button_id b ∈ jsSet (map edge_buttonId (outgoingOf out (node_id node))))
         (foldl mirrorStep (node_buttons node) (outgoingOf out (node_id node))).
Proof. unfold mirrorNode. by rewrite mirrorEdge_fold. Qed.

Lemma mirrorNode_color out node :
  node_color (mirrorNode out node) = normalizeHexColor (ofNullable (node_color node)).
Proof. unfold mirrorNode. by destruct (foldl _ _ _). Qed.





(** ** The button mirror *)

Lemma NoDup_map_filter {A B : Type} (f : A -> B) (P : A -> Prop)
      `{!forall x, Decision (P x)} (l : list A) :
  NoDup (map f l) -> NoDup (map f (filter P l)).
Proof.
  induction l as [|x l IH]; [done|]. cbn [map]. intros [Hx Hnd]%NoDup_cons.
  rewrite filter_cons. case_decide; [|by apply IH].
  cbn [map]. apply NoDup_cons. split; [|by apply IH].
  intros (y & Hy & [_ Hin]%list_elem_of_filter)%list_elem_of_fmap.
  apply Hx. apply list_elem_of_fmap. eauto.
Qed.

Lemma filter_unique {A : Type} (key : A -> jsstring) (P : A -> Prop)
      `{!forall x, Decision (P x)} (l : list A) x :
  NoDup (map key l) -> x ∈ l -> P x -> (forall y, P y -> key y = key x) ->
  filter P l = [x].
Proof.
  induction l as [|y l IH]; [by intros _ ?%elem_of_nil|].
  cbn [map]. intros [Hy Hnd]%NoDup_cons [->|Hin]%elem_of_cons HP Hkey.
  - rewrite filter_cons, decide_True by done. f_equal.
    apply elem_of_nil_inv. intros z [Hz Hzl]%list_elem_of_filter.
    apply Hy. rewrite <- (Hkey z Hz). by apply list_elem_of_fmap_2.
  - rewrite filter_cons, decide_False; [by apply IH|].
    intros HPy. apply Hy. rewrite (Hkey y HPy). by apply list_elem_of_fmap_2.
Qed.

(** C5, as the code has it. Take a graph whose nodes have buttons with
    pairwise distinct ids and in which edges that leave the same node
    with the same [buttonId] have the same target. After a pass of
    [enforceGraphConsistency], for every node N and every edge E with
    [E.from = N.id], [N.buttons] holds exactly one button with the id
    [E.buttonId] and the target [E.to], and every button of N has the
    [buttonId] of an edge that leaves N. *)
Theorem enforce_button_mirror state graph :
  (forall node, node ∈ nodes graph -> NoDup (map button_id (node_buttons node))) ->
  (forall e1 e2, e1 ∈ edges graph -> e2 ∈ edges graph ->
                 edge_from e1 = edge_from e2 -> edge_buttonId e1 = edge_buttonId e2 ->
                 edge_to e1 = edge_to e2) ->
  let graph' := (enforceGraphConsistency state graph).2 in
  forall N, N ∈ nodes graph' ->
    (forall E, E ∈ edges graph' -> edge_from E = node_id N ->
       length (filter (fun B => button_id B = edge_buttonId E /\ button_to B = edge_to E)
                      (node_buttons N)) = 1%nat) /\
    (forall B, B ∈ node_buttons N ->
       exists E, E ∈ edges graph' /\ edge_from E = node_id N /\
                 edge_buttonId E = button_id B).
Proof.
  intros Hbuttons Hedges graph' N HN. subst graph'.
  rewrite enforce_nodes in HN. rewrite enforce_edges.
  unfold mirrored in HN. cbn [nodes withNodes] in HN.
  apply list_elem_of_fmap in HN as (n & -> & Hn).
  rewrite mirrorNode_id, mirrorNode_buttons, outgoingOf_filter.
  set (es := edges (sanitized graph)).
  set (out := filter (fun e => edge_from e = node_id n) es).
  set (all := foldl mirrorStep (node_buttons n) out).
  set (valid := jsSet (map edge_buttonId out)).
  assert (NoDup (map button_id (filter (fun b => button_id b ∈ valid) all))) as Hnd.
  { apply NoDup_map_filter, mirrorAll_NoDup, Hbuttons, Hn. }
  split.
  - intros E HE Hfrom.
    assert (E ∈ out) as Hout by by apply list_elem_of_filter.
    assert (edge_buttonId E ∈ map edge_buttonId out) as Hk by by apply list_elem_of_fmap_2.
    pose proof Hk as [eL HeL]%(lastWith_is_Some edge_buttonId).
    destruct (mirrorAll_last out (node_buttons n) _ _ HeL) as [b0 Hb0]. fold all in Hb0.
    apply lastWith_Some in HeL as [HkL [HfromL HinL]%list_elem_of_filter].
    assert (edge_to eL = edge_to E) as Hto.
    { unfold es, sanitized in HinL, HE. cbn [edges withEdges] in HinL, HE.
      apply list_elem_of_omap in HinL as (eL0 & HeL0 & HsL).
      apply list_elem_of_omap in HE as (E0 & HE0 & HsE).
      apply (sanitizeEdge_to _ _ _ _ _ HsL HsE).
      destruct (sanitizeEdge_Some _ _ _ HsL) as (_ & HfL & HbL & _).
      destruct (sanitizeEdge_Some _ _ _ HsE) as (_ & HfE & HbE & _).
      apply Hedges; try done.
      - congruence.
      - congruence. }
    assert (targetOrNull (edge_to E) = edge_to E) as Hnorm.
    { unfold es, sanitized in HE. cbn [edges withEdges] in HE.
      apply list_elem_of_omap in HE as (E0 & _ & HsE).
      by eapply targetOrNull_sanitized. }
    rewrite (filter_unique button_id _ _ (retarget eL b0)); [done|done| | |].
    + apply list_elem_of_filter.
      apply lastWith_Some in Hb0 as [Hid Hin]. split; [|done].
      rewrite Hid. by apply elem_of_jsSet.
    + apply lastWith_Some in Hb0 as [Hid _]. split; [done|].
      by rewrite retarget_to, Hto.
    + apply lastWith_Some in Hb0 as [Hid _]. intros y [Hy _]. congruence.
  - intros B [HB _]%list_elem_of_filter.
    apply elem_of_jsSet, list_elem_of_fmap in HB as (E & HE & Hin).
    exists E. apply list_elem_of_filter in Hin as [Hfrom Hin]. done.
Qed.

(** The graph of scenarios A and B of the specification: root [s] with
    the edges [e1] to [a] and [e2] to [b]. *)
Definition scenarioNode (id type : string) (buttons : list Button) : Node :=
  mkNode (js id) (NumFin 0) (NumFin 0) (js id) (js type) None buttons.

Definition scenarioEdge1 : Edge :=
  mkEdge (js "e1") (js "s") (Some (js "a")) (js "b1") None None.

Definition scenarioEdge2 : Edge :=
  mkEdge (js "e2") (js "s") (Some (js "b")) (js "b2") None None.

Definition scenarioGraph (rootType : string)
           (selections : gmap jsstring (list jsstring)) : Graph :=
  mkGraph (js "g") (js "Scenario") 1 (js "2024-01-01") (js "2024-01-01")
    [ scenarioNode "s" rootType
        [mkButton (js "b1") (js "Left") (Some (js "a"));
         mkButton (js "b2") (js "Right") (Some (js "b"))];
      scenarioNode "a" "xor" [];
      scenarioNode "b" "xor" [] ]
    [scenarioEdge1; scenarioEdge2]
    (mkUi None [] selections).

(** Decidable closed goals, by evaluation. *)
Ltac by_compute := apply (bool_decide_unpack _); vm_compute; exact I.

(** The cases of a membership in a closed list. *)
Ltac elem_cases H :=
  vm_compute in H;
  repeat (apply elem_of_cons in H as [->|H]);
  [..|by apply elem_of_nil in H].

Lemma enforce_button_mirror_witness :
  length (filter (fun B => button_id B = edge_buttonId scenarioEdge1 /\
                           button_to B = edge_to scenarioEdge1)
                 [mkButton (js "b1") (js "Left") (Some (js "a"));
                  mkButton (js "b2") (js "Right") (Some (js "b"))]) = 1%nat.
Proof.
  refine (proj1 (enforce_button_mirror idleState (scenarioGraph "xor" ∅) _ _
                   (scenarioNode "s" "xor"
                      [mkButton (js "b1") (js "Left") (Some (js "a"));
                       mkButton (js "b2") (js "Right") (Some (js "b"))]) _)
                scenarioEdge1 _ _).
  - apply Forall_forall. by_compute.
  - intros e1 e2 H1 H2. elem_cases H1; elem_cases H2; by vm_compute.
  - by_compute.
  - by_compute.
  - reflexivity.
Defined.

(** Two edges of [s] that share the button id [b1] and lead to different
    nodes. *)
Definition sharedButtonEdge1 : Edge :=
  mkEdge (js "e1") (js "s") (Some (js "a")) (js "b1") None None.

Definition sharedButtonEdge2 : Edge :=
  mkEdge (js "e2") (js "s") (Some (js "b")) (js "b1") None None.

Definition sharedButtonGraph : Graph :=
  mkGraph (js "g") (js "Shared") 1 (js "2024-01-01") (js "2024-01-01")
    [ scenarioNode "s" "xor" [mkButton (js "b1") (js "Left") (Some (js "a"))];
      scenarioNode "a" "xor" [];
      scenarioNode "b" "xor" [] ]
    [sharedButtonEdge1; sharedButtonEdge2]
    (mkUi None [] ∅).

(** C5, as the specification words it, fails when two edges of a node
    carry the same [buttonId]: the one button follows the later edge and
    no button mirrors the earlier one. *)
Lemma shared_button_not_mirrored :
  let graph' := (enforceGraphConsistency idleState sharedButtonGraph).2 in
  edges graph' = [sharedButtonEdge1; sharedButtonEdge2] /\
  match nodes graph' with
  | N :: _ =>
      edge_from sharedButtonEdge1 = node_id N /\
      node_buttons N = [mkButton (js "b1") (js "Left") (Some (js "b"))] /\
      filter (fun B => button_id B = edge_buttonId sharedButtonEdge1 /\
                       button_to B = edge_to sharedButtonEdge1)
             (node_buttons N) = []
  | [] => False
  end.
Proof. by vm_compute. Qed.

(** ** Normalised selections *)

(** The ids of the edges of a node that lead to an existing node. *)
Definition validEdgeIdsOf (nodeIdSet : gset jsstring)
           (outgoingByNode : gmap jsstring (list Edge)) (nodeId : jsstring) : gset jsstring :=
  jsSet (map edge_id
             (filter (fun edge => Is_true (resolves nodeIdSet edge))
                     (outgoingOf outgoingByNode nodeId))).

(** [uniqueSelection] before and after the XOR cut. *)
Definition uniqueOf (nodeIdSet : gset jsstring) (outgoingByNode : gmap jsstring (list Edge))
           (sourceSelections : gmap jsstring (list jsstring)) (nodeId : jsstring)
  : list jsstring :=
  pushUnique (has (validEdgeIdsOf nodeIdSet outgoingByNode nodeId))
             (default [] (sourceSelections !! nodeId)).

Definition cutXor (node : Node) (uniqueSelection : list jsstring) : list jsstring :=
  if bool_decide (node_type node = js "xor")
     && bool_decide (1 < length uniqueSelection)%nat
  then take 1 uniqueSelection else uniqueSelection.

Lemma normalizeSelection_unfold nodeIdSet out src acc node :
  normalizeSelection nodeIdSet out src acc node =
  let entry := cutXor node (uniqueOf nodeIdSet out src (node_id node)) in
  if bool_decide (0 < length entry)%nat then <[node_id node := entry]> acc else acc.
Proof. reflexivity. Qed.

Lemma cutXor_length node u : (0 < length (cutXor node u))%nat <-> (0 < length u)%nat.
Proof.
  unfold cutXor. destruct (_ && _) eqn:Hcut; [|done].
  apply andb_true_iff in Hcut as [_ Hlen%bool_decide_eq_true].
  destruct u as [|x [|y u]]; simpl in *; lia.
Qed.

Lemma cutXor_xor node u : node_type node = js "xor" -> (length (cutXor node u) <= 1)%nat.
Proof.
  intros Hxor. unfold cutXor. rewrite bool_decide_eq_true_2 by done. simpl.
  case_bool_decide as Hlen; [|lia]. rewrite length_take. lia.
Qed.

Lemma cutXor_sub node u x : x ∈ cutXor node u -> x ∈ u.
Proof.
  unfold cutXor. destruct (_ && _); [|done]. apply (subseteq_take 1 u x).
Qed.

Lemma cutXor_NoDup node u : NoDup u -> NoDup (cutXor node u).
Proof.
  unfold cutXor. destruct (_ && _); [|done]. intros Hnd.
  exact (sublist_NoDup _ _ Hnd (sublist_take u 1)).
Qed.

(** The selection map the second loop over the nodes builds: the entry
    of a node id is computed from the last node with that id. *)
Lemma normalized_lookup nodeIdSet out src (ns : list Node) k :
  foldl (normalizeSelection nodeIdSet out src) ∅ ns !! k =
  match jsMap (map (fun node => (node_id node, node)) ns) !! k with
  | Some node =>
      let entry := cutXor node (uniqueOf nodeIdSet out src k) in
      if bool_decide (0 < length entry)%nat then Some entry else None
  | None => None
  end.
Proof.
  induction ns as [|n ns IH] using rev_ind; [done|].
  rewrite foldl_app, map_app. cbn [foldl map]. rewrite jsMap_snoc. cbn [fst snd].
  rewrite normalizeSelection_unfold. cbv zeta.
  destruct (decide (node_id n = k)) as [<-|Hk].
  - rewrite lookup_insert_eq. cbv zeta. case_bool_decide as Hlen.
    + by rewrite lookup_insert_eq.
    + rewrite IH.
      destruct (jsMap (map (fun node => (node_id node, node)) ns) !! node_id n)
        as [node'|] eqn:Hnode'; [|done].
      cbv zeta. rewrite bool_decide_eq_false_2; [done|].
      rewrite cutXor_length. by rewrite cutXor_length in Hlen.
  - rewrite (lookup_insert_ne _ (node_id n) k) by done.
    case_bool_decide; [rewrite lookup_insert_ne by done|]; apply IH.
Qed.

Lemma uniqueOf_NoDup nodeIdSet out src k : NoDup (uniqueOf nodeIdSet out src k).
Proof. apply NoDup_pushUnique. Qed.

Lemma uniqueOf_valid nodeIdSet out src k x :
  x ∈ uniqueOf nodeIdSet out src k -> x ∈ validEdgeIdsOf nodeIdSet out k.
Proof. intros [_ ?%has_true]%elem_of_pushUnique. done. Qed.

(** An entry of the selections a pass leaves, traced back to the node
    that [nodeById] holds for its key. *)
Lemma enforce_selection_entry state graph k l :
  activeSelections (ui (enforceGraphConsistency state graph).2) !! k = Some l ->
  exists node entry,
    nodeMap (mirrored graph) !! k = Some node /\
    entry = cutXor node (uniqueOf (nodeIds (mirrored graph))
                                  (outgoingMap (edges (mirrored graph)))
                                  (sourceSelectionsOf (mirrored graph)) k) /\
    (forall x, x ∈ l -> x ∈ entry) /\ (length l <= length entry)%nat /\ NoDup l.
Proof.
  rewrite enforce_graph. unfold rebuildActivePathFromSelections.
  destruct (nodes (prepared graph)) as [|root rest]; simpl; [by rewrite lookup_empty|].
  destruct (negb (nonEmpty (node_id root))); simpl; [by rewrite lookup_empty|].
  intros (entry & Hentry & _ & -> & _)%pruneSelections_Some.
  unfold normalizedSelectionsOf in Hentry. rewrite normalized_lookup in Hentry.
  fold (nodeMap (mirrored graph)) in Hentry.
  destruct (nodeMap (mirrored graph) !! k) as [node|] eqn:Hnode; [|done].
  cbv zeta in Hentry. case_bool_decide; [|done]. injection Hentry as <-.
  exists node, (cutXor node (uniqueOf (nodeIds (mirrored graph))
                               (outgoingMap (edges (mirrored graph)))
                               (sourceSelectionsOf (mirrored graph)) k)).
  split; [done|]. split; [done|]. split; [|split].
  - by intros x [? _]%elem_of_pushUnique.
  - apply length_pushUnique.
  - apply NoDup_pushUnique.
Qed.

Lemma nodeMap_lookup_NoDup graph node :
  NoDup (map node_id (nodes graph)) -> node ∈ nodes graph ->
  nodeMap graph !! node_id node = Some node.
Proof.
  intros Hnd Hin. unfold nodeMap. apply jsMap_lookup_NoDup.
  - by rewrite <- list_fmap_compose.
  - by apply (list_elem_of_fmap_2 (fun node => (node_id node, node))).
Qed.

(** C6. In a graph whose nodes have pairwise distinct ids, after a pass
    of [enforceGraphConsistency] the entry of [ui.activeSelections] for a
    node of type [xor], if present, holds at most one edge id. *)
Theorem enforce_xor_cap state graph :
  NoDup (map node_id (nodes graph)) ->
  let graph' := (enforceGraphConsistency state graph).2 in
  forall N l,
    N ∈ nodes graph' -> node_type N = js "xor" ->
    activeSelections (ui graph') !! node_id N = Some l ->
    (length l <= 1)%nat.
Proof.
  intros Hnd graph' N l HN Hxor Hl. subst graph'.
  rewrite enforce_nodes in HN.
  apply enforce_selection_entry in Hl as (node & entry & Hnode & -> & _ & Hlen & _).
  rewrite nodeMap_lookup_NoDup in Hnode; [|by rewrite mirrored_node_ids|done].
  injection Hnode as <-. etrans; [exact Hlen|]. by apply cutXor_xor.
Qed.

Lemma enforce_xor_cap_witness : (length [js "e1"] <= 1)%nat.
Proof.
  refine (enforce_xor_cap idleState
            (scenarioGraph "xor" {[ js "s" := [js "e1"; js "e2"] ]}) _
            (scenarioNode "s" "xor"
               [mkButton (js "b1") (js "Left") (Some (js "a"));
                mkButton (js "b2") (js "Right") (Some (js "b"))])
            [js "e1"] _ _ _).
  - by_compute.
  - by_compute.
  - reflexivity.
  - by vm_compute.
Defined.

(** ** What the walk visits *)

Section WalkEntries.
Variable nodeById : gmap jsstring Node.
Variable edgeById : gmap jsstring Edge.

Lemma stepsOut_elem w l q x :
  stepsOut w l = Some q ->
  x ∈ q <->
  exists e target p, (e, target) ∈ l /\ w target = Some p /\ (x = edge_id e \/ x ∈ p).
Proof.
  revert q. induction l as [|[e target] l IH]; intros q; simpl.
  - intros [= <-]. rewrite elem_of_nil. split; [done|].
    by intros (? & ? & ? & ?%elem_of_nil & _).
  - destruct (w target) as [p|] eqn:Hp; [|done].
    destruct (stepsOut w l) as [q'|] eqn:Hq; [|done]. intros [= <-].
    rewrite elem_of_cons, elem_of_app, (IH q' eq_refl). split.
    + intros [->|[Hx|(e' & t' & p' & Hin & Hw & Hx)]].
      * exists e, target, p. split; [apply elem_of_cons; by left|]. auto.
      * exists e, target, p. split; [apply elem_of_cons; by left|]. auto.
      * exists e', t', p'. split; [apply elem_of_cons; by right|]. auto.
    + intros (e' & t' & p' & [[= -> ->]|Hin]%elem_of_cons & Hw & Hx).
      * rewrite Hp in Hw. injection Hw as <-. tauto.
      * right. right. eauto 10.
Qed.

Lemma stepsOut_ext_in w1 w2 l q :
  stepsOut w1 l = Some q ->
  (forall e target p, (e, target) ∈ l -> w1 target = Some p ->
                      (forall x, x ∈ p -> x ∈ q) -> w2 target = Some p) ->
  stepsOut w2 l = Some q.
Proof.
  revert q. induction l as [|[e target] l IH]; intros q; simpl; [done|].
  destruct (w1 target) as [p|] eqn:Hp; [|done].
  destruct (stepsOut w1 l) as [q'|] eqn:Hq; [|done].
  intros [= <-] Hw. rewrite (Hw e target p); [|apply elem_of_cons; by left|done|].
  - assert (stepsOut w2 l = Some q') as ->; [|done].
    apply IH; [done|]. intros e' t' p' Hin Hw1 Hsub.
    apply (Hw e' t' p'); [apply elem_of_cons; by right|done|].
    intros x Hx. apply elem_of_cons. right. apply elem_of_app. right. by apply Hsub.
  - intros x Hx. apply elem_of_cons. right. apply elem_of_app. by left.
Qed.

(** Two selection maps that give the same steps at every node of the
    path give the same path. *)
Lemma walk_agree sel1 sel2 fuel :
  forall nodeId stack p,
    walk nodeById edgeById sel1 fuel nodeId stack [] = Some p ->
    (forall m node, m ∈ p -> nodeById !! m = Some node ->
                    steps nodeById edgeById sel2 node m
                    = steps nodeById edgeById sel1 node m) ->
    walk nodeById edgeById sel2 fuel nodeId stack [] = Some p.
Proof.
  induction fuel as [|fuel IH]; intros nodeId stack p; [done|].
  rewrite !walk_unfold. destruct (nodeById !! nodeId) as [node|] eqn:Hnode; [|done].
  destruct (has stack nodeId); [done|].
  destruct (stepsOut _ _) as [q|] eqn:Hq; [|done]. intros [= <-] Hsteps.
  rewrite Hsteps; [|apply elem_of_cons; by left|done].
  rewrite (stepsOut_ext_in _ _ _ _ Hq); [done|].
  intros e target p Hin Hp Hsub. apply IH; [done|].
  intros m node' Hm. apply Hsteps. apply elem_of_cons. right. by apply Hsub.
Qed.

(** Every entry of the path is the id of a node or the id of an edge
    followed at a node of the path. *)
Lemma walk_entry sel fuel :
  forall nodeId stack p x,
    walk nodeById edgeById sel fuel nodeId stack [] = Some p -> x ∈ p ->
    is_Some (nodeById !! x) \/
    exists m node e target,
      m ∈ p /\ nodeById !! m = Some node /\
      (e, target) ∈ steps nodeById edgeById sel node m /\ edge_id e = x.
Proof.
  induction fuel as [|fuel IH]; intros nodeId stack p x; [done|].
  rewrite walk_unfold. destruct (nodeById !! nodeId) as [node|] eqn:Hnode.
  - destruct (has stack nodeId).
    + intros [= <-] ->%list_elem_of_singleton. left. eauto.
    + destruct (stepsOut _ _) as [q|] eqn:Hq; [|done]. intros [= <-].
      intros [->|Hx]%elem_of_cons; [left; eauto|].
      pose proof Hx as Hx'.
      rewrite (stepsOut_elem _ _ _ _ Hq) in Hx'.
      destruct Hx' as (e & target & p & Hin & Hp & [->|Hxp]).
      * right. exists nodeId, node, e, target. split; [apply elem_of_cons; by left|]. done.
      * destruct (IH _ _ _ _ Hp Hxp) as [?|(m & node' & e' & t' & Hm & ? & ? & ?)];
          [by left|].
        right. exists m, node', e', t'. split; [|done].
        apply elem_of_cons. right. apply (stepsOut_elem _ _ _ _ Hq). eauto 10.
  - intros [= <-] ?%elem_of_nil. done.
Qed.

Lemma stepsOut_Some_inv w l q e target :
  stepsOut w l = Some q -> (e, target) ∈ l -> is_Some (w target).
Proof.
  revert q. induction l as [|[e' t'] l IH]; intros q Hq Hin; [by apply elem_of_nil in Hin|].
  simpl in Hq. destruct (w t') as [p'|] eqn:Hp'; [|done].
  destruct (stepsOut w l) as [q'|] eqn:Hq'; [|done].
  apply elem_of_cons in Hin as [[= -> ->]|Hin]; [by rewrite Hp'; eauto|].
  by apply (IH q').
Qed.

Lemma steps_edge sel node m e target :
  (e, target) ∈ steps nodeById edgeById sel node m ->
  exists k, edgeById !! k = Some e.
Proof.
  unfold steps. intros (k & _ & Hk)%list_elem_of_omap. exists k.
  unfold traversable in Hk. destruct (edgeById !! k) as [e0|]; [|done].
  destruct (edge_to e0); [|done]. destruct (_ && _); [|done]. by injection Hk as -> _.
Qed.

(** When no edge id is a node id, the path holds the edges followed at
    each of its nodes. *)
Lemma walk_steps_in sel fuel :
  (forall k e, edgeById !! k = Some e -> edge_id e = k /\ nodeById !! k = None) ->
  forall nodeId stack p m node e target,
    walk nodeById edgeById sel fuel nodeId stack [] = Some p ->
    m ∈ p -> m ∉ stack -> nodeById !! m = Some node ->
    (e, target) ∈ steps nodeById edgeById sel node m ->
    edge_id e ∈ p.
Proof.
  intros Hedge. induction fuel as [|fuel IH]; intros nodeId stack p m node e target; [done|].
  rewrite walk_unfold. destruct (nodeById !! nodeId) as [node'|] eqn:Hnode;
    [|by intros [= <-] ?%elem_of_nil].
  destruct (has stack nodeId) eqn:Hstack.
  - intros [= <-] ->%list_elem_of_singleton Hm. by apply has_true in Hstack.
  - destruct (stepsOut _ _) as [q|] eqn:Hq; [|done]. intros [= <-] Hm Hst Hm' Hstep.
    apply elem_of_cons. right.
    destruct (decide (m = nodeId)) as [->|Hne].
    + rewrite Hnode in Hm'. injection Hm' as ->.
      apply (stepsOut_elem _ _ _ _ Hq).
      destruct (stepsOut_Some_inv _ _ _ _ _ Hq Hstep) as [pt Hpt].
      exists e, target, pt. auto.
    + apply elem_of_cons in Hm as [?|Hm]; [done|].
      pose proof Hm as Hm2. rewrite (stepsOut_elem _ _ _ _ Hq) in Hm2.
      destruct Hm2 as (e' & t' & p' & Hin & Hp' & [->|Hmp]).
      * exfalso. apply steps_edge in Hin as [k He].
        destruct (Hedge _ _ He) as [Hid Hnone]. congruence.
      * apply (stepsOut_elem _ _ _ _ Hq). exists e', t', p'. split; [done|]. split; [done|].
        right. eapply IH; [exact Hp'|exact Hmp| |exact Hm'|exact Hstep].
        apply not_elem_of_union. split; [done|]. by intros ?%elem_of_singleton.
Qed.
End WalkEntries.

(** ** Idempotence of the enforcer *)

Lemma Graph_eq g1 g2 :
  graph_id g1 = graph_id g2 -> graph_name g1 = graph_name g2 ->
  graph_version g1 = graph_version g2 -> createdAt g1 = createdAt g2 ->
  updatedAt g1 = updatedAt g2 -> nodes g1 = nodes g2 -> edges g1 = edges g2 ->
  ui g1 = ui g2 -> g1 = g2.
Proof. destruct g1, g2. simpl. by intros -> -> -> -> -> -> -> ->. Qed.

Lemma withUi_same graph :
  withUi graph (mkUi (selectedNodeId (ui graph)) (activePath (ui graph))
                     (activeSelections (ui graph))) = graph.
Proof. by destruct graph as [? ? ? ? ? ? ? []]. Qed.

Lemma rebuild_eq graph u :
  ui (rebuildActivePathFromSelections graph) = u ->
  rebuildActivePathFromSelections graph = withUi graph u.
Proof.
  intros <-. destruct (rebuild_frame graph) as (? & ? & ? & ? & ? & ? & ? & ?).
  by apply Graph_eq.
Qed.

Lemma omap_filter_same {A B : Type} (f : A -> option B) (P : A -> Prop)
      `{!forall x, Decision (P x)} (l : list A) :
  (forall x, x ∈ l -> is_Some (f x) -> P x) -> omap f (filter P l) = omap f l.
Proof.
  induction l as [|x l IH]; intros HP; [done|].
  rewrite filter_cons. cbn [omap list_omap].
  assert (omap f (filter P l) = omap f l) as Hrest.
  { apply IH. intros y Hy. apply HP. apply elem_of_cons. by right. }
  case_decide as Hx.
  - cbn [omap list_omap]. by rewrite Hrest.
  - destruct (f x) as [y|] eqn:Hfx; [|done].
    exfalso. apply Hx, HP; [apply elem_of_cons; by left|]. rewrite Hfx. eauto.
Qed.

Lemma deriveSelections_none edgeIdSet edgeById (path : list jsstring) :
  (forall x, x ∈ path -> x ∉ edgeIdSet) ->
  deriveSelections edgeIdSet edgeById path = ∅.
Proof.
  unfold deriveSelections. induction path as [|x path IH] using rev_ind; intros Hnone; [done|].
  rewrite foldl_app. cbn [foldl]. rewrite IH.
  - rewrite (proj2 (has_false edgeIdSet x)); [done|].
    apply Hnone, elem_of_app. right. by apply list_elem_of_singleton.
  - intros y Hy. apply Hnone, elem_of_app. by left.
Qed.

Lemma take_1_short {A : Type} (l : list A) : (length l <= 1)%nat -> take 1 l = l.
Proof. intros Hlen. apply take_ge. lia. Qed.

Lemma cutXor_short node u :
  (node_type node = js "xor" -> (length u <= 1)%nat) -> cutXor node u = u.
Proof.
  unfold cutXor. intros Hlen. case_bool_decide as Hxor; simpl; [|done].
  case_bool_decide as H1; [|done]. specialize (Hlen Hxor). lia.
Qed.

Section Idempotence.
Variable graph : Graph.

(** A graph with normalised selections: every entry belongs to a node,
    has no repetition, names edges of that node that lead to an existing
    node, and has at most one edge id when the node is XOR. *)
Definition normalizedGraph : Prop :=
  forall k l,
    activeSelections (ui graph) !! k = Some l ->
    exists node,
      nodeMap graph !! k = Some node /\ NoDup l /\
      (forall x, x ∈ l ->
                 x ∈ validEdgeIdsOf (nodeIds graph) (outgoingMap (edges graph)) k) /\
      (node_type node = js "xor" -> (length l <= 1)%nat).

Hypothesis Hdisjoint : nodeIds graph ## edgeIds graph.
Hypothesis Hnormalized : normalizedGraph.

Variable root : Node.
Variable rest : list Node.
Hypothesis Hnodes : nodes graph = root :: rest.
Hypothesis Hroot : nonEmpty (node_id root) = true.

Variable nextPath : list jsstring.
Hypothesis Hwalk :
  walk (nodeMap graph) (edgeMap graph) (activeSelections (ui graph))
       (walkFuel graph) (node_id root) ∅ [] = Some nextPath.

Abbreviation pruned :=
  (pruneSelections (activeNodeIds graph nextPath) (activeEdgeIds graph nextPath)
                   (activeSelections (ui graph))).

Lemma elem_of_activeNodeIds x :
  x ∈ activeNodeIds graph nextPath <-> x ∈ nextPath /\ x ∈ nodeIds graph.
Proof.
  unfold activeNodeIds. rewrite elem_of_jsSet, list_elem_of_filter. tauto.
Qed.

Lemma elem_of_activeEdgeIds x :
  x ∈ activeEdgeIds graph nextPath <->
  x ∈ nextPath /\ (x ∉ nodeIds graph) /\ x ∈ edgeIds graph.
Proof.
  unfold activeEdgeIds. rewrite elem_of_jsSet, list_elem_of_filter. tauto.
Qed.

Lemma edgeMap_disjoint k e :
  edgeMap graph !! k = Some e -> edge_id e = k /\ nodeMap graph !! k = None.
Proof.
  intros He. pose proof (edgeMap_lookup_Some _ _ _ He) as [_ Hid]. split; [done|].
  apply eq_None_not_Some. rewrite nodeMap_is_Some. intros Hk.
  apply (Hdisjoint k Hk). apply edgeMap_is_Some. eauto.
Qed.

Lemma traversable_edge nodeId edgeId e target :
  traversable (nodeMap graph) (edgeMap graph) nodeId edgeId = Some (e, target) ->
  edgeMap graph !! edgeId = Some e /\ edge_id e = edgeId.
Proof.
  unfold traversable. destruct (edgeMap graph !! edgeId) as [e0|] eqn:He0; [|done].
  destruct (edge_to e0); [|done]. destruct (_ && _); [|done]. intros [= -> _].
  split; [done|]. by apply edgeMap_lookup_Some in He0 as [_ ?].
Qed.

(** The edges followed at a node of the path are active. *)
Lemma followed_active m node edgeId e target :
  m ∈ nextPath -> nodeMap graph !! m = Some node ->
  edgeId ∈ selectedEdgeIds (activeSelections (ui graph)) node m ->
  traversable (nodeMap graph) (edgeMap graph) m edgeId = Some (e, target) ->
  edgeId ∈ activeEdgeIds graph nextPath.
Proof.
  intros Hm Hnode Hsel Htrav.
  destruct (traversable_edge _ _ _ _ Htrav) as [He Hid].
  destruct (edgeMap_disjoint _ _ He) as [_ Hnone].
  apply elem_of_activeEdgeIds. split; [|split].
  - rewrite <- Hid.
    eapply (walk_steps_in _ _ _ _ edgeMap_disjoint);
      [exact Hwalk|exact Hm|set_solver|exact Hnode|].
    unfold steps. apply list_elem_of_omap. eauto.
  - rewrite <- nodeMap_is_Some, Hnone. by intros [? ?].
  - apply edgeMap_is_Some. eauto.
Qed.

Lemma selected_normalized m node l :
  nodeMap graph !! m = Some node -> activeSelections (ui graph) !! m = Some l ->
  selectedEdgeIds (activeSelections (ui graph)) node m = l /\ NoDup l /\
  (node_type node = js "xor" -> (length l <= 1)%nat).
Proof.
  intros Hnode Hl. destruct (Hnormalized _ _ Hl) as (node' & Hnode' & Hnd & _ & Hxor).
  rewrite Hnode in Hnode'. injection Hnode' as <-.
  split; [|done]. unfold selectedEdgeIds. rewrite Hl. simpl.
  case_bool_decide; [|done]. apply take_1_short. auto.
Qed.

Lemma pruned_lookup_active m l :
  m ∈ nextPath -> m ∈ nodeIds graph -> activeSelections (ui graph) !! m = Some l ->
  default [] (pruned !! m) = pushUnique (has (activeEdgeIds graph nextPath)) l.
Proof.
  intros Hm Hid Hl. rewrite pruneSelections_lookup, Hl.
  rewrite (proj2 (has_true _ m)) by by apply elem_of_activeNodeIds.
  cbn [negb]. cbv zeta. case_bool_decide as Hlen; [done|].
  simpl. destruct (pushUnique _ l); [done|]. simpl in Hlen. lia.
Qed.

(** The pruned selections give the same steps at every node of the
    path. *)
Lemma pruned_steps m node :
  m ∈ nextPath -> nodeMap graph !! m = Some node ->
  steps (nodeMap graph) (edgeMap graph) pruned node m
  = steps (nodeMap graph) (edgeMap graph) (activeSelections (ui graph)) node m.
Proof.
  intros Hm Hnode.
  assert (m ∈ nodeIds graph) as Hid by (apply nodeMap_is_Some; eauto).
  destruct (activeSelections (ui graph) !! m) as [l|] eqn:Hl.
  - destruct (selected_normalized _ _ _ Hnode Hl) as (Hsel & Hnd & Hxor).
    unfold steps. rewrite Hsel.
    assert (selectedEdgeIds pruned node m
            = filter (fun x => x ∈ activeEdgeIds graph nextPath) l) as ->.
    { unfold selectedEdgeIds. rewrite (pruned_lookup_active _ _ Hm Hid Hl).
      rewrite pushUnique_filter by done.
      assert (filter (fun x => Is_true (has (activeEdgeIds graph nextPath) x)) l
              = filter (fun x => x ∈ activeEdgeIds graph nextPath) l) as ->.
      { apply list_filter_iff. intros x. unfold has.
        by rewrite bool_decide_spec. }
      case_bool_decide as Hx; [|done]. apply take_1_short.
      etrans; [apply length_filter|]. auto. }
    apply omap_filter_same. intros x Hx [[e target] Htrav].
    eapply followed_active; [exact Hm|exact Hnode| |exact Htrav]. by rewrite Hsel.
  - unfold steps, selectedEdgeIds. rewrite pruneSelections_lookup, Hl. done.
Qed.

Lemma walk_pruned :
  walk (nodeMap graph) (edgeMap graph) pruned (walkFuel graph) (node_id root) ∅ []
  = Some nextPath.
Proof.
  apply (walk_agree _ _ _ _ _ _ _ _ Hwalk). intros m node Hm Hnode.
  by apply pruned_steps.
Qed.

Lemma pruned_entry k f :
  pruned !! k = Some f ->
  exists l node,
    activeSelections (ui graph) !! k = Some l /\ nodeMap graph !! k = Some node /\
    f = pushUnique (has (activeEdgeIds graph nextPath)) l /\ f <> [] /\ NoDup f /\
    k ∈ activeNodeIds graph nextPath /\
    (forall x, x ∈ f -> x ∈ l /\ x ∈ activeEdgeIds graph nextPath) /\
    (length f <= length l)%nat.
Proof.
  intros (l & Hl & Hk & -> & Hne)%pruneSelections_Some.
  destruct (Hnormalized _ _ Hl) as (node & Hnode & _).
  exists l, node. repeat split; try done.
  - apply NoDup_pushUnique.
  - by apply elem_of_pushUnique in H as [? _].
  - by apply elem_of_pushUnique in H as [_ ?%has_true].
  - apply length_pushUnique.
Qed.

(** Pruning the pruned selections against the same path changes
    nothing. *)
Lemma pruned_pruned :
  pruneSelections (activeNodeIds graph nextPath) (activeEdgeIds graph nextPath) pruned
  = pruned.
Proof.
  apply map_eq. intros k. rewrite pruneSelections_lookup.
  destruct (pruned !! k) as [f|] eqn:Hf; [|done].
  destruct (pruned_entry _ _ Hf) as (l & node & _ & _ & _ & Hne & Hnd & Hk & Hin & _).
  rewrite (proj2 (has_true _ k)) by done. cbn [negb]. cbv zeta.
  rewrite pushUnique_id; [|done|].
  - rewrite bool_decide_eq_true_2; [done|]. destruct f; [done|simpl; lia].
  - intros x Hx. apply has_true. by apply Hin.
Qed.
(** When the pruned selections are empty the path holds no edge id, and
    nothing is read off it. *)
Lemma derived_of_empty :
  pruned = ∅ -> deriveSelections (edgeIds graph) (edgeMap graph) nextPath = ∅.
Proof.
  intros Hempty. apply deriveSelections_none. intros x Hx Hedge.
  assert (x ∉ nodeIds graph) as Hnot by (intros Hn; by apply (Hdisjoint x)).
  destruct (walk_entry _ _ _ _ _ _ _ x Hwalk Hx)
    as [Hnode|(m & node & e & target & Hm & Hnode & Hstep & Hid)].
  { by apply nodeMap_is_Some in Hnode. }
  unfold steps in Hstep. apply list_elem_of_omap in Hstep as (edgeId & Hsel & Htrav).
  destruct (traversable_edge _ _ _ _ Htrav) as [_ Hid']. rewrite Hid in Hid'. subst edgeId.
  assert (m ∈ nodeIds graph) as Hmid by (apply nodeMap_is_Some; eauto).
  destruct (activeSelections (ui graph) !! m) as [l|] eqn:Hl.
  - pose proof (pruned_lookup_active _ _ Hm Hmid Hl) as Hpruned.
    rewrite Hempty, lookup_empty in Hpruned. simpl in Hpruned.
    destruct (selected_normalized _ _ _ Hnode Hl) as (Hsel' & _).
    rewrite Hsel' in Hsel.
    assert (x ∈ pushUnique (has (activeEdgeIds graph nextPath)) l) as Hin.
    { apply elem_of_pushUnique. split; [done|]. apply has_true.
      by apply elem_of_activeEdgeIds. }
    rewrite <- Hpruned in Hin. by apply elem_of_nil in Hin.
  - unfold selectedEdgeIds in Hsel. rewrite Hl in Hsel. simpl in Hsel.
    destruct (bool_decide _) in Hsel; by apply elem_of_nil in Hsel.
Qed.

Lemma source_of_pruned :
  (if negb (bool_decide (pruned = ∅)) then pruned
   else deriveSelections (edgeIds graph) (edgeMap graph) nextPath) = pruned.
Proof.
  case_bool_decide as Hempty; simpl; [|done]. by rewrite derived_of_empty.
Qed.

(** Normalising the pruned selections changes nothing. *)
Lemma normalized_of_pruned :
  foldl (normalizeSelection (nodeIds graph) (outgoingMap (edges graph)) pruned) ∅
        (nodes graph) = pruned.
Proof.
  apply map_eq. intros k. rewrite normalized_lookup. fold (nodeMap graph).
  destruct (pruned !! k) as [f|] eqn:Hf.
  - destruct (pruned_entry _ _ Hf)
      as (l & node & Hl & Hnode & _ & Hne & Hnd & _ & Hin & Hlen).
    rewrite Hnode. cbv zeta.
    destruct (Hnormalized _ _ Hl) as (node' & Hnode' & _ & Hvalid & Hxor).
    rewrite Hnode in Hnode'. injection Hnode' as <-.
    assert (uniqueOf (nodeIds graph) (outgoingMap (edges graph)) pruned k = f) as ->.
    { unfold uniqueOf. rewrite Hf. simpl. apply pushUnique_id; [done|].
      intros x Hx. apply has_true, Hvalid. by apply Hin. }
    rewrite cutXor_short by (intros Hx; specialize (Hxor Hx); lia).
    rewrite bool_decide_eq_true_2; [done|]. destruct f; [done|simpl; lia].
  - destruct (nodeMap graph !! k) as [node|]; [|done]. cbv zeta.
    assert (uniqueOf (nodeIds graph) (outgoingMap (edges graph)) pruned k = []) as ->.
    { unfold uniqueOf. by rewrite Hf. }
    rewrite cutXor_short by (simpl; lia). done.
Qed.

(** Deriving the path again from the pruned selections changes
    nothing. *)
Lemma rebuild_of_pruned selected :
  ui (rebuildActivePathFromSelections (withUi graph (mkUi selected nextPath pruned)))
  = mkUi selected nextPath pruned.
Proof.
  erewrite rebuild_ui; [|exact Hnodes|exact Hroot|exact walk_pruned].
  cbn [ui withUi selectedNodeId activeSelections]. f_equal. exact pruned_pruned.
Qed.
(** The pruned selections are normalised as well. *)
Lemma pruned_normalized k f :
  pruned !! k = Some f ->
  exists node,
    nodeMap graph !! k = Some node /\ NoDup f /\
    (forall x, x ∈ f ->
               x ∈ validEdgeIdsOf (nodeIds graph) (outgoingMap (edges graph)) k) /\
    (node_type node = js "xor" -> (length f <= 1)%nat).
Proof.
  intros Hf.
  destruct (pruned_entry _ _ Hf) as (l & node & Hl & Hnode & _ & _ & Hnd & _ & Hin & Hlen).
  destruct (Hnormalized _ _ Hl) as (node' & Hnode' & _ & Hvalid & Hxor).
  rewrite Hnode in Hnode'. injection Hnode' as <-.
  exists node. split; [done|]. split; [done|]. split.
  - intros x Hx. apply Hvalid. by apply Hin.
  - intros Hx. specialize (Hxor Hx). lia.
Qed.
End Idempotence.

Lemma prepared_normalized graph : normalizedGraph (prepared graph).
Proof.
  intros k l Hl. cbn [prepared ui withUi activeSelections] in Hl.
  unfold normalizedSelectionsOf in Hl. rewrite normalized_lookup in Hl.
  fold (nodeMap (mirrored graph)) in Hl.
  change (nodeMap (prepared graph)) with (nodeMap (mirrored graph)).
  change (nodeIds (prepared graph)) with (nodeIds (mirrored graph)).
  change (edges (prepared graph)) with (edges (mirrored graph)).
  destruct (nodeMap (mirrored graph) !! k) as [node|]; [|done].
  cbv zeta in Hl. case_bool_decide; [|done]. injection Hl as <-.
  exists node. split; [done|]. split; [|split].
  - apply cutXor_NoDup, uniqueOf_NoDup.
  - intros x Hx%cutXor_sub. by apply uniqueOf_valid in Hx.
  - apply cutXor_xor.
Qed.

Lemma edgeIds_sanitized graph x : x ∈ edgeIds (sanitized graph) -> x ∈ edgeIds graph.
Proof.
  rewrite !elem_of_edgeIds. intros (e' & He' & <-).
  cbn [sanitized edges withEdges] in He'.
  apply list_elem_of_omap in He' as (e & He & (Hid & _)%sanitizeEdge_Some). eauto.
Qed.

Lemma prepared_disjoint graph :
  nodeIds graph ## edgeIds graph -> nodeIds (prepared graph) ## edgeIds (prepared graph).
Proof.
  intros Hdisj x Hn He.
  change (nodeIds (prepared graph)) with (nodeIds (mirrored graph)) in Hn.
  change (edgeIds (prepared graph)) with (edgeIds (sanitized graph)) in He.
  rewrite nodeIds_mirrored in Hn. apply edgeIds_sanitized in He. by apply (Hdisj x).
Qed.

Lemma normalized_of_empty nodeIdSet out (ns : list Node) :
  foldl (normalizeSelection nodeIdSet out ∅) ∅ ns = ∅.
Proof.
  apply map_eq. intros k. rewrite normalized_lookup, lookup_empty.
  destruct (jsMap _ !! k) as [node|]; [|done]. cbv zeta.
  assert (uniqueOf nodeIdSet out ∅ k = []) as -> by done.
  by rewrite cutXor_short by (simpl; lia).
Qed.

(** Sanitation and mirroring leave a graph as a pass left it. *)
Lemma mirrored_withUi graph u : mirrored (withUi graph u) = withUi (mirrored graph) u.
Proof. reflexivity. Qed.



(** The shape of a graph after a pass, in a graph where no node id is an
    edge id: the prepared graph with a [ui] that normalisation and path
    derivation leave as it is. *)
Lemma enforce_shape state graph :
  nodeIds graph ## edgeIds graph ->
  exists u,
    (enforceGraphConsistency state graph).2 = withUi (prepared graph) u /\
    selectedNodeId u = keptSelectedNode (mirrored graph) /\
    normalizedSelectionsOf (withUi (prepared graph) u) = activeSelections u /\
    ui (rebuildActivePathFromSelections (withUi (prepared graph) u)) = u /\
    normalizedGraph (withUi (prepared graph) u).
Proof.
  intros Hdisj. rewrite enforce_graph.
  set (G := prepared graph).
  set (kept := keptSelectedNode (mirrored graph)).
  assert (exists u,
            ui (rebuildActivePathFromSelections G) = u /\ selectedNodeId u = kept /\
            normalizedSelectionsOf (withUi G u) = activeSelections u /\
            ui (rebuildActivePathFromSelections (withUi G u)) = u /\
            normalizedGraph (withUi G u))
    as (u & Hu & Hrest).
  { assert (match nodes G with [] => True
                            | root :: _ => nonEmpty (node_id root) = false end ->
              (exists u,
                 ui (rebuildActivePathFromSelections G) = u /\ selectedNodeId u = kept /\
                 normalizedSelectionsOf (withUi G u) = activeSelections u /\
                 ui (rebuildActivePathFromSelections (withUi G u)) = u /\
                 normalizedGraph (withUi G u))) as Hdegenerate.
    { intros Hnodes. exists (mkUi kept [] ∅). split; [|split; [done|split; [|split]]].
      - by apply rebuild_ui_empty.
      - unfold normalizedSelectionsOf, sourceSelectionsOf. cbn [ui withUi activeSelections].
        rewrite bool_decide_eq_true_2 by done. apply normalized_of_empty.
      - by apply rebuild_ui_empty.
      - intros k l Hl. cbn [ui withUi activeSelections] in Hl.
        by rewrite lookup_empty in Hl. }
    destruct (nodes G) as [|root rest] eqn:Hnodes; [by apply Hdegenerate|].
    destruct (nonEmpty (node_id root)) eqn:Hroot; [|by apply Hdegenerate].
    clear Hdegenerate.
    destruct (walk_terminates G (activeSelections (ui G)) (node_id root)) as [p Hp].
    exists (mkUi kept p (pruneSelections (activeNodeIds G p) (activeEdgeIds G p)
                                         (activeSelections (ui G)))).
    split; [|split; [done|split; [|split]]].
    - by apply (rebuild_ui G root rest).
    - unfold normalizedSelectionsOf, sourceSelectionsOf.
      cbn [ui withUi activeSelections activePath].
      change (edgeIds (withUi G _)) with (edgeIds G).
      change (edgeMap (withUi G _)) with (edgeMap G).
      change (nodeIds (withUi G _)) with (nodeIds G).
      change (edges (withUi G _)) with (edges G).
      change (nodes (withUi G _)) with (nodes G).
      rewrite (source_of_pruned G (prepared_disjoint graph Hdisj)
                 (prepared_normalized graph) root p Hp).
      apply (normalized_of_pruned G (prepared_normalized graph)).
    - apply (rebuild_of_pruned G (prepared_disjoint graph Hdisj)
               (prepared_normalized graph) root rest Hnodes Hroot p Hp).
    - intros k f Hf. cbn [ui withUi activeSelections] in Hf.
      exact (pruned_normalized G (prepared_normalized graph) p k f Hf). }
  exists u. split; [by apply rebuild_eq|done].
Qed.





(** ** The walk under a change of the selections *)

Section WalkChange.
Variable nodeById : gmap jsstring Node.
Variable edgeById : gmap jsstring Edge.

(** Fewer steps at every node give fewer entries. *)
Lemma walk_mono sel1 sel2 fuel :
  (forall m node s, nodeById !! m = Some node ->
                    s ∈ steps nodeById edgeById sel2 node m ->
                    s ∈ steps nodeById edgeById sel1 node m) ->
  forall nodeId stack p1 p2 x,
    walk nodeById edgeById sel1 fuel nodeId stack [] = Some p1 ->
    walk nodeById edgeById sel2 fuel nodeId stack [] = Some p2 ->
    x ∈ p2 -> x ∈ p1.
Proof.
  intros Hsub. induction fuel as [|fuel IH]; intros nodeId stack p1 p2 x; [done|].
  rewrite !walk_unfold. destruct (nodeById !! nodeId) as [node|] eqn:Hnode;
    [|by intros [= <-] [= <-]].
  destruct (has stack nodeId); [by intros [= <-] [= <-]|].
  destruct (stepsOut _ (steps _ _ sel1 _ _)) as [q1|] eqn:Hq1; [|done].
  destruct (stepsOut _ (steps _ _ sel2 _ _)) as [q2|] eqn:Hq2; [|done].
  intros [= <-] [= <-] [->|Hx]%elem_of_cons; apply elem_of_cons; [by left|right].
  rewrite (stepsOut_elem _ _ _ _ Hq2) in Hx.
  destruct Hx as (e & target & p & Hin & Hp & Hx).
  apply (Hsub _ _ _ Hnode) in Hin.
  destruct (stepsOut_Some_inv _ _ _ _ _ Hq1 Hin) as [p' Hp'].
  apply (stepsOut_elem _ _ _ _ Hq1). exists e, target, p'. split; [done|]. split; [done|].
  destruct Hx as [->|Hx]; [by left|right]. by apply (IH _ _ _ _ _ Hp' Hp).
Qed.

(** A change of the selection of one node does not remove that node
    from the path. *)
Lemma walk_keeps_changed sel1 sel2 x fuel :
  (forall m, m ≠ x -> sel1 !! m = sel2 !! m) ->
  forall nodeId stack p1 p2,
    walk nodeById edgeById sel1 fuel nodeId stack [] = Some p1 ->
    walk nodeById edgeById sel2 fuel nodeId stack [] = Some p2 ->
    x ∈ p1 -> x ∈ p2.
Proof.
  intros Hsame. induction fuel as [|fuel IH]; intros nodeId stack p1 p2; [done|].
  rewrite !walk_unfold. destruct (nodeById !! nodeId) as [node|] eqn:Hnode;
    [|by intros [= <-] [= <-]].
  destruct (has stack nodeId); [by intros [= <-] [= <-]|].
  destruct (stepsOut _ (steps _ _ sel1 _ _)) as [q1|] eqn:Hq1; [|done].
  destruct (stepsOut _ (steps _ _ sel2 _ _)) as [q2|] eqn:Hq2; [|done].
  intros [= <-] [= <-] Hx. apply elem_of_cons.
  destruct (decide (x = nodeId)) as [|Hne]; [by left|right].
  apply elem_of_cons in Hx as [?|Hx]; [done|].
  assert (steps nodeById edgeById sel2 node nodeId
          = steps nodeById edgeById sel1 node nodeId) as Hsteps.
  { unfold steps, selectedEdgeIds. by rewrite (Hsame nodeId) by done. }
  rewrite Hsteps in Hq2.
  rewrite (stepsOut_elem _ _ _ _ Hq1) in Hx.
  destruct Hx as (e & target & p & Hin & Hp & Hx).
  destruct (stepsOut_Some_inv _ _ _ _ _ Hq2 Hin) as [p' Hp'].
  apply (stepsOut_elem _ _ _ _ Hq2). exists e, target, p'. split; [done|]. split; [done|].
  destruct Hx as [->|Hx]; [by left|right]. by apply (IH _ _ _ _ Hp Hp').
Qed.
End WalkChange.

(** ** Toggling an edge twice *)

Lemma selectedEdgeIds_sub sel node m x :
  x ∈ selectedEdgeIds sel node m -> x ∈ default [] (sel !! m).
Proof.
  unfold selectedEdgeIds. case_bool_decide; [|done]. apply (subseteq_take 1).
Qed.

Lemma traversable_from graph m x e target :
  traversable (nodeMap graph) (edgeMap graph) m x = Some (e, target) ->
  edge_from e = m /\ edge_to e = Some target /\ target ∈ nodeIds graph.
Proof.
  unfold traversable. destruct (edgeMap graph !! x) as [e0|]; [|done].
  destruct (edge_to e0) as [t|] eqn:Hto; [|done].
  destruct (bool_decide (edge_from e0 = m) && hasKey (nodeMap graph) t) eqn:Hok; [|done].
  intros [= -> ->]. apply andb_true_iff in Hok as [Hfrom%bool_decide_eq_true Hkey].
  rewrite hasKey_nodeMap in Hkey. by apply has_true in Hkey.
Qed.

(** Every step the pruned selections allow at a node is a step of the
    selections they come from. *)
Lemma pruned_steps_sub graph nodeId p :
  walk (nodeMap graph) (edgeMap graph) (activeSelections (ui graph))
       (walkFuel graph) nodeId ∅ [] = Some p ->
  forall m node s,
    nodeMap graph !! m = Some node ->
    s ∈ steps (nodeMap graph) (edgeMap graph)
              (pruneSelections (activeNodeIds graph p) (activeEdgeIds graph p)
                               (activeSelections (ui graph))) node m ->
    s ∈ steps (nodeMap graph) (edgeMap graph) (activeSelections (ui graph)) node m.
Proof.
  intros Hwalk m node [e target] Hnode Hs.
  unfold steps in Hs. apply list_elem_of_omap in Hs as (x & Hx & Htrav).
  apply selectedEdgeIds_sub in Hx.
  destruct (pruneSelections _ _ _ !! m) as [f|] eqn:Hf; [|by apply elem_of_nil in Hx].
  apply pruneSelections_Some in Hf as (l & Hl & _ & -> & _). simpl in Hx.
  apply elem_of_pushUnique in Hx as [_ Hactive%has_true].
  apply elem_of_activeEdgeIds in Hactive as (Hp & Hnot & _).
  destruct (walk_entry _ _ _ _ _ _ _ x Hwalk Hp)
    as [Hkey|(m' & node' & e' & t' & Hm' & Hnode' & Hstep & Hid)].
  { by apply nodeMap_is_Some in Hkey. }
  pose proof Hstep as Hstep'.
  unfold steps in Hstep'. apply list_elem_of_omap in Hstep' as (x' & _ & Htrav').
  destruct (traversable_edge _ _ _ _ _ Htrav') as [He' Hid'].
  rewrite Hid in Hid'. subst x'.
  destruct (traversable_edge _ _ _ _ _ Htrav) as [He _].
  rewrite He in He'. injection He' as <-.
  destruct (traversable_from _ _ _ _ _ Htrav) as [Hfrom _].
  destruct (traversable_from _ _ _ _ _ Htrav') as [Hfrom' _].
  assert (m' = m) as -> by congruence.
  rewrite Hnode in Hnode'. injection Hnode' as <-.
  rewrite Htrav in Htrav'. injection Htrav' as <-. done.
Qed.

Lemma findEdge_Some graph edgeId e :
  findEdge (Some graph) edgeId = Some e -> e ∈ edges graph /\ edge_id e = edgeId.
Proof.
  intros [Hin Hid]%find_some. apply bool_decide_eq_true in Hid.
  by apply list_elem_of_In in Hin.
Qed.

Lemma findNode_Some graph nodeId node :
  findNode (Some graph) nodeId = Some node -> node ∈ nodes graph /\ node_id node = nodeId.
Proof.
  intros [Hin Hid]%find_some. apply bool_decide_eq_true in Hid.
  by apply list_elem_of_In in Hin.
Qed.

(** The graph a toggle that is not rejected leaves. *)
Definition toggledGraph (graph : Graph) (sourceNode : Node) (e : Edge) : Graph :=
  rebuildActivePathFromSelections
    (withUi graph
       (mkUi (selectedNodeId (ui graph)) (activePath (ui graph))
             (toggleSelection (normalizeNodeType (JStr (node_type sourceNode)))
                              (node_id sourceNode) (edge_id e)
                              (activeSelections (ui graph))).1)).

Lemma apply_graph state graph edgeId e sourceNode :
  findEdge (Some graph) edgeId = Some e -> edgeHasTarget e = true ->
  findNode (Some graph) (edge_from e) = Some sourceNode ->
  (applyTypedEdgeSelection state (Some graph) edgeId).2
  = Some (toggledGraph graph sourceNode e).
Proof.
  intros He Htarget Hsource. unfold applyTypedEdgeSelection, toggledGraph.
  rewrite He, Htarget, Hsource. cbn [negb]. by destruct (toggleSelection _ _ _ _).
Qed.

Lemma toggledGraph_find graph sourceNode e edgeId nodeId :
  findEdge (Some (toggledGraph graph sourceNode e)) edgeId = findEdge (Some graph) edgeId /\
  findNode (Some (toggledGraph graph sourceNode e)) nodeId = findNode (Some graph) nodeId.
Proof.
  unfold findEdge, findNode, toggledGraph. by rewrite rebuild_edges, rebuild_nodes.
Qed.

Lemma toggle_xor_select sourceId edgeId selections :
  default [] (selections !! sourceId) = [] ->
  (toggleSelection (js "xor") sourceId edgeId selections).1
  = <[sourceId := [edgeId]]> selections.
Proof.
  intros Hprior. unfold toggleSelection.
  rewrite (bool_decide_eq_false_2 (js "xor" = js "or")) by done.
  assert (match selections !! sourceId with
          | Some l => jsUnique (filter (fun id => Is_true (nonEmpty id)) l)
          | None => []
          end = []) as ->.
  { destruct (selections !! sourceId) as [l|]; [|done]. simpl in Hprior. by subst l. }
  by rewrite bool_decide_eq_false_2.
Qed.

Lemma toggle_xor_deselect sourceId edgeId selections :
  selections !! sourceId = Some [edgeId] -> nonEmpty edgeId = true ->
  (toggleSelection (js "xor") sourceId edgeId selections).1 = delete sourceId selections.
Proof.
  intros Hprior Hne. unfold toggleSelection.
  rewrite (bool_decide_eq_false_2 (js "xor" = js "or")) by done.
  rewrite Hprior. rewrite filter_cons, decide_True by by rewrite Hne.
  rewrite filter_nil. by rewrite bool_decide_eq_true_2.
Qed.

(** A graph without a root, or whose root has the empty id. *)
Definition rootless (graph : Graph) : Prop :=
  match nodes graph with
  | [] => True
  | root :: _ => nonEmpty (node_id root) = false
  end.

(** The two shapes of the result of [rebuildActivePathFromSelections]. *)
Lemma rebuild_cases graph :
  (rootless graph /\
   ui (rebuildActivePathFromSelections graph) = mkUi (selectedNodeId (ui graph)) [] ∅) \/
  exists root rest p,
    nodes graph = root :: rest /\ nonEmpty (node_id root) = true /\
    walk (nodeMap graph) (edgeMap graph) (activeSelections (ui graph))
         (walkFuel graph) (node_id root) ∅ [] = Some p /\
    ui (rebuildActivePathFromSelections graph)
    = mkUi (selectedNodeId (ui graph)) p
           (pruneSelections (activeNodeIds graph p) (activeEdgeIds graph p)
                            (activeSelections (ui graph))).
Proof.
  unfold rootless.
  destruct (nodes graph) as [|root rest] eqn:Hnodes;
    [left; split; [done|]; apply rebuild_ui_empty; by rewrite Hnodes|].
  destruct (nonEmpty (node_id root)) eqn:Hroot;
    [|left; split; [done|]; apply rebuild_ui_empty; by rewrite Hnodes].
  right. destruct (walk_terminates graph (activeSelections (ui graph)) (node_id root))
    as [p Hp].
  exists root, rest, p. split; [done|]. split; [done|]. split; [done|].
  by apply (rebuild_ui graph root rest).
Qed.

Lemma rebuild_rootless graph :
  rootless graph ->
  ui (rebuildActivePathFromSelections graph) = mkUi (selectedNodeId (ui graph)) [] ∅.
Proof. apply rebuild_ui_empty. Qed.

Lemma pushUnique_singleton keep x :
  pushUnique keep [x] = if keep x then [x] else [].
Proof. unfold pushUnique. simpl. by destruct (keep x). Qed.

Lemma steps_ext nodeById edgeById sel1 sel2 node m :
  sel1 !! m = sel2 !! m ->
  steps nodeById edgeById sel1 node m = steps nodeById edgeById sel2 node m.
Proof. intros Heq. unfold steps, selectedEdgeIds. by rewrite Heq. Qed.

(** The graph with another selection map. *)
Definition withSelections (graph : Graph) (selections : gmap jsstring (list jsstring))
  : Graph :=
  withUi graph (mkUi (selectedNodeId (ui graph)) (activePath (ui graph)) selections).

Lemma rebuild_withSelections graph selections :
  exists u,
    rebuildActivePathFromSelections (withSelections graph selections) = withUi graph u /\
    selectedNodeId u = selectedNodeId (ui graph) /\
    ((rootless graph /\ activePath u = [] /\ activeSelections u = ∅) \/
     exists root rest,
       nodes graph = root :: rest /\ nonEmpty (node_id root) = true /\
       walk (nodeMap graph) (edgeMap graph) selections (walkFuel graph) (node_id root) ∅ []
       = Some (activePath u) /\
       activeSelections u
       = pruneSelections (activeNodeIds graph (activePath u))
                         (activeEdgeIds graph (activePath u)) selections).
Proof.
  destruct (rebuild_cases (withSelections graph selections))
    as [[Hroot Hui]|(root & rest & p & Hnodes & Hroot & Hwalk & Hui)].
  - eexists. split; [exact (rebuild_eq _ _ Hui)|]. split; [done|]. left. done.
  - eexists. split; [exact (rebuild_eq _ _ Hui)|]. split; [done|]. right.
    exists root, rest. done.
Qed.

(** The selection of a node after an XOR toggle of one of its edges. *)
Lemma select_lookup graph selections sourceId edgeId u :
  activeSelections u
  = pruneSelections (activeNodeIds graph (activePath u)) (activeEdgeIds graph (activePath u))
                    (<[sourceId := [edgeId]]> selections) ->
  activeSelections u !! sourceId =
  if has (activeNodeIds graph (activePath u)) sourceId
     && has (activeEdgeIds graph (activePath u)) edgeId
  then Some [edgeId] else None.
Proof.
  intros ->. rewrite pruneSelections_lookup, lookup_insert_eq, pushUnique_singleton.
  destruct (has (activeNodeIds _ _) sourceId); [|done].
  by destruct (has (activeEdgeIds _ _) edgeId).
Qed.

(** Selecting an edge at a node without selection and toggling it again
    leaves the node without selection. *)
Lemma xor_toggle_twice_empty graph sourceNode e :
  normalizeNodeType (JStr (node_type sourceNode)) = js "xor" ->
  nonEmpty (edge_id e) = true -> e ∈ edges graph ->
  default [] (activeSelections (ui graph) !! node_id sourceNode) = [] ->
  default [] (activeSelections
                (ui (toggledGraph (toggledGraph graph sourceNode e) sourceNode e))
              !! node_id sourceNode) = [].
Proof.
  intros Hxor Hne He Hprior.
  set (sid := node_id sourceNode). set (eid := edge_id e).
  unfold toggledGraph at 2. rewrite Hxor. fold sid eid.
  rewrite toggle_xor_select by done.
  set (selA := <[sid := [eid]]> (activeSelections (ui graph))).
  fold (withSelections graph selA).
  destruct (rebuild_withSelections graph selA) as (u1 & -> & _ & Hu1).
  unfold toggledGraph. rewrite Hxor. fold sid eid.
  cbn [ui withUi]. fold (withSelections (withUi graph u1) (toggleSelection (js "xor") sid eid
                                                          (activeSelections u1)).1).
  assert (forall selB u2,
            rebuildActivePathFromSelections (withSelections (withUi graph u1) selB)
            = withUi (withUi graph u1) u2 ->
            activeSelections u2 !! sid = None ->
            default [] (activeSelections
                          (ui (rebuildActivePathFromSelections
                                 (withSelections (withUi graph u1) selB))) !! sid) = [])
    as Hdone.
  { intros selB u2 -> Hnone. cbn [ui withUi]. by rewrite Hnone. }
  destruct Hu1 as [(Hroot & Hp1 & Hs1)|(root & rest & Hnodes & Hroot & Hwalk1 & Hs1)].
  - (* no root: the selections are empty after both toggles *)
    rewrite Hs1, toggle_xor_select by done.
    destruct (rebuild_withSelections (withUi graph u1) (<[sid := [eid]]> ∅))
      as (u2 & Heq & _ & [(_ & _ & Hs2)|(root & rest & Hnodes & Hne' & _)]).
    + apply (Hdone _ u2 Heq). by rewrite Hs2.
    + exfalso. unfold rootless in Hroot.
      change (nodes (withUi graph u1)) with (nodes graph) in Hnodes.
      rewrite Hnodes in Hroot. congruence.
  - pose proof (select_lookup graph _ sid eid u1 Hs1) as Hsid.
    destruct (has (activeNodeIds graph (activePath u1)) sid
              && has (activeEdgeIds graph (activePath u1)) eid) eqn:Hactive.
    + (* the edge was selected: the second toggle removes the entry *)
      rewrite toggle_xor_deselect by done.
      destruct (rebuild_withSelections (withUi graph u1) (delete sid (activeSelections u1)))
        as (u2 & Heq & _ & [(_ & _ & Hs2)|(root' & rest' & _ & _ & _ & Hs2)]).
      * apply (Hdone _ u2 Heq). by rewrite Hs2.
      * apply (Hdone _ u2 Heq). rewrite Hs2, pruneSelections_lookup.
        by rewrite lookup_delete_eq.
    + (* the selection was pruned: it is pruned again *)
      rewrite toggle_xor_select by by rewrite Hsid.
      set (selB := <[sid := [eid]]> (activeSelections u1)).
      destruct (rebuild_withSelections (withUi graph u1) selB)
        as (u2 & Heq & _ & [(_ & _ & Hs2)|(root' & rest' & Hnodes' & _ & Hwalk2 & Hs2)]).
      * apply (Hdone _ u2 Heq). by rewrite Hs2.
      * apply (Hdone _ u2 Heq).
        change (nodes (withUi graph u1)) with (nodes graph) in Hnodes'.
        rewrite Hnodes in Hnodes'. injection Hnodes' as <- <-.
        change (nodeMap (withUi graph u1)) with (nodeMap graph) in Hwalk2.
        change (edgeMap (withUi graph u1)) with (edgeMap graph) in Hwalk2.
        change (walkFuel (withUi graph u1)) with (walkFuel graph) in Hwalk2.
        change (activeNodeIds (withUi graph u1)) with (activeNodeIds graph) in Hs2.
        change (activeEdgeIds (withUi graph u1)) with (activeEdgeIds graph) in Hs2.
        rewrite (select_lookup graph _ sid eid u2 Hs2).
        destruct (has (activeNodeIds graph (activePath u2)) sid
                  && has (activeEdgeIds graph (activePath u2)) eid) eqn:Hactive2; [|done].
        exfalso. apply andb_true_iff in Hactive2 as [Hn2%has_true He2%has_true].
        apply elem_of_activeNodeIds in Hn2 as [Hn2 Hnid].
        apply elem_of_activeEdgeIds in He2 as (He2 & Hnot & Hedge).
        assert (forall x, x ∈ activePath u2 -> x ∈ activePath u1) as Hsub.
        { intros x. refine (walk_mono _ _ selA selB _ _ _ _ _ _ x Hwalk1 Hwalk2).
          intros m node s Hnode Hs. destruct (decide (m = sid)) as [->|Hm].
          - erewrite steps_ext; [exact Hs|]. unfold selA, selB.
            by rewrite !lookup_insert_eq.
          - apply (pruned_steps_sub (withSelections graph selA) _ _ Hwalk1 m node s Hnode).
            change (activeNodeIds (withSelections graph selA)) with (activeNodeIds graph).
            change (activeEdgeIds (withSelections graph selA)) with (activeEdgeIds graph).
            change (activeSelections (ui (withSelections graph selA))) with selA.
            change (nodeMap (withSelections graph selA)) with (nodeMap graph).
            change (edgeMap (withSelections graph selA)) with (edgeMap graph).
            rewrite <- Hs1. erewrite steps_ext; [exact Hs|]. unfold selB.
            by rewrite lookup_insert_ne. }
        apply andb_false_iff in Hactive as [Hf|Hf]; apply has_false in Hf; apply Hf.
        -- apply elem_of_activeNodeIds. auto.
        -- apply elem_of_activeEdgeIds. auto.
Qed.

(** A settled graph: no node id is an edge id, the edge ids are pairwise
    distinct, the selections are normalised and the path and selections
    are the ones the path derivation returns. A pass of
    [enforceGraphConsistency] leaves such a graph (see [enforce_settled]
    below). *)
Definition settled (graph : Graph) : Prop :=
  nodeIds graph ## edgeIds graph /\
  NoDup (map edge_id (edges graph)) /\
  normalizedGraph graph /\
  rebuildActivePathFromSelections graph = graph.

Lemma NoDup_map_eq {A B : Type} (f : A -> B) (l : list A) x y :
  NoDup (map f l) -> x ∈ l -> y ∈ l -> f x = f y -> x = y.
Proof.
  induction l as [|z l IH]; [by intros _ ?%elem_of_nil|].
  cbn [map]. intros [Hz Hnd]%NoDup_cons [->|Hx]%elem_of_cons [->|Hy]%elem_of_cons Heq.
  - done.
  - exfalso. apply Hz. rewrite Heq. by apply list_elem_of_fmap_2.
  - exfalso. apply Hz. rewrite <- Heq. by apply list_elem_of_fmap_2.
  - by apply IH.
Qed.

Lemma edgeMap_lookup_NoDup graph e :
  NoDup (map edge_id (edges graph)) -> e ∈ edges graph ->
  edgeMap graph !! edge_id e = Some e.
Proof.
  intros Hnd Hin. unfold edgeMap. apply jsMap_lookup_NoDup.
  - by rewrite <- list_fmap_compose.
  - by apply (list_elem_of_fmap_2 (fun e => (edge_id e, e))).
Qed.

(** In a settled graph the one edge selected at a node can be followed
    from it. *)
Lemma settled_selected_step graph sourceId e node selections :
  settled graph -> e ∈ edges graph ->
  activeSelections (ui graph) !! sourceId = Some [edge_id e] ->
  nodeMap graph !! sourceId = Some node ->
  selections !! sourceId = Some [edge_id e] ->
  exists target,
    (e, target) ∈ steps (nodeMap graph) (edgeMap graph) selections node sourceId.
Proof.
  intros (Hdisj & Hnd & Hnorm & _) He Hprior Hnode Hsel.
  destruct (Hnorm _ _ Hprior) as (_ & _ & _ & Hvalid & _).
  specialize (Hvalid (edge_id e)). unfold validEdgeIdsOf in Hvalid.
  rewrite elem_of_jsSet, outgoingOf_filter in Hvalid.
  assert (edge_id e ∈ [edge_id e]) as Hself by (by apply list_elem_of_singleton).
  apply Hvalid, list_elem_of_fmap in Hself as (e' & Hid & Hin).
  apply list_elem_of_filter in Hin as [Hres Hin].
  apply list_elem_of_filter in Hin as [Hfrom He'].
  assert (e' = e) as -> by (by apply (NoDup_map_eq edge_id (edges graph))).
  unfold resolves in Hres. destruct (edge_to e) as [target|] eqn:Hto; [|done].
  apply Is_true_true, andb_true_iff in Hres as [_ Htarget].
  exists target. unfold steps, selectedEdgeIds. rewrite Hsel. cbn [default].
  apply list_elem_of_omap. exists (edge_id e). split.
  - destruct (bool_decide _); apply list_elem_of_singleton; done.
  - unfold traversable. rewrite edgeMap_lookup_NoDup by done. rewrite Hto.
    by rewrite hasKey_nodeMap, Htarget, bool_decide_eq_true_2.
Qed.

(** Deselecting the one selected edge of a node of a settled graph and
    toggling it again selects it again. *)
Lemma xor_toggle_twice_selected graph sourceNode e :
  settled graph ->
  normalizeNodeType (JStr (node_type sourceNode)) = js "xor" ->
  nonEmpty (edge_id e) = true -> e ∈ edges graph ->
  activeSelections (ui graph) !! node_id sourceNode = Some [edge_id e] ->
  activeSelections (ui (toggledGraph (toggledGraph graph sourceNode e) sourceNode e))
    !! node_id sourceNode = Some [edge_id e].
Proof.
  intros Hsettled Hxor Hne He Hprior.
  pose proof Hsettled as (Hdisj & Hnd & Hnorm & Hfix).
  set (sid := node_id sourceNode) in *. set (eid := edge_id e) in *.
  destruct (Hnorm _ _ Hprior) as (node & Hnode & _).
  (* the graph has a root and the source node is on its path *)
  destruct (rebuild_cases graph)
    as [[_ Hui]|(root & rest & p0 & Hnodes & Hroot & Hwalk0 & Hui)].
  { rewrite Hfix in Hui. rewrite Hui in Hprior. cbn [activeSelections] in Hprior.
    by rewrite lookup_empty in Hprior. }
  rewrite Hfix in Hui.
  assert (sid ∈ p0) as Hp0.
  { rewrite Hui in Hprior. cbn [activeSelections] in Hprior.
    apply pruneSelections_Some in Hprior as (_ & _ & Hn & _).
    by apply elem_of_activeNodeIds in Hn as [? _]. }
  (* first toggle *)
  unfold toggledGraph at 2. rewrite Hxor. fold sid eid.
  rewrite toggle_xor_deselect by done.
  set (selA := delete sid (activeSelections (ui graph))).
  fold (withSelections graph selA).
  destruct (rebuild_withSelections graph selA)
    as (u1 & -> & _ & [(Hrootless & _)|(root1 & rest1 & Hnodes1 & _ & Hwalk1 & Hs1)]).
  { unfold rootless in Hrootless. rewrite Hnodes in Hrootless. congruence. }
  rewrite Hnodes in Hnodes1. injection Hnodes1 as <- <-.
  assert (activeSelections u1 !! sid = None) as Hsid1.
  { rewrite Hs1, pruneSelections_lookup. unfold selA. by rewrite lookup_delete_eq. }
  assert (sid ∈ activePath u1) as Hp1.
  { refine (walk_keeps_changed _ _ (activeSelections (ui graph)) selA sid _ _ _ _ _ _
              Hwalk0 Hwalk1 Hp0).
    intros m Hm. unfold selA. by rewrite lookup_delete_ne. }
  assert (normalizedGraph (withSelections graph selA)) as HnormA.
  { intros k l Hl. cbn [withSelections ui withUi activeSelections] in Hl.
    unfold selA in Hl. apply lookup_delete_Some in Hl as [_ Hl]. exact (Hnorm k l Hl). }
  pose proof (walk_pruned (withSelections graph selA) Hdisj HnormA root rest Hnodes Hroot
                (activePath u1) Hwalk1) as HwalkS1.
  change (activeNodeIds (withSelections graph selA)) with (activeNodeIds graph) in HwalkS1.
  change (activeEdgeIds (withSelections graph selA)) with (activeEdgeIds graph) in HwalkS1.
  change (activeSelections (ui (withSelections graph selA))) with selA in HwalkS1.
  change (nodeMap (withSelections graph selA)) with (nodeMap graph) in HwalkS1.
  change (edgeMap (withSelections graph selA)) with (edgeMap graph) in HwalkS1.
  change (walkFuel (withSelections graph selA)) with (walkFuel graph) in HwalkS1.
  rewrite <- Hs1 in HwalkS1.
  (* second toggle *)
  unfold toggledGraph. rewrite Hxor. fold sid eid. cbn [ui withUi].
  rewrite toggle_xor_select by by rewrite Hsid1.
  set (selB := <[sid := [eid]]> (activeSelections u1)).
  change (withUi (withUi graph u1) _) with (withSelections (withUi graph u1) selB).
  destruct (rebuild_withSelections (withUi graph u1) selB)
    as (u2 & -> & _ & [(Hrootless & _)|(root2 & rest2 & Hnodes2 & _ & Hwalk2 & Hs2)]).
  { unfold rootless in Hrootless.
    change (nodes (withUi graph u1)) with (nodes graph) in Hrootless.
    rewrite Hnodes in Hrootless. congruence. }
  change (nodes (withUi graph u1)) with (nodes graph) in Hnodes2.
  rewrite Hnodes in Hnodes2. injection Hnodes2 as <- <-.
  change (nodeMap (withUi graph u1)) with (nodeMap graph) in Hwalk2.
  change (edgeMap (withUi graph u1)) with (edgeMap graph) in Hwalk2.
  change (walkFuel (withUi graph u1)) with (walkFuel graph) in Hwalk2.
  change (activeNodeIds (withUi graph u1)) with (activeNodeIds graph) in Hs2.
  change (activeEdgeIds (withUi graph u1)) with (activeEdgeIds graph) in Hs2.
  cbn [ui withUi]. rewrite (select_lookup graph _ sid eid u2 Hs2).
  assert (sid ∈ activePath u2) as Hp2.
  { refine (walk_keeps_changed _ _ (activeSelections u1) selB sid _ _ _ _ _ _
              HwalkS1 Hwalk2 Hp1).
    intros m Hm. unfold selB. by rewrite lookup_insert_ne. }
  assert (eid ∈ activePath u2) as He2.
  { destruct (settled_selected_step graph sid e node selB Hsettled He Hprior Hnode)
      as [target Hstep]; [unfold selB; by rewrite lookup_insert_eq|].
    refine (walk_steps_in _ _ _ _ (edgeMap_disjoint graph Hdisj) _ _ _ sid node e target
              Hwalk2 Hp2 _ Hnode Hstep).
    set_solver. }
  rewrite (proj2 (has_true _ sid)), (proj2 (has_true _ eid)); [done| |].
  - apply elem_of_activeEdgeIds. split; [done|].
    assert (eid ∈ edgeIds graph) as Hedge by (apply elem_of_edgeIds; eauto).
    split; [|done]. intros Hn. by apply (Hdisj eid).
  - apply elem_of_activeNodeIds. split; [done|]. apply nodeMap_is_Some. eauto.
Qed.

Lemma sanitized_edge_ids_NoDup nodeIdSet (es : list Edge) :
  NoDup (map edge_id es) -> NoDup (map edge_id (omap (sanitizeEdge nodeIdSet) es)).
Proof.
  induction es as [|e es IH]; [done|].
  cbn [map]. intros [He Hnd]%NoDup_cons. cbn [omap list_omap].
  destruct (sanitizeEdge nodeIdSet e) as [e'|] eqn:Hsan; [|by apply IH].
  cbn [map]. apply NoDup_cons. split; [|by apply IH].
  intros (e2 & Hid & Hin)%list_elem_of_fmap. apply He.
  apply list_elem_of_omap in Hin as (e0 & Hin & (Hid0 & _)%sanitizeEdge_Some).
  apply sanitizeEdge_Some in Hsan as (Hid' & _).
  apply list_elem_of_fmap. exists e0. split; [congruence|done].
Qed.

(** What [enforceGraphConsistency] returns is settled, when it is given a
    graph with pairwise distinct edge ids none of which is a node id. *)
Lemma enforce_settled state graph :
  nodeIds graph ## edgeIds graph -> NoDup (map edge_id (edges graph)) ->
  settled (enforceGraphConsistency state graph).2.
Proof.
  intros Hdisj Hnd.
  destruct (enforce_shape state graph Hdisj) as (u & -> & _ & _ & Hrebuild & Hnorm).
  split; [exact (prepared_disjoint graph Hdisj)|].
  split; [exact (sanitized_edge_ids_NoDup _ _ Hnd)|].
  split; [done|].
  rewrite (rebuild_eq _ _ Hrebuild). by destruct (prepared graph).
Qed.

(** The selection of a node as [applyTypedEdgeSelection] reads it:
    [getActiveSelections(graph)[nodeId]] when that is an array, and the
    empty array otherwise. *)
Definition selectionAt (currentGraph : option Graph) (nodeId : jsstring) : list jsstring :=
  match currentGraph with
  | Some graph => default [] (activeSelections (ui graph) !! nodeId)
  | None => []
  end.

(** Two calls of [applyTypedEdgeSelection] in a row on the same edge: the
    second call runs in the state and on the graph the first one left. *)
Definition toggleTwice (state : AppState) (currentGraph : option Graph) (edgeId : jsstring)
  : option SelectionResult * AppState * option Graph :=
  let '(_, state, currentGraph) := applyTypedEdgeSelection state currentGraph edgeId in
  applyTypedEdgeSelection state currentGraph edgeId.

Lemma toggleTwice_graph state graph edgeId e sourceNode :
  findEdge (Some graph) edgeId = Some e -> edgeHasTarget e = true ->
  findNode (Some graph) (edge_from e) = Some sourceNode ->
  (toggleTwice state (Some graph) edgeId).2
  = Some (toggledGraph (toggledGraph graph sourceNode e) sourceNode e).
Proof.
  intros He Htarget Hsource. unfold toggleTwice.
  pose proof (apply_graph state graph edgeId e sourceNode He Htarget Hsource) as Hfirst.
  destruct (applyTypedEdgeSelection state (Some graph) edgeId) as [[result state1] graph1].
  cbn [snd] in Hfirst. subst graph1.
  apply apply_graph; [|done|].
  - by rewrite (proj1 (toggledGraph_find graph sourceNode e edgeId (edge_from e))).
  - by rewrite (proj2 (toggledGraph_find graph sourceNode e edgeId (edge_from e))).
Qed.

(** C3, as the code has it. For an edge with a non-empty id and a target
    whose source node is XOR, toggling the edge twice in a row restores
    the selection of the source node when that selection was empty, and
    when it was exactly this edge in a settled graph. (A selection of
    another edge of the node is replaced by the first toggle and cleared by
    the second.) *)
Theorem xor_toggle_twice state graph edgeId e sourceNode :
  findEdge (Some graph) edgeId = Some e ->
  edgeHasTarget e = true ->
  findNode (Some graph) (edge_from e) = Some sourceNode ->
  normalizeNodeType (JStr (node_type sourceNode)) = js "xor" ->
  nonEmpty edgeId = true ->
  selectionAt (Some graph) (node_id sourceNode) = [] \/
  (selectionAt (Some graph) (node_id sourceNode) = [edgeId] /\ settled graph) ->
  selectionAt (toggleTwice state (Some graph) edgeId).2 (node_id sourceNode)
  = selectionAt (Some graph) (node_id sourceNode).
Proof.
  intros He Htarget Hsource Hxor Hne Hprior.
  rewrite (toggleTwice_graph state graph edgeId e sourceNode He Htarget Hsource).
  apply findEdge_Some in He as [He <-]. cbn [selectionAt] in *.
  destruct Hprior as [Hprior|[Hprior Hsettled]].
  - rewrite Hprior. by apply xor_toggle_twice_empty.
  - rewrite Hprior.
    assert (activeSelections (ui graph) !! node_id sourceNode = Some [edge_id e]) as Hsel.
    { destruct (activeSelections (ui graph) !! node_id sourceNode);
        [exact (f_equal Some Hprior)|discriminate]. }
    by rewrite (xor_toggle_twice_selected graph sourceNode e Hsettled Hxor Hne He Hsel).
Qed.

(** The scenario graph with a XOR root, as [enforceGraphConsistency]
    leaves it when the given edge of the root is selected. *)
Definition selectedScenario (edgeId : string) : Graph :=
  (enforceGraphConsistency idleState (scenarioGraph "xor" {[ js "s" := [js edgeId] ]})).2.

Lemma xor_toggle_twice_witness :
  selectionAt (Some (selectedScenario "e1")) (js "s") = [js "e1"] /\
  selectionAt (toggleTwice idleState (Some (selectedScenario "e1")) (js "e1")).2 (js "s")
  = selectionAt (Some (selectedScenario "e1")) (js "s").
Proof.
  split; [vm_compute; reflexivity|].
  refine (xor_toggle_twice idleState (selectedScenario "e1") (js "e1") scenarioEdge1
            (scenarioNode "s" "xor"
               [mkButton (js "b1") (js "Left") (Some (js "a"));
                mkButton (js "b2") (js "Right") (Some (js "b"))]) _ _ _ _ _ _);
    try solve [vm_compute; reflexivity].
  right. split; [vm_compute; reflexivity|].
  apply enforce_settled; by_compute.
Defined.

(** C3 as stated fails when another edge of the XOR node is selected: with
    [e2] selected at the root, toggling [e1] twice selects [e1] and then
    clears the selection of the root, so [e2] is not restored. *)
Lemma xor_toggle_twice_drops_other_selection :
  findEdge (Some (selectedScenario "e2")) (js "e1") = Some scenarioEdge1 /\
  edgeHasTarget scenarioEdge1 = true /\
  hasKey (nodeMap (selectedScenario "e2")) (default [] (edge_to scenarioEdge1)) = true /\
  (exists sourceNode,
     findNode (Some (selectedScenario "e2")) (edge_from scenarioEdge1) = Some sourceNode /\
     node_id sourceNode = js "s" /\
     normalizeNodeType (JStr (node_type sourceNode)) = js "xor") /\
  selectionAt (Some (selectedScenario "e2")) (js "s") = [js "e2"] /\
  selectionAt (applyTypedEdgeSelection idleState (Some (selectedScenario "e2")) (js "e1")).2
              (js "s") = [js "e1"] /\
  selectionAt (toggleTwice idleState (Some (selectedScenario "e2")) (js "e1")).2 (js "s")
  = [] /\
  selectionAt (toggleTwice idleState (Some (selectedScenario "e2")) (js "e1")).2 (js "s")
  <> selectionAt (Some (selectedScenario "e2")) (js "s").
Proof.
  repeat split; try solve [vm_compute; reflexivity | vm_compute; discriminate].
  eexists. repeat split; vm_compute; reflexivity.
Qed.

(** ** Import: when [normalizeGraph] throws *)

Section ForEach.
Local Open Scope nat_scope.
Context {St A : Type}.
Variable body : St -> A -> nat -> option St.
Variable inv : nat -> St -> Prop.
Variable good : A -> Prop.
Variable bound : nat.

Hypothesis body_Some :
  forall st item index,
    good item -> index < bound -> inv index st ->
    exists st', body st item index = Some st' /\ inv (S index) st'.


End ForEach.

Section FreshIds.
Local Open Scope nat_scope.
Variable random : nat -> jsstring.
Hypothesis random_inj : Inj (=) (=) random.


Lemma freshen_S fuel prefix taken id n :
  freshen random (S fuel) prefix taken id n
  = if has taken id then freshen random fuel prefix taken (uid random prefix n) (S n)
    else Some (id, n).
Proof. done. Qed.









End FreshIds.


Section FuelMono.
Local Open Scope nat_scope.
Variable random : nat -> jsstring.
Variable clock : nat -> jsstring.
Variables fuel fuel' : nat.
Hypothesis fuel_le : fuel <= fuel'.






End FuelMono.

(** Fuel that is enough for the loops of [normalizeGraph] on an input:
    two more than the longest of its arrays of nodes, of edges and of
    buttons of a node. *)
Definition normalizeFuel (input : jsval) : nat :=
  (2 + length (itemsOf (getProp input (js "nodes")))
     + length (itemsOf (getProp input (js "edges")))
     + max_list (map (fun rawNode => length (itemsOf (getProp rawNode (js "buttons"))))
                     (itemsOf (getProp input (js "nodes")))))%nat.





(** A random source that never repeats: the [n]-th draw is [n + 1]
    letters [a]. *)
Definition countingRandom (n : nat) : jsstring := replicate (S n) 97.

Definition fixedClock (n : nat) : jsstring := js "2024-01-01T00:00:00.000Z".


(** A document with two nodes of the same id, two buttons of the same id
    and two edges of the same id. *)
Definition twinDocument : jsval :=
  JObj [ (js "id", JStr (js "g"));
         (js "version", JNum (NumFin 1));
         (js "nodes",
          JArr [ JObj [ (js "id", JStr (js "a"));
                        (js "buttons",
                         JArr [ JObj [(js "id", JStr (js "b"))];
                                JObj [(js "id", JStr (js "b"))] ]) ];
                 JObj [ (js "id", JStr (js " a ")) ] ]);
         (js "edges",
          JArr [ JObj [ (js "id", JStr (js "e")); (js "from", JStr (js "a"));
                        (js "to", JStr (js "n_aa")); (js "buttonId", JStr (js "b")) ];
                 JObj [ (js "id", JStr (js "e")); (js "from", JStr (js "a"));
                        (js "buttonId", JStr (js "b_a")) ] ]) ].


(** The ids [normalizeGraph] gives the nodes, buttons and edges of
    [twinDocument]: the second of two equal ids is drawn anew. *)
Lemma twinDocument_ids :
  match normalizeGraph countingRandom fixedClock (normalizeFuel twinDocument) idleState
                       twinDocument (js "graph") with
  | Returned (_, graph) =>
      map node_id (nodes graph) = [js "a"; js "n_aa"] /\
      map edge_id (edges graph) = [js "e"; js "e_aaa"] /\
      map (fun node => map button_id (node_buttons node)) (nodes graph)
      = [[js "b"; js "b_a"]; []]
  | _ => False
  end.
Proof. vm_compute. done. Qed.

(** The four failures, and a version that is not a number. *)
Lemma normalizeGraph_failures :
  normalizeGraph countingRandom fixedClock 0 idleState JNull (js "graph")
  = Thrown (js "graph: root must be an object.") /\
  normalizeGraph countingRandom fixedClock 0 idleState
                 (JObj [(js "version", JNum (NumFin 2));
                        (js "nodes", JArr []); (js "edges", JArr [])]) (js "graph")
  = Thrown (js "graph: unsupported graph version 2.") /\
  normalizeGraph countingRandom fixedClock 0 idleState (JArr []) (js "graph")
  = Thrown (js "graph: nodes must be an array.") /\
  normalizeGraph countingRandom fixedClock 0 idleState
                 (JObj [(js "nodes", JArr [])]) (js "graph")
  = Thrown (js "graph: edges must be an array.") /\
  (exists result,
     normalizeGraph countingRandom fixedClock 2 idleState
                    (JObj [(js "version", JStr (js "2"));
                           (js "nodes", JArr []); (js "edges", JArr [])]) (js "graph")
     = Returned result).
Proof. repeat split; try (vm_compute; reflexivity). eexists. vm_compute. reflexivity. Qed.

(** * Further properties of the code

    ** The active path on every graph *)

(** X1. The walk of [rebuildActivePathFromSelections] ends on every
    graph, whatever the selections and cycles: from any start node it
    returns a path, the same one for every recursion depth from
    [walkFuel graph] (one more than the number of nodes) on. *)
Theorem walk_returns_on_every_graph graph selections nodeId :
  exists path,
    forall fuel, (walkFuel graph <= fuel)%nat ->
                 walk (nodeMap graph) (edgeMap graph) selections fuel nodeId ∅ []
                 = Some path.
Proof.
  destruct (walk_terminates graph selections nodeId) as [path Hpath].
  exists path. intros fuel Hfuel.
  exact (walk_fuel_mono _ _ _ _ _ _ _ _ Hfuel Hpath).
Qed.

Lemma walk_head nodeById edgeById selections fuel nodeId stack p node :
  nodeById !! nodeId = Some node ->
  walk nodeById edgeById selections fuel nodeId stack [] = Some p ->
  exists tail, p = nodeId :: tail.
Proof.
  intros Hnode. destruct fuel as [|fuel]; [done|].
  rewrite walk_unfold, Hnode. destruct (has stack nodeId); [intros [= <-]; eauto|].
  destruct (stepsOut _ _) as [q|]; [|done]. intros [= <-]. eauto.
Qed.

(** X2. The derived path starts at the root: for a graph whose first
    node has a non-empty id the path is that id followed by the rest of
    the walk; for a graph without nodes, or whose first node has an empty
    id, the path and the selections are both emptied. *)
Theorem rebuild_path_root graph :
  match nodes graph with
  | root :: _ =>
      if nonEmpty (node_id root)
      then exists tail,
             activePath (ui (rebuildActivePathFromSelections graph))
             = node_id root :: tail
      else activePath (ui (rebuildActivePathFromSelections graph)) = [] /\
           activeSelections (ui (rebuildActivePathFromSelections graph)) = ∅
  | [] =>
      activePath (ui (rebuildActivePathFromSelections graph)) = [] /\
      activeSelections (ui (rebuildActivePathFromSelections graph)) = ∅
  end.
Proof.
  destruct (nodes graph) as [|root rest] eqn:Hnodes.
  - rewrite rebuild_ui_empty by by rewrite Hnodes. done.
  - destruct (nonEmpty (node_id root)) eqn:Hroot.
    + destruct (walk_terminates graph (activeSelections (ui graph)) (node_id root))
        as [p Hp].
      rewrite (rebuild_ui graph root rest p Hnodes Hroot Hp). cbn [activePath].
      assert (is_Some (nodeMap graph !! node_id root)) as [node Hnode].
      { apply nodeMap_is_Some, elem_of_nodeIds. exists root.
        rewrite Hnodes. split; [apply elem_of_cons; by left|done]. }
      exact (walk_head _ _ _ _ _ _ _ _ Hnode Hp).
    + rewrite rebuild_ui_empty by by rewrite Hnodes. done.
Qed.

(** X3. Every entry of the derived path is an id of the graph: the id of
    a node, or the id of an edge that is selected at its source node,
    whose source node is on the path and whose target is a node of the
    graph. *)
Theorem rebuild_path_entries graph x :
  x ∈ activePath (ui (rebuildActivePathFromSelections graph)) ->
  x ∈ nodeIds graph \/
  exists e target,
    e ∈ edges graph /\ edge_id e = x /\
    edge_to e = Some target /\ target ∈ nodeIds graph /\
    edge_from e ∈ activePath (ui (rebuildActivePathFromSelections graph)) /\
    x ∈ default [] (activeSelections (ui graph) !! edge_from e).
Proof.
  destruct (rebuild_cases graph)
    as [[_ ->]|(root & rest & p & Hnodes & Hroot & Hwalk & ->)]; cbn [activePath].
  - by intros ?%elem_of_nil.
  - intros Hx.
    destruct (walk_entry _ _ _ _ _ _ _ _ Hwalk Hx)
      as [Hnode|(m & node & e & target & Hm & Hnode & Hstep & Hid)].
    + left. by apply nodeMap_is_Some.
    + right. exists e, target.
      apply list_elem_of_omap in Hstep as (k & Hk & Hstep).
      pose proof (traversable_from graph m k e target Hstep) as (Hfrom & Hto & Htarget).
      unfold traversable in Hstep.
      destruct (edgeMap graph !! k) as [e0|] eqn:He0; [|done].
      apply edgeMap_lookup_Some in He0 as [Hin Hk0].
      destruct (edge_to e0); [|done]. destruct (_ && _); [|done].
      injection Hstep as -> _.
      repeat split; try done.
      * by rewrite Hfrom.
      * rewrite Hfrom, <- Hid, Hk0. by apply (selectedEdgeIds_sub _ node).
Qed.

Lemma rebuild_path_entries_witness :
  js "e2" ∈ activePath (ui (rebuildActivePathFromSelections cycleGraph)) /\
  (js "e2" ∈ nodeIds cycleGraph \/
   exists e target,
     e ∈ edges cycleGraph /\ edge_id e = js "e2" /\
     edge_to e = Some target /\ target ∈ nodeIds cycleGraph /\
     edge_from e ∈ activePath (ui (rebuildActivePathFromSelections cycleGraph)) /\
     js "e2" ∈ default [] (activeSelections (ui cycleGraph) !! edge_from e)).
Proof.
  assert (js "e2" ∈ activePath (ui (rebuildActivePathFromSelections cycleGraph)))
    as Hin by by_compute.
  split; [exact Hin|]. exact (rebuild_path_entries cycleGraph (js "e2") Hin).
Defined.

Lemma pushUnique_sublist keep l : sublist (pushUnique keep l) l.
Proof.
  induction l as [|y l IH] using rev_ind; [done|].
  rewrite pushUnique_snoc.
  destruct (keep y && negb (includes (pushUnique keep l) y)).
  - by apply sublist_app.
  - by apply sublist_inserts_r.
Qed.

(** X4. The selections [rebuildActivePathFromSelections] keeps are the
    ones that lie on the path: a kept entry belongs to a node on the path,
    is not empty, has no repetition, and lists, in their earlier order,
    edge ids of the earlier entry that are on the path, are edge ids of
    the graph and are not node ids. *)
Theorem rebuild_selections_on_path graph nodeId kept :
  activeSelections (ui (rebuildActivePathFromSelections graph)) !! nodeId = Some kept ->
  kept <> [] /\ NoDup kept /\
  nodeId ∈ nodeIds graph /\
  nodeId ∈ activePath (ui (rebuildActivePathFromSelections graph)) /\
  exists earlier,
    activeSelections (ui graph) !! nodeId = Some earlier /\
    sublist kept earlier /\
    forall x, x ∈ kept <->
              x ∈ earlier /\ x ∈ activePath (ui (rebuildActivePathFromSelections graph)) /\
              x ∈ edgeIds graph /\ x ∉ nodeIds graph.
Proof.
  destruct (rebuild_cases graph)
    as [[_ ->]|(root & rest & p & Hnodes & Hroot & Hwalk & ->)];
    cbn [activePath activeSelections].
  - by rewrite lookup_empty.
  - intros (earlier & Hearlier & Hnode & -> & Hne)%pruneSelections_Some.
    apply elem_of_activeNodeIds in Hnode as [Hpath Hnode].
    split; [done|]. split; [apply NoDup_pushUnique|]. split; [done|]. split; [done|].
    exists earlier. split; [done|]. split.
    + apply pushUnique_sublist.
    + intros x. rewrite elem_of_pushUnique, has_true, elem_of_activeEdgeIds. tauto.
Qed.

Lemma rebuild_selections_on_path_witness :
  activeSelections (ui (rebuildActivePathFromSelections cycleGraph)) !! js "a"
  = Some [js "e1"] /\
  js "a" ∈ activePath (ui (rebuildActivePathFromSelections cycleGraph)) /\
  NoDup [js "e1"].
Proof.
  assert (activeSelections (ui (rebuildActivePathFromSelections cycleGraph)) !! js "a"
          = Some [js "e1"]) as Hkept by (vm_compute; reflexivity).
  destruct (rebuild_selections_on_path cycleGraph (js "a") [js "e1"] Hkept)
    as (_ & Hnd & _ & Hpath & _).
  exact (conj Hkept (conj Hpath Hnd)).
Defined.

(** ** What a pass of the enforcer leaves *)

Lemma finiteOrNull_cases x :
  finiteOrNull x = None \/ exists z, finiteOrNull x = Some (NumFin z).
Proof. destruct x as [[z| | |]|]; cbn; eauto. Qed.

(** X5. After a pass of [enforceGraphConsistency] every edge is one of
    the edges given (same id, source and button id), starts at a node of
    the graph, and either leads to a node of the graph, with no pending
    position left, or has no target and a pending position whose
    coordinates are finite numbers or [null]. *)
Theorem enforce_edge_ends state graph e :
  e ∈ edges (enforceGraphConsistency state graph).2 ->
  (exists e0, e0 ∈ edges graph /\ edge_id e0 = edge_id e /\
              edge_from e0 = edge_from e /\ edge_buttonId e0 = edge_buttonId e) /\
  edge_from e ∈ nodeIds (enforceGraphConsistency state graph).2 /\
  match edge_to e with
  | Some target =>
      target ∈ nodeIds (enforceGraphConsistency state graph).2 /\
      nonEmpty target = true /\ edge_pendingX e = None /\ edge_pendingY e = None
  | None =>
      (edge_pendingX e = None \/ exists z, edge_pendingX e = Some (NumFin z)) /\
      (edge_pendingY e = None \/ exists z, edge_pendingY e = Some (NumFin z))
  end.
Proof.
  rewrite enforce_edges, nodeIds_enforce. cbn [sanitized edges withEdges].
  intros (e0 & He0 & Hsan)%list_elem_of_omap.
  pose proof (sanitizeEdge_Some _ _ _ Hsan) as (Hid & Hfrom & Hbutton & Hsource & Hto).
  split; [by exists e0|]. split; [by rewrite Hfrom|].
  unfold sanitizeEdge in Hsan.
  destruct (negb (has (nodeIds graph) (edge_from e0))); [done|].
  assert (forall e',
            Some (mkEdge (edge_id e0) (edge_from e0) None (edge_buttonId e0)
                         (finiteOrNull (edge_pendingX e0))
                         (finiteOrNull (edge_pendingY e0))) = Some e' ->
            match edge_to e' with
            | Some target =>
                target ∈ nodeIds graph /\ nonEmpty target = true /\
                edge_pendingX e' = None /\ edge_pendingY e' = None
            | None =>
                (edge_pendingX e' = None \/ exists z, edge_pendingX e' = Some (NumFin z)) /\
                (edge_pendingY e' = None \/ exists z, edge_pendingY e' = Some (NumFin z))
            end) as Hdangling.
  { intros e' [= <-]. cbn [edge_to edge_pendingX edge_pendingY].
    split; apply finiteOrNull_cases. }
  destruct (edge_to e0) as [target|]; [|by apply Hdangling].
  destruct (nonEmpty (trim target)) eqn:Hne; [|by apply Hdangling].
  destruct (has (nodeIds graph) (trim target)) eqn:Htarget; [|done].
  injection Hsan as <-. cbn [edge_to edge_pendingX edge_pendingY].
  by apply has_true in Htarget.
Qed.

Lemma enforce_edge_ends_witness :
  edge_from scenarioEdge1
  ∈ nodeIds (enforceGraphConsistency idleState (scenarioGraph "xor" ∅)).2.
Proof.
  refine (proj1 (proj2 (enforce_edge_ends idleState (scenarioGraph "xor" ∅)
                                          scenarioEdge1 _))).
  by_compute.
Defined.

(** X6. After a pass of [enforceGraphConsistency] every node has the
    type [or] or [xor], and its colour is [null] or a [#] followed by six
    lower-case hexadecimal digits, a colour [normalizeHexColor] returns
    as it is. *)
Theorem enforce_node_type_colour state graph N :
  N ∈ nodes (enforceGraphConsistency state graph).2 ->
  (node_type N = js "or" \/ node_type N = js "xor") /\
  match node_color N with
  | Some colour => sixHex colour /\ normalizeHexColor (JStr colour) = Some colour
  | None => True
  end.
Proof.
  rewrite enforce_nodes. unfold mirrored. cbn [nodes withNodes].
  intros (node & -> & _)%list_elem_of_fmap.
  rewrite mirrorNode_type, mirrorNode_color. split; [apply normalizeNodeType_cases|].
  destruct (normalizeHexColor (ofNullable (node_color node))) as [colour|] eqn:Hcolour;
    [|done].
  apply normalizeHexColor_Some in Hcolour. split; [done|].
  by apply normalizeHexColor_sixHex.
Qed.

Lemma enforce_node_type_colour_witness :
  node_type (scenarioNode "a" "xor" []) = js "or" \/
  node_type (scenarioNode "a" "xor" []) = js "xor".
Proof.
  refine (proj1 (enforce_node_type_colour idleState (scenarioGraph "or" ∅)
                                          (scenarioNode "a" "xor" []) _)).
  by_compute.
Defined.

(** X7. After a pass of [enforceGraphConsistency] the selections and the
    path agree: an entry of [ui.activeSelections] belongs to a node that is
    on the active path, is not empty, has no repetition, and each of its
    edge ids is on the active path and names an edge of the graph that
    leaves this node and leads to a node of the graph. *)
Theorem enforce_selections_valid state graph k l :
  activeSelections (ui (enforceGraphConsistency state graph).2) !! k = Some l ->
  l <> [] /\ NoDup l /\
  k ∈ nodeIds (enforceGraphConsistency state graph).2 /\
  k ∈ activePath (ui (enforceGraphConsistency state graph).2) /\
  forall x, x ∈ l ->
    x ∈ activePath (ui (enforceGraphConsistency state graph).2) /\
    exists e target,
      e ∈ edges (enforceGraphConsistency state graph).2 /\
      edge_id e = x /\ edge_from e = k /\ edge_to e = Some target /\
      target ∈ nodeIds (enforceGraphConsistency state graph).2.
Proof.
  intros Hl.
  pose proof (enforce_selection_entry state graph k l Hl)
    as (node & entry & Hnode & -> & Hsub & _ & Hnd).
  rewrite nodeIds_enforce, enforce_edges.
  rewrite enforce_graph in Hl |- *.
  destruct (rebuild_cases (prepared graph))
    as [[_ Hui]|(root & rest & p & Hnodes & Hroot & Hwalk & Hui)];
    rewrite Hui in Hl |- *; cbn [activePath activeSelections] in Hl |- *.
  { by rewrite lookup_empty in Hl. }
  apply pruneSelections_Some in Hl as (entry & _ & Hk & -> & Hne).
  apply elem_of_activeNodeIds in Hk as [Hk Hkn].
  change (nodeIds (prepared graph)) with (nodeIds (mirrored graph)) in Hkn.
  rewrite nodeIds_mirrored in Hkn.
  split; [done|]. split; [done|]. split; [done|]. split; [done|].
  intros x Hx. split.
  - apply elem_of_pushUnique in Hx as [_ Hx%has_true].
    by apply elem_of_activeEdgeIds in Hx as [? _].
  - apply Hsub, cutXor_sub, uniqueOf_valid in Hx.
    unfold validEdgeIdsOf in Hx. rewrite elem_of_jsSet, outgoingOf_filter in Hx.
    apply list_elem_of_fmap in Hx as (e & -> & Hin).
    apply list_elem_of_filter in Hin as [Hres Hin].
    apply list_elem_of_filter in Hin as [Hfrom He].
    unfold resolves in Hres. destruct (edge_to e) as [target|] eqn:Hto; [|done].
    apply Is_true_true, andb_true_iff in Hres as [_ Htarget%has_true].
    rewrite nodeIds_mirrored in Htarget. exists e, target. done.
Qed.

Lemma enforce_selections_valid_witness :
  js "s" ∈ activePath (ui (enforceGraphConsistency idleState
                             (scenarioGraph "or" {[ js "s" := [js "e2"; js "e1"] ]})).2).
Proof.
  refine (proj1 (proj2 (proj2 (proj2
            (enforce_selections_valid idleState
               (scenarioGraph "or" {[ js "s" := [js "e2"; js "e1"] ]})
               (js "s") [js "e2"; js "e1"] _))))).
  vm_compute; reflexivity.
Defined.

(** The session state a pass leaves, from the ids of the nodes and of
    the edges the pass keeps. *)
Definition cleanedState (nodeIdSet edgeIdSet : gset jsstring) (state : AppState)
  : AppState :=
  let state :=
    if truthyId (selectedEdgeId state)
       && negb (has edgeIdSet (default [] (selectedEdgeId state)))
    then mkAppState None None (pendingChoice state)
                    (lastChosenEdgeId state) (lastChosenNodeId state)
    else state in
  match pendingChoice state with
  | Some pending =>
      if negb (has nodeIdSet (sourceNodeId pending))
      then mkAppState (selectedEdgeId state) (selectedEdgeSelectionSource state)
                      None (lastChosenEdgeId state) (lastChosenNodeId state)
      else state
  | None => state
  end.

Lemma enforce_state state graph :
  (enforceGraphConsistency state graph).1
  = cleanedState (nodeIds (enforceGraphConsistency state graph).2)
                 (edgeIds (enforceGraphConsistency state graph).2) state.
Proof.
  rewrite nodeIds_enforce, <- (nodeIds_mirrored graph).
  assert (edgeIds (enforceGraphConsistency state graph).2 = edgeIds (mirrored graph)) as ->.
  { unfold edgeIds. by rewrite enforce_edges. }
  reflexivity.
Qed.

(** X8. After a pass of [enforceGraphConsistency] the session state holds
    no stale reference: a non-empty [selectedEdgeId] names an edge of the
    graph, a pending choice starts at a node of the graph, a cleared edge
    selection has its source cleared with it, and the last chosen edge and
    node are left as they were. *)
Theorem enforce_state_cleanup state graph :
  let state' := (enforceGraphConsistency state graph).1 in
  let graph' := (enforceGraphConsistency state graph).2 in
  (forall s, selectedEdgeId state' = Some s -> nonEmpty s = true -> s ∈ edgeIds graph') /\
  (selectedEdgeId state' = selectedEdgeId state /\
   selectedEdgeSelectionSource state' = selectedEdgeSelectionSource state \/
   selectedEdgeId state' = None /\ selectedEdgeSelectionSource state' = None) /\
  (forall pending, pendingChoice state' = Some pending ->
                   pendingChoice state = Some pending /\
                   sourceNodeId pending ∈ nodeIds graph') /\
  lastChosenEdgeId state' = lastChosenEdgeId state /\
  lastChosenNodeId state' = lastChosenNodeId state.
Proof.
  cbv zeta. rewrite enforce_state.
  set (nodeIdSet := nodeIds _). set (edgeIdSet := edgeIds _).
  destruct state as [selected source pending lastEdge lastNode].
  unfold cleanedState.
  cbn [selectedEdgeId selectedEdgeSelectionSource pendingChoice
       lastChosenEdgeId lastChosenNodeId].
  assert (truthyId selected && negb (has edgeIdSet (default [] selected)) = false ->
          forall s, selected = Some s -> nonEmpty s = true -> s ∈ edgeIdSet) as Hfresh.
  { intros Hstale s -> Hs. cbn [truthyId default] in Hstale. rewrite Hs in Hstale.
    apply negb_false_iff in Hstale. by apply has_true in Hstale. }
  assert (forall p, negb (has nodeIdSet (sourceNodeId p)) = false ->
                    sourceNodeId p ∈ nodeIdSet) as Hsource.
  { intros p Hp. apply negb_false_iff in Hp. by apply has_true in Hp. }
  destruct (truthyId selected && negb (has edgeIdSet (default [] selected))) eqn:Hstale;
    cbn [pendingChoice];
    (destruct pending as [pending|];
     [destruct (negb (has nodeIdSet (sourceNodeId pending))) eqn:Hpending|]);
    cbn [selectedEdgeId selectedEdgeSelectionSource pendingChoice
         lastChosenEdgeId lastChosenNodeId];
    (split; [first [done | by apply Hfresh]|]);
    (split; [first [by left | by right]|]);
    (split; [|done]);
    first [done | intros p [= <-]; split; [done|by apply Hsource]].
Qed.

(** ** What an import returns *)

(** What every round of a [forEach] keeps holds at its end. *)
Lemma forEach_invariant {St A : Type} (body : St -> A -> nat -> option St)
      (inv : St -> Prop) :
  (forall st item index st', inv st -> body st item index = Some st' -> inv st') ->
  forall items index st st',
    inv st -> forEach body index st items = Some st' -> inv st'.
Proof.
  intros Hbody. induction items as [|item items IH]; intros index st st' Hinv.
  - by intros [= <-].
  - cbn [forEach]. destruct (body st item index) as [st1|] eqn:Hstep; [|done].
    apply IH. exact (Hbody _ _ _ _ Hinv Hstep).
Qed.

(** The id the drawing loop ends with is free; it is the id given or a
    drawn one. *)
Lemma freshen_fresh random fuel prefix taken id n id' n' :
  freshen random fuel prefix taken id n = Some (id', n') ->
  (id' ∉ taken) /\ (id' = id \/ exists m, id' = uid random prefix m).
Proof.
  revert id n. induction fuel as [|fuel IH]; intros id n; [done|].
  rewrite freshen_S. destruct (has taken id) eqn:Htaken.
  - intros Hrest. destruct (IH _ _ Hrest) as [Hfree [->|Hdrawn]]; eauto.
  - intros [= <- <-]. apply has_false in Htaken. auto.
Qed.

Lemma uid_nonEmpty random prefix n :
  nonEmpty prefix = true -> nonEmpty (uid random prefix n) = true.
Proof. unfold uid. by destruct prefix. Qed.

Lemma trimmedString_nonEmpty value s : trimmedString value = Some s -> nonEmpty s = true.
Proof.
  unfold trimmedString. destruct value; try done.
  destruct (nonEmpty (trim _)) eqn:Hne; [|done]. by intros [= <-].
Qed.

Lemma idOrUid_nonEmpty random prefix raw n id n' :
  nonEmpty prefix = true -> idOrUid random prefix raw n = (id, n') -> nonEmpty id = true.
Proof.
  intros Hprefix. unfold idOrUid.
  destruct (trimmedString raw) as [s|] eqn:Hs; intros [= <- <-].
  - by apply trimmedString_nonEmpty in Hs.
  - by apply uid_nonEmpty.
Qed.

Lemma freshen_nonEmpty random fuel prefix taken id n id' n' :
  nonEmpty prefix = true -> nonEmpty id = true ->
  freshen random fuel prefix taken id n = Some (id', n') -> nonEmpty id' = true.
Proof.
  intros Hprefix Hid [_ [->|[m ->]]]%freshen_fresh; [done|]. by apply uid_nonEmpty.
Qed.

(** The ids collected by a loop of [normalizeGraph]: the set of ids in
    use holds the ids of the items pushed so far, which are pairwise
    distinct. *)
Definition idsCollected {T : Type} (key : T -> jsstring)
           (st : list T * gset jsstring * nat) : Prop :=
  (forall x, x ∈ map key st.1.1 <-> x ∈ st.1.2) /\ NoDup (map key st.1.1).

Lemma idsCollected_nil {T : Type} (key : T -> jsstring) n :
  idsCollected key (([] : list T), (∅ : gset jsstring), n).
Proof. split; [|constructor]. intros x. cbn. rewrite elem_of_nil. set_solver. Qed.

Lemma idsCollected_push {T : Type} (key : T -> jsstring) items taken n n' item :
  idsCollected key (items, taken, n) -> key item ∉ taken ->
  idsCollected key (items ++ [item], {[key item]} ∪ taken, n').
Proof.
  unfold idsCollected. cbn [fst snd]. intros [Hset Hnd] Hfree. split.
  - intros x. rewrite map_app, elem_of_app, Hset. cbn [map].
    rewrite list_elem_of_singleton. set_solver.
  - rewrite map_app. apply NoDup_app. split; [done|]. split; [|apply NoDup_singleton].
    intros x Hx ->%list_elem_of_singleton. by apply Hfree, Hset.
Qed.

Lemma normalizeButton_collects random fuel st rawButton index st' :
  idsCollected button_id st ->
  normalizeButton random fuel st rawButton index = Some st' ->
  idsCollected button_id st'.
Proof.
  destruct st as [[buttons buttonSet] n]. intros Hinv. unfold normalizeButton.
  destruct (negb (isObjectLike rawButton)); [by intros [= <-]|].
  destruct (idOrUid random (js "b") (getProp rawButton (js "id")) n) as [buttonId n1].
  destruct (freshen random fuel _ _ _ _) as [[buttonId' n2]|] eqn:Hfresh; [|done].
  intros [= <-]. apply freshen_fresh in Hfresh as [Hfree _].
  by apply (idsCollected_push button_id buttons buttonSet n n2
              (mkButton buttonId' _ _)).
Qed.

(** What the node loop keeps: distinct non-empty node ids, and distinct
    button ids within each node. *)
Definition nodesCollected (st : list Node * gset jsstring * nat) : Prop :=
  idsCollected node_id st /\
  Forall (fun node => nonEmpty (node_id node) = true /\
                      NoDup (map button_id (node_buttons node))) st.1.1.

Lemma normalizeNode_collects random fuel st rawNode index st' :
  nodesCollected st ->
  normalizeNode random fuel st rawNode index = Some st' ->
  nodesCollected st'.
Proof.
  destruct st as [[graphNodes nodeIdSet] n]. intros [Hinv Hnodes]. unfold normalizeNode.
  destruct (negb (isObjectLike rawNode)); [by intros [= <-]|].
  destruct (idOrUid random (js "n") (getProp rawNode (js "id")) n) as [nodeId n1] eqn:Hid.
  destruct (freshen random fuel _ _ _ _) as [[nodeId' n2]|] eqn:Hfresh; [|done].
  destruct (forEach (normalizeButton random fuel) _ _ _)
    as [[[buttons buttonSet] n3]|] eqn:Hbuttons; [|done].
  intros [= <-].
  pose proof (forEach_invariant (normalizeButton random fuel) (idsCollected button_id)
                (normalizeButton_collects random fuel) _ _ _ _
                (idsCollected_nil button_id n2) Hbuttons) as [_ Hnd].
  cbn [fst snd] in Hnd.
  apply idOrUid_nonEmpty in Hid; [|done].
  pose proof (freshen_nonEmpty random fuel (js "n") _ _ _ _ _ eq_refl Hid Hfresh) as Hne.
  apply freshen_fresh in Hfresh as [Hfree _]. split.
  - by apply (idsCollected_push node_id graphNodes nodeIdSet n n3
                (mkNode nodeId' _ _ _ _ _ _)).
  - cbn [fst snd] in *. apply Forall_app. split; [done|].
    apply Forall_singleton. done.
Qed.

Lemma normalizeEdge_collects random fuel graphNodes st rawEdge index st' :
  idsCollected edge_id st ->
  normalizeEdge random fuel graphNodes st rawEdge index = Some st' ->
  idsCollected edge_id st'.
Proof.
  destruct st as [[graphEdges edgeIdSet] n]. intros Hinv. unfold normalizeEdge.
  destruct (negb (isObjectLike rawEdge)); [by intros [= <-]|].
  destruct (getProp rawEdge (js "from")) as [| | | |from| |]; try by intros [= <-].
  cbv zeta.
  destruct (negb (nonEmpty (trim from))); [by intros [= <-]|].
  destruct (negb (someNode graphNodes (trim from))); [by intros [= <-]|].
  destruct (truthyId _ && negb _); [by intros [= <-]|].
  destruct (idOrUid random (js "e") (getProp rawEdge (js "id")) n) as [edgeId n1].
  destruct (freshen random fuel _ _ _ _) as [[edgeId' n2]|] eqn:Hfresh; [|done].
  destruct (idOrUid random (js "b") (getProp rawEdge (js "buttonId")) n2) as [buttonId n3].
  intros [= <-]. apply freshen_fresh in Hfresh as [Hfree _].
  by apply (idsCollected_push edge_id graphEdges edgeIdSet n n3
              (mkEdge edgeId' _ _ _ _ _)).
Qed.

Lemma buildGraph_collects random clock fuel state input result :
  buildGraph random clock fuel state input = Some result ->
  exists graph,
    result = enforceGraphConsistency state graph /\
    graph_version graph = GRAPH_VERSION /\
    nodes graph <> [] /\
    NoDup (map node_id (nodes graph)) /\
    Forall (fun node => nonEmpty (node_id node) = true /\
                        NoDup (map button_id (node_buttons node))) (nodes graph) /\
    NoDup (map edge_id (edges graph)).
Proof.
  unfold buildGraph.
  destruct (match getProp input (js "id") with JStr s => _ | _ => _ end) as [id n].
  destruct (match getProp input (js "createdAt") with JStr s => _ | _ => _ end)
    as [created ticks].
  destruct (forEach (normalizeNode random fuel) _ _ _)
    as [[[graphNodes nodeIdSet] n1]|] eqn:Hnodes; [|done].
  pose proof (forEach_invariant (normalizeNode random fuel) nodesCollected
                (normalizeNode_collects random fuel) _ _ _ _
                (conj (idsCollected_nil node_id n) (Forall_nil_2 _)) Hnodes)
    as [[_ Hnd] Hok].
  cbn [fst snd] in Hnd, Hok.
  assert (exists graphNodes' n2,
            match graphNodes with
            | [] => ([startNode random n1], S n1)
            | _ => (graphNodes, n1)
            end = (graphNodes', n2) /\
            graphNodes' <> [] /\ NoDup (map node_id graphNodes') /\
            Forall (fun node => nonEmpty (node_id node) = true /\
                                NoDup (map button_id (node_buttons node))) graphNodes')
    as (graphNodes' & n2 & -> & Hsome & Hnd' & Hok').
  { destruct graphNodes as [|node graphNodes].
    - eexists _, _. split; [done|]. split; [done|]. split; [apply NoDup_singleton|].
      apply Forall_singleton. split; [by apply uid_nonEmpty|constructor].
    - eexists _, _. split; [done|]. done. }
  destruct (forEach (normalizeEdge random fuel graphNodes') _ _ _)
    as [[[graphEdges edgeIdSet] n3]|] eqn:Hedges; [|done].
  pose proof (forEach_invariant (normalizeEdge random fuel graphNodes')
                (idsCollected edge_id)
                (normalizeEdge_collects random fuel graphNodes') _ _ _ _
                (idsCollected_nil edge_id n2) Hedges) as [_ Hedge].
  cbn [fst snd] in Hedge.
  intros [= <-]. eexists. split; [done|]. done.
Qed.

Lemma normalizeGraph_Returned random clock fuel state input sourceLabel result :
  normalizeGraph random clock fuel state input sourceLabel = Returned result ->
  buildGraph random clock fuel state input = Some result.
Proof.
  unfold normalizeGraph.
  repeat (match goal with |- context [if ?c then _ else _] => destruct c end; [done|]).
  destruct (buildGraph random clock fuel state input); [|done]. by intros [= ->].
Qed.

(** X9. A graph [normalizeGraph] returns has the current version, at
    least one node, pairwise distinct non-empty node ids, pairwise
    distinct edge ids and, within each node, pairwise distinct button
    ids, whatever ids the document gave. *)
Theorem normalizeGraph_distinct_ids random clock fuel state input sourceLabel state' graph :
  normalizeGraph random clock fuel state input sourceLabel = Returned (state', graph) ->
  graph_version graph = GRAPH_VERSION /\
  nodes graph <> [] /\
  NoDup (map node_id (nodes graph)) /\
  Forall (fun node => nonEmpty (node_id node) = true /\
                      NoDup (map button_id (node_buttons node))) (nodes graph) /\
  NoDup (map edge_id (edges graph)).
Proof.
  intros Hreturned%normalizeGraph_Returned.
  apply buildGraph_collects in Hreturned
    as (raw & Hresult & Hversion & Hsome & Hnodes & Hok & Hedges).
  assert (graph = (enforceGraphConsistency state raw).2) as -> by by rewrite <- Hresult.
  destruct (rebuild_frame (prepared raw)) as (_ & _ & _ & _ & _ & Hv & _).
  rewrite enforce_nodes, enforce_edges. split; [|split; [|split; [|split]]].
  - rewrite enforce_graph, Hv. exact Hversion.
  - intros Hnil. apply (f_equal (map node_id)) in Hnil.
    rewrite mirrored_node_ids in Hnil. by destruct (nodes raw).
  - by rewrite mirrored_node_ids.
  - unfold mirrored. cbn [nodes withNodes sanitized withEdges].
    apply Forall_fmap, Forall_forall. intros node Hnode.
    rewrite Forall_forall in Hok. destruct (Hok node Hnode) as [Hne Hbuttons].
    cbn [compose]. rewrite mirrorNode_id, mirrorNode_buttons. split; [done|].
    apply NoDup_map_filter. by apply mirrorAll_NoDup.
  - cbn [sanitized edges withEdges]. by apply sanitized_edge_ids_NoDup.
Qed.

(** What [normalizeGraph] returns on [twinDocument]. *)
Definition twinImport : AppState * Graph :=
  match normalizeGraph countingRandom fixedClock (normalizeFuel twinDocument) idleState
                       twinDocument (js "graph") with
  | Returned result => result
  | _ => (idleState, scenarioGraph "xor" ∅)
  end.

Lemma normalizeGraph_distinct_ids_witness :
  NoDup (map node_id (nodes twinImport.2)) /\ NoDup (map edge_id (edges twinImport.2)).
Proof.
  destruct (normalizeGraph_distinct_ids countingRandom fixedClock
              (normalizeFuel twinDocument) idleState twinDocument (js "graph")
              twinImport.1 twinImport.2 ltac:(vm_compute; reflexivity))
    as (_ & _ & Hnodes & _ & Hedges).
  exact (conj Hnodes Hedges).
Defined.

(** X10. Every graph [normalizeGraph] returns keeps the XOR cap, with no
    assumption on the document: the selection of a node of type [xor]
    holds at most one edge id. *)
Theorem normalizeGraph_xor_cap random clock fuel state input sourceLabel state' graph N l :
  normalizeGraph random clock fuel state input sourceLabel = Returned (state', graph) ->
  N ∈ nodes graph -> node_type N = js "xor" ->
  activeSelections (ui graph) !! node_id N = Some l ->
  (length l <= 1)%nat.
Proof.
  intros Hreturned%normalizeGraph_Returned.
  apply buildGraph_collects in Hreturned as (raw & Hresult & _ & _ & Hnodes & _).
  assert (graph = (enforceGraphConsistency state raw).2) as -> by by rewrite <- Hresult.
  rewrite enforce_nodes. intros HN Hxor Hl.
  apply enforce_selection_entry in Hl as (node & entry & Hnode & -> & _ & Hlen & _).
  rewrite nodeMap_lookup_NoDup in Hnode; [|by rewrite mirrored_node_ids|done].
  injection Hnode as <-. etrans; [exact Hlen|]. by apply cutXor_xor.
Qed.

(** A document whose XOR root comes with two selected edges. *)
Definition greedyDocument : jsval :=
  JObj [ (js "nodes",
          JArr [ JObj [(js "id", JStr (js "s")); (js "type", JStr (js "XOR"))];
                 JObj [(js "id", JStr (js "a"))];
                 JObj [(js "id", JStr (js "b"))] ]);
         (js "edges",
          JArr [ JObj [ (js "id", JStr (js "e1")); (js "from", JStr (js "s"));
                        (js "to", JStr (js "a")); (js "buttonId", JStr (js "b1")) ];
                 JObj [ (js "id", JStr (js "e2")); (js "from", JStr (js "s"));
                        (js "to", JStr (js "b")); (js "buttonId", JStr (js "b2")) ] ]);
         (js "ui",
          JObj [ (js "activeSelections",
                  JObj [ (js "s", JArr [JStr (js "e2"); JNum (NumFin 7);
                                        JStr (js "e1")]) ]) ]) ].

Definition greedyImport : AppState * Graph :=
  match normalizeGraph countingRandom fixedClock (normalizeFuel greedyDocument) idleState
                       greedyDocument (js "graph") with
  | Returned result => result
  | _ => (idleState, scenarioGraph "xor" ∅)
  end.

Lemma normalizeGraph_xor_cap_witness : (length [js "e2"] <= 1)%nat.
Proof.
  refine (normalizeGraph_xor_cap countingRandom fixedClock
            (normalizeFuel greedyDocument) idleState greedyDocument (js "graph")
            greedyImport.1 greedyImport.2
            (mkNode (js "s") (NumFin 140) (NumFin 100) (js "Node 1") (js "xor") None
                    [mkButton (js "b1") (js "Choice") (Some (js "a"));
                     mkButton (js "b2") (js "Choice") (Some (js "b"))])
            [js "e2"] _ _ _ _).
  - vm_compute; reflexivity.
  - by_compute.
  - reflexivity.
  - vm_compute; reflexivity.
Defined.

(** * Text helpers: [escapeXml] and [sanitizeFileName] *)

(** [s.replace(/c/g, replacement)] for a pattern of one character and a
    replacement without [$]. *)
Definition replaceChar (c : N) (replacement : jsstring) (s : jsstring) : jsstring :=
  concat (map (fun x => if bool_decide (x = c) then replacement else [x]) s).

(** [String(value ?? '')] *)
Definition stringOrBlank (value : jsval) : jsstring :=
  match value with
  | JUndefined | JNull => []
  | _ => toString value
  end.

Definition escapeXml (value : jsval) : jsstring :=
  replaceChar 39 (js "&apos;")
    (replaceChar 34 (js "&quot;")
       (replaceChar 62 (js "&gt;")
          (replaceChar 60 (js "&lt;")
             (replaceChar 38 (js "&amp;") (stringOrBlank value))))).

(** The characters the pattern of [sanitizeFileName] matches: [<], [>],
    [:], the double quote, [/], the backslash, [|], [?], [*] and the
    control characters 0 to 31. *)
Definition isReservedChar (c : N) : bool :=
  bool_decide (c ∈ [60; 62; 58; 34; 47; 92; 124; 63; 42]) || bool_decide (c ≤ 31).

(** [name.replace(pattern, '_').trim() || 'graph'] *)
Definition sanitizeFileName (name : jsstring) : jsstring :=
  let cleaned := trim (map (fun c => if isReservedChar c then 95 else c) name) in
  if nonEmpty cleaned then cleaned else js "graph".

(** What [escapeXml] writes for one character. *)
Definition escapeChar (c : N) : jsstring :=
  if bool_decide (c = 38) then js "&amp;"
  else if bool_decide (c = 60) then js "&lt;"
  else if bool_decide (c = 62) then js "&gt;"
  else if bool_decide (c = 34) then js "&quot;"
  else if bool_decide (c = 39) then js "&apos;"
  else [c].

Lemma replaceChar_app c replacement s t :
  replaceChar c replacement (s ++ t)
  = replaceChar c replacement s ++ replaceChar c replacement t.
Proof. unfold replaceChar. by rewrite map_app, concat_app. Qed.

Lemma replaceChar_concat c replacement (f : N -> jsstring) s :
  replaceChar c replacement (concat (map f s))
  = concat (map (fun x => replaceChar c replacement (f x)) s).
Proof.
  induction s as [|x s IH]; [done|]. cbn [map concat].
  by rewrite replaceChar_app, IH.
Qed.

Lemma replaceChar_other c replacement x :
  x <> c -> replaceChar c replacement [x] = [x].
Proof.
  intros Hx. unfold replaceChar. cbn [map concat].
  by rewrite bool_decide_eq_false_2.
Qed.

(** The five replacements in a row are one pass over the characters: an
    ampersand a replacement writes is not escaped again, since [&] is
    replaced first. *)
Lemma escapeXml_concat value :
  escapeXml value = concat (map escapeChar (stringOrBlank value)).
Proof.
  unfold escapeXml. unfold replaceChar at 5.
  rewrite !replaceChar_concat. f_equal. apply map_ext. intros x.
  unfold escapeChar.
  case_bool_decide as H38; [subst; vm_compute; reflexivity|].
  case_bool_decide as H60; [subst; vm_compute; reflexivity|].
  case_bool_decide as H62; [subst; vm_compute; reflexivity|].
  case_bool_decide as H34; [subst; vm_compute; reflexivity|].
  case_bool_decide as H39; [subst; vm_compute; reflexivity|].
  by rewrite !replaceChar_other.
Qed.

Lemma escapeChar_cases c :
  c = 38 /\ escapeChar c = [38; 97; 109; 112; 59] \/
  c = 60 /\ escapeChar c = [38; 108; 116; 59] \/
  c = 62 /\ escapeChar c = [38; 103; 116; 59] \/
  c = 34 /\ escapeChar c = [38; 113; 117; 111; 116; 59] \/
  c = 39 /\ escapeChar c = [38; 97; 112; 111; 115; 59] \/
  (c <> 38 /\ c <> 60 /\ c <> 62 /\ c <> 34 /\ c <> 39) /\ escapeChar c = [c].
Proof.
  unfold escapeChar. repeat case_bool_decide; subst; tauto.
Qed.

Lemma escapeChar_no_markup c :
  Forall (fun x => x <> 60 /\ x <> 62 /\ x <> 34 /\ x <> 39) (escapeChar c).
Proof.
  destruct (escapeChar_cases c)
    as [[_ ->]|[[_ ->]|[[_ ->]|[[_ ->]|[[_ ->]|[(? & ? & ? & ? & ?) ->]]]]]];
    repeat constructor; done.
Qed.

(** An ampersand in what [escapeChar] writes is its first character, and
    what follows it is the rest of an entity. *)
Lemma escapeChar_ampersand c pre post :
  escapeChar c = pre ++ 38 :: post ->
  pre = [] /\ post ∈ [js "amp;"; js "lt;"; js "gt;"; js "quot;"; js "apos;"].
Proof.
  intros Heq.
  assert (match pre with [] => True | _ :: rest => 38 ∈ rest ++ 38 :: post end) as Hin.
  { destruct pre; [done|]. apply elem_of_app. right. by apply list_elem_of_here. }
  destruct (escapeChar_cases c)
    as [[_ Hc]|[[_ Hc]|[[_ Hc]|[[_ Hc]|[[_ Hc]|[(H38 & _) Hc]]]]]];
    rewrite Hc in Heq; clear Hc;
    (destruct pre as [|p pre];
     [cbn [app] in Heq; simplify_eq
     |cbn [app] in Heq; injection Heq as _ Heq; rewrite <- Heq in Hin; exfalso;
      revert Hin; apply (bool_decide_unpack _); vm_compute; exact I]);
    try congruence; (split; [done|]);
    repeat (first [by apply list_elem_of_here | apply list_elem_of_further]).
Qed.

(** X11. What [escapeXml] returns holds no [<], [>], double quote or
    apostrophe, and every ampersand in it starts one of the five entities
    [&amp;], [&lt;], [&gt;], [&quot;] and [&apos;]. *)
Theorem escapeXml_no_markup value :
  Forall (fun c => c <> 60 /\ c <> 62 /\ c <> 34 /\ c <> 39) (escapeXml value) /\
  forall pre post,
    escapeXml value = pre ++ 38 :: post ->
    exists name rest,
      name ∈ [js "amp;"; js "lt;"; js "gt;"; js "quot;"; js "apos;"] /\
      post = name ++ rest.
Proof.
  rewrite escapeXml_concat. generalize (stringOrBlank value). intros s. split.
  - apply Forall_concat, Forall_fmap, Forall_forall. intros c _. apply escapeChar_no_markup.
  - induction s as [|c s IH]; intros pre post Heq; cbn [map concat] in Heq.
    + by destruct pre.
    + apply app_eq_app in Heq as [mid [[Hc Hrest]|[-> Hrest]]].
      * destruct mid as [|m mid].
        -- exact (IH [] post (eq_sym Hrest)).
        -- cbn [app] in Hrest. injection Hrest as <- ->.
           apply escapeChar_ampersand in Hc as [_ Hname]. eauto.
      * exact (IH _ _ Hrest).
Qed.

(** What [escapeChar] writes for two characters never starts the same
    way. *)
Lemma escapeChar_prefix_free c d r r' :
  escapeChar c ++ r = escapeChar d ++ r' -> c = d /\ r = r'.
Proof.
  destruct (escapeChar_cases c)
    as [[-> ->]|[[-> ->]|[[-> ->]|[[-> ->]|[[-> ->]|[(? & ? & ? & ? & ?) ->]]]]]];
    destruct (escapeChar_cases d)
      as [[-> ->]|[[-> ->]|[[-> ->]|[[-> ->]|[[-> ->]|[(? & ? & ? & ? & ?) ->]]]]]];
    cbn [app]; intros Heq; simplify_eq; done.
Qed.

Lemma escapeChar_nonEmpty c : escapeChar c <> [].
Proof.
  destruct (escapeChar_cases c)
    as [[_ ->]|[[_ ->]|[[_ ->]|[[_ ->]|[[_ ->]|[_ ->]]]]]]; done.
Qed.

(** X12. [escapeXml] loses nothing: two strings with the same escaped
    text are the same string. *)
Theorem escapeXml_injective s t :
  escapeXml (JStr s) = escapeXml (JStr t) -> s = t.
Proof.
  rewrite !escapeXml_concat. cbn [stringOrBlank toString].
  revert t. induction s as [|c s IH]; intros [|d t]; cbn [map concat]; intros Heq.
  - done.
  - exfalso. destruct (escapeChar d) eqn:Hd; [by apply escapeChar_nonEmpty in Hd|done].
  - exfalso. destruct (escapeChar c) eqn:Hc; [by apply escapeChar_nonEmpty in Hc|done].
  - apply escapeChar_prefix_free in Heq as [-> Heq]. f_equal. by apply IH.
Qed.

Lemma escapeXml_injective_witness : js "a<b & c" = js "a<b & c".
Proof. exact (escapeXml_injective (js "a<b & c") (js "a<b & c") eq_refl). Defined.

Lemma trim_Forall (P : N -> Prop) s : Forall P s -> Forall P (trim s).
Proof.
  destruct (trim_split s) as (pre & post & Hs & _). intros Hall.
  rewrite Hs in Hall. by apply Forall_app in Hall as [_ [? _]%Forall_app].
Qed.

(** X13. [sanitizeFileName] returns a usable file name: it is not empty,
    holds none of the characters the pattern replaces (the reserved
    characters of file names and the control characters) and neither
    starts nor ends with white space. It is idempotent: a name it returned
    is returned as it is. *)
Theorem sanitizeFileName_safe name :
  nonEmpty (sanitizeFileName name) = true /\
  Forall (fun c => isReservedChar c = false) (sanitizeFileName name) /\
  trim (sanitizeFileName name) = sanitizeFileName name /\
  sanitizeFileName (sanitizeFileName name) = sanitizeFileName name.
Proof.
  assert (nonEmpty (sanitizeFileName name) = true /\
          Forall (fun c => isReservedChar c = false) (sanitizeFileName name) /\
          trim (sanitizeFileName name) = sanitizeFileName name) as (Hne & Hsafe & Htrim).
  { unfold sanitizeFileName. cbv zeta.
    set (replaced := map (fun c => if isReservedChar c then 95 else c) name).
    assert (Forall (fun c => isReservedChar c = false) replaced) as Hreplaced.
    { apply Forall_fmap, Forall_forall. intros c _. cbn [compose].
      by destruct (isReservedChar c) eqn:Hc. }
    destruct (nonEmpty (trim replaced)) eqn:Hne.
    - split; [done|]. split; [by apply trim_Forall|apply trim_idem].
    - split; [done|]. split; [|by vm_compute].
      apply Forall_forall. intros c Hc. revert c Hc. apply Forall_forall.
      repeat constructor. }
  split; [done|]. split; [done|]. split; [done|].
  generalize dependent (sanitizeFileName name). intros safe Hne Hsafe Htrim.
  unfold sanitizeFileName. cbv zeta.
  assert (map (fun c => if isReservedChar c then 95 else c) safe = safe) as ->.
  { clear Hne Htrim.
    induction Hsafe as [|c safe Hc _ IH]; [done|]. cbn [map]. by rewrite Hc, IH. }
  by rewrite Htrim, Hne.
Qed.

(** * Colours: [clamp], [rgbToHex] and [hexToRgb]

    [rgbToHex] takes any doubles. A finite double is a rational number;
    [Math.round] takes it to the integer [floor(x + 1/2)], and from there
    on the values are integral or not finite, the numbers of [jsnum]. *)

Inductive jsdouble : Type :=
  | DFin (q : QArith_base.Q)
  | DNaN
  | DPosInf
  | DNegInf.

(** [Math.round(x)] *)
Definition mathRound (x : jsdouble) : jsnum :=
  match x with
  | DFin q => NumFin (Qround.Qfloor (QArith_base.Qplus q (QArith_base.Qmake 1 2)))
  | DNaN => NumNaN
  | DPosInf => NumPosInf
  | DNegInf => NumNegInf
  end.

(** An integral double as a double. *)
Definition ofNum (n : jsnum) : jsdouble :=
  match n with
  | NumFin z => DFin (QArith_base.inject_Z z)
  | NumNaN => DNaN
  | NumPosInf => DPosInf
  | NumNegInf => DNegInf
  end.

(** [a <= b] on numbers other than [NaN]. *)
Definition numLe (a b : jsnum) : bool :=
  match a, b with
  | NumNegInf, _ | _, NumPosInf => true
  | NumFin x, NumFin y => bool_decide (x ≤ y)%Z
  | _, _ => false
  end.

(** [Math.min(a, b)] and [Math.max(a, b)]: [NaN] when an argument is. *)
Definition mathMin (a b : jsnum) : jsnum :=
  match a, b with
  | NumNaN, _ | _, NumNaN => NumNaN
  | _, _ => if numLe a b then a else b
  end.

Definition mathMax (a b : jsnum) : jsnum :=
  match a, b with
  | NumNaN, _ | _, NumNaN => NumNaN
  | _, _ => if numLe a b then b else a
  end.

(** [Math.max(min, Math.min(max, value))] *)
Definition clamp (value min max : jsnum) : jsnum :=
  mathMax min (mathMin max value).

(** The digit of a value below sixteen, in lower case. *)
Definition hexDigit (d : N) : N :=
  if bool_decide (d < 10) then 48 + d else 87 + d.

Fixpoint hexDigitsFuel (fuel : nat) (n : N) (acc : jsstring) : jsstring :=
  match fuel with
  | O => acc
  | S fuel' =>
      let acc' := hexDigit (n mod 16) :: acc in
      if bool_decide (n < 16) then acc' else hexDigitsFuel fuel' (n / 16) acc'
  end.

(** [n.toString(16)] on an integral or non-finite number. *)
Definition toString16 (n : jsnum) : jsstring :=
  match n with
  | NumFin z =>
      let digits := hexDigitsFuel (S (N.to_nat (N.log2 (Z.to_N (Z.abs z)))))
                                  (Z.to_N (Z.abs z)) [] in
      if bool_decide (z < 0)%Z then 45 :: digits else digits
  | NumNaN => js "NaN"
  | NumPosInf => js "Infinity"
  | NumNegInf => js "-Infinity"
  end.

(** [s.padStart(length, fill)] with a fill of one character. *)
Definition padStart (len : nat) (fill : N) (s : jsstring) : jsstring :=
  replicate (len - length s) fill ++ s.

Definition rgbToHex (r g b : jsdouble) : jsstring :=
  35 :: concat (map (fun value => padStart 2 48 (toString16 (clamp (mathRound value)
                                                                   (NumFin 0) (NumFin 255))))
                    [r; g; b]).

(** The value of a hexadecimal digit in either case. *)
Definition hexValue (c : N) : option Z :=
  if bool_decide (48 ≤ c ∧ c ≤ 57) then Some (Z.of_N c - 48)%Z
  else if bool_decide (97 ≤ c ∧ c ≤ 102) then Some (Z.of_N c - 87)%Z
  else if bool_decide (65 ≤ c ∧ c ≤ 70) then Some (Z.of_N c - 55)%Z
  else None.

(** The value of the longest prefix of hexadecimal digits, [None] when
    there is no digit. *)
Fixpoint parseHexDigits (s : jsstring) (acc : option Z) : option Z :=
  match s with
  | c :: s' =>
      match hexValue c with
      | Some d => parseHexDigits s' (Some (16 * default 0%Z acc + d)%Z)
      | None => acc
      end
  | [] => acc
  end.

(** [parseInt(s, 16)]: leading white space, a sign and a prefix [0x] are
    skipped; the value is exact (the code reads two digits). *)
Definition parseInt16 (s : jsstring) : jsnum :=
  let s := trimStart s in
  let '(negative, s) :=
    match s with
    | 45 :: s' => (true, s')
    | 43 :: s' => (false, s')
    | _ => (false, s)
    end in
  let s :=
    match s with
    | 48 :: x :: s' => if bool_decide (x = 120 ∨ x = 88) then s' else s
    | _ => s
    end in
  match parseHexDigits s None with
  | Some z => NumFin (if negative then - z else z)%Z
  | None => NumNaN
  end.

(** [s.slice(from, to)] for indices within the string. *)
Definition slice (from to : nat) (s : jsstring) : jsstring :=
  take (to - from) (drop from s).

Record Rgb : Type := mkRgb {
  rgb_r : jsnum;
  rgb_g : jsnum;
  rgb_b : jsnum
}.

Definition hexToRgb (hex : jsval) : option Rgb :=
  match normalizeHexColor hex with
  | None => None
  | Some normalized =>
      Some (mkRgb (parseInt16 (slice 1 3 normalized))
                  (parseInt16 (slice 3 5 normalized))
                  (parseInt16 (slice 5 7 normalized)))
  end.

Lemma trimStart_no_white s :
  match s with c :: _ => isWhiteSpace c = false | [] => True end -> trimStart s = s.
Proof. destruct s as [|c s]; [done|]. intros Hc. cbn. by rewrite Hc. Qed.

(** A string without white space is its own trimmed string. *)
Lemma trim_no_white s : Forall (fun c => isWhiteSpace c = false) s -> trim s = s.
Proof.
  intros Hs. unfold trim, trimEnd.
  rewrite (trimStart_no_white s) by by destruct Hs.
  rewrite (trimStart_no_white (rev s)); [apply rev_involutive|].
  apply Forall_rev in Hs. by destruct Hs.
Qed.

Lemma isHexColor_length n raw : isHexColor n raw = true -> length raw = S n.
Proof.
  unfold isHexColor. destruct raw as [|h digits]; [done|].
  destruct (decide (h = 35)) as [->|Hh].
  - intros [_ Hlen%bool_decide_eq_true]%andb_true_iff. cbn [length]. by rewrite Hlen.
  - intros H. exfalso. clear -H Hh. destruct h as [|p]; [done|].
    do 6 (destruct p as [p|p|]; try done).
Qed.

(** A string without white space that has neither four nor seven
    characters is no colour. *)
Lemma normalizeHexColor_wrong_length s :
  Forall (fun c => isWhiteSpace c = false) s ->
  length s <> 7%nat -> length s <> 4%nat -> normalizeHexColor (JStr s) = None.
Proof.
  intros Hs H7 H4. unfold normalizeHexColor. rewrite trim_no_white by done.
  destruct (nonEmpty (toLowerCase s)); cbn [negb]; [|done].
  destruct (isHexColor 6 (toLowerCase s)) eqn:Hsix.
  { apply isHexColor_length in Hsix. unfold toLowerCase in Hsix.
    rewrite length_map in Hsix. done. }
  destruct (isHexColor 3 (toLowerCase s)) eqn:Hthree; [|done].
  apply isHexColor_length in Hthree. unfold toLowerCase in Hthree.
  rewrite length_map in Hthree. done.
Qed.

(** The two characters [rgbToHex] writes for one component. *)
Definition component (value : jsdouble) : jsstring :=
  padStart 2 48 (toString16 (clamp (mathRound value) (NumFin 0) (NumFin 255))).

Lemma rgbToHex_components r g b :
  rgbToHex r g b = 35 :: component r ++ component g ++ component b.
Proof. unfold rgbToHex, component. cbn [map concat]. by rewrite app_nil_r. Qed.

(** [clamp(Math.round(value), 0, 255)] is [NaN] for [NaN] and a byte for
    every other double. *)
Lemma clamp_byte value :
  value = DNaN /\ clamp (mathRound value) (NumFin 0) (NumFin 255) = NumNaN \/
  value <> DNaN /\
  exists z, clamp (mathRound value) (NumFin 0) (NumFin 255) = NumFin z /\ (0 <= z <= 255)%Z.
Proof.
  destruct value as [q| | |]; [right|left|right|right]; try done; (split; [done|]).
  - unfold clamp, mathRound, mathMin, mathMax, numLe.
    set (k := Qround.Qfloor _).
    repeat case_bool_decide; eexists; (split; [reflexivity|lia]).
  - exists 255%Z. split; [reflexivity|lia].
  - exists 0%Z. split; [reflexivity|lia].
Qed.

(** The two digits written for a byte are lower-case hexadecimal digits
    and read back as the byte. *)
Definition byteCheck (z : Z) : bool :=
  match padStart 2 48 (toString16 (NumFin z)) with
  | [d1; d2] =>
      isHexDigit d1 && isHexDigit d2 && bool_decide (parseInt16 [d1; d2] = NumFin z)
  | _ => false
  end.

Lemma byteCheck_all : forallb byteCheck (map Z.of_nat (seq 0 256)) = true.
Proof. vm_compute. reflexivity. Qed.

Lemma byte_digits z :
  (0 <= z <= 255)%Z ->
  exists d1 d2,
    padStart 2 48 (toString16 (NumFin z)) = [d1; d2] /\
    isHexDigit d1 = true /\ isHexDigit d2 = true /\ parseInt16 [d1; d2] = NumFin z.
Proof.
  intros Hz. pose proof byteCheck_all as Hall. rewrite forallb_forall in Hall.
  specialize (Hall z). unfold byteCheck in Hall.
  destruct (padStart 2 48 (toString16 (NumFin z))) as [|d1 [|d2 [|? ?]]];
    try (discriminate Hall; apply in_map_iff; exists (Z.to_nat z);
         split; [lia|apply in_seq; lia]).
  exists d1, d2. 
  assert (isHexDigit d1 && isHexDigit d2 && bool_decide (parseInt16 [d1; d2] = NumFin z)
          = true) as Hok.
  { apply Hall. apply in_map_iff. exists (Z.to_nat z). split; [lia|apply in_seq; lia]. }
  apply andb_true_iff in Hok as [[H1 H2]%andb_true_iff Hparse%bool_decide_eq_true].
  done.
Qed.

Lemma component_cases value :
  value = DNaN /\ component value = js "NaN" \/
  value <> DNaN /\
  exists z d1 d2,
    clamp (mathRound value) (NumFin 0) (NumFin 255) = NumFin z /\ (0 <= z <= 255)%Z /\
    component value = [d1; d2] /\
    isHexDigit d1 = true /\ isHexDigit d2 = true /\ parseInt16 [d1; d2] = NumFin z.
Proof.
  unfold component.
  destruct (clamp_byte value) as [[-> ->]|[Hvalue (z & -> & Hz)]]; [by left|right].
  split; [done|]. destruct (byte_digits z Hz) as (d1 & d2 & Hdigits). by exists z, d1, d2.
Qed.

Lemma component_shape value :
  Forall (fun c => isWhiteSpace c = false) (component value) /\
  (2 <= length (component value) <= 3)%nat /\
  (value = DNaN -> length (component value) = 3%nat).
Proof.
  destruct (component_cases value)
    as [[-> ->]|[Hvalue (z & d1 & d2 & _ & _ & -> & H1 & H2 & _)]].
  - split; [by repeat constructor|]. split; [cbn; lia|done].
  - split; [|split; [cbn; lia|done]].
    apply Forall_cons. split; [by apply isHexDigit_not_white|].
    apply Forall_cons. split; [by apply isHexDigit_not_white|constructor].
Qed.

Lemma hexToRgb_nan r g b :
  r = DNaN \/ g = DNaN \/ b = DNaN -> hexToRgb (JStr (rgbToHex r g b)) = None.
Proof.
  intros Hnan. rewrite rgbToHex_components. unfold hexToRgb.
  destruct (component_shape r) as (Hr & Hlr & Hnr).
  destruct (component_shape g) as (Hg & Hlg & Hng).
  destruct (component_shape b) as (Hb & Hlb & Hnb).
  rewrite normalizeHexColor_wrong_length; [done| | |].
  - apply Forall_cons. split; [by vm_compute|].
    apply Forall_app. split; [exact Hr|]. apply Forall_app. split; [exact Hg|exact Hb].
  - cbn [length]. rewrite !length_app.
    destruct Hnan as [H|[H|H]]; [apply Hnr in H|apply Hng in H|apply Hnb in H]; lia.
  - cbn [length]. rewrite !length_app. lia.
Qed.

Lemma hexToRgb_bytes r g b :
  r <> DNaN -> g <> DNaN -> b <> DNaN ->
  exists x y z,
    hexToRgb (JStr (rgbToHex r g b)) = Some (mkRgb (NumFin x) (NumFin y) (NumFin z)) /\
    clamp (mathRound r) (NumFin 0) (NumFin 255) = NumFin x /\ (0 <= x <= 255)%Z /\
    clamp (mathRound g) (NumFin 0) (NumFin 255) = NumFin y /\ (0 <= y <= 255)%Z /\
    clamp (mathRound b) (NumFin 0) (NumFin 255) = NumFin z /\ (0 <= z <= 255)%Z.
Proof.
  intros Hr Hg Hb. rewrite rgbToHex_components.
  destruct (component_cases r)
    as [[? _]|[_ (x & r1 & r2 & Hx & Hxr & -> & Hr1 & Hr2 & Hxp)]]; [done|].
  destruct (component_cases g)
    as [[? _]|[_ (y & g1 & g2 & Hy & Hyr & -> & Hg1 & Hg2 & Hyp)]]; [done|].
  destruct (component_cases b)
    as [[? _]|[_ (z & b1 & b2 & Hz & Hzr & -> & Hb1 & Hb2 & Hzp)]]; [done|].
  exists x, y, z. split; [|done].
  unfold hexToRgb. cbn [app].
  rewrite (normalizeHexColor_sixHex [35; r1; r2; g1; g2; b1; b2]).
  - unfold slice. cbn [drop take Nat.sub]. by rewrite Hxp, Hyp, Hzp.
  - exists r1, r2, g1, g2, b1, b2. split; [done|]. repeat constructor; done.
Qed.

(** X14. Reading back what [rgbToHex] wrote: for components that are not
    [NaN], [hexToRgb] returns each component rounded and clamped to the
    range 0 to 255; when a component is [NaN], what [rgbToHex] writes is
    not a colour and [hexToRgb] returns [null]. *)
Theorem hexToRgb_rgbToHex r g b :
  match r, g, b with
  | DNaN, _, _ | _, DNaN, _ | _, _, DNaN =>
      hexToRgb (JStr (rgbToHex r g b)) = None
  | _, _, _ =>
      exists x y z,
        hexToRgb (JStr (rgbToHex r g b)) = Some (mkRgb (NumFin x) (NumFin y) (NumFin z)) /\
        clamp (mathRound r) (NumFin 0) (NumFin 255) = NumFin x /\ (0 <= x <= 255)%Z /\
        clamp (mathRound g) (NumFin 0) (NumFin 255) = NumFin y /\ (0 <= y <= 255)%Z /\
        clamp (mathRound b) (NumFin 0) (NumFin 255) = NumFin z /\ (0 <= z <= 255)%Z
  end.
Proof.
  destruct r as [rq| | |], g as [gq| | |], b as [bq| | |];
    first [ by apply hexToRgb_bytes
          | apply hexToRgb_nan; tauto ].
Qed.

(** Two lower-case hexadecimal digits read as a byte that is written back
    as the same two digits. *)
Definition pairCheck (a b : N) : bool :=
  implb (isHexDigit a && isHexDigit b)
        match parseInt16 [a; b] with
        | NumFin z =>
            bool_decide (0 <= z <= 255)%Z
            && bool_decide (component (ofNum (NumFin z)) = [a; b])
        | _ => false
        end.

Lemma pairCheck_all :
  forallb (fun a => forallb (pairCheck a) (map N.of_nat (seq 0 103)))
          (map N.of_nat (seq 0 103)) = true.
Proof. vm_compute. reflexivity. Qed.

Lemma isHexDigit_small d : isHexDigit d = true -> In d (map N.of_nat (seq 0 103)).
Proof.
  unfold isHexDigit. rewrite bool_decide_eq_true. intros Hd.
  apply in_map_iff. exists (N.to_nat d). split; [lia|apply in_seq; lia].
Qed.

Lemma pair_byte d1 d2 :
  isHexDigit d1 = true -> isHexDigit d2 = true ->
  exists z, parseInt16 [d1; d2] = NumFin z /\ (0 <= z <= 255)%Z /\
            component (ofNum (NumFin z)) = [d1; d2].
Proof.
  intros H1 H2. pose proof pairCheck_all as Hall. rewrite forallb_forall in Hall.
  specialize (Hall d1 (isHexDigit_small d1 H1)). rewrite forallb_forall in Hall.
  specialize (Hall d2 (isHexDigit_small d2 H2)). unfold pairCheck in Hall.
  rewrite H1, H2 in Hall. cbn [andb implb] in Hall.
  destruct (parseInt16 [d1; d2]) as [z| | |]; try done.
  apply andb_true_iff in Hall as [Hz%bool_decide_eq_true Hs%bool_decide_eq_true].
  by exists z.
Qed.

(** X15. Writing back what [hexToRgb] read: when [hexToRgb] returns
    components, they are bytes, and [rgbToHex] of them is the colour in
    the form [normalizeHexColor] gives it, a [#] and six lower-case
    digits. *)
Theorem rgbToHex_hexToRgb hex rgb :
  hexToRgb hex = Some rgb ->
  normalizeHexColor hex
  = Some (rgbToHex (ofNum (rgb_r rgb)) (ofNum (rgb_g rgb)) (ofNum (rgb_b rgb))) /\
  exists x y z,
    rgb = mkRgb (NumFin x) (NumFin y) (NumFin z) /\
    (0 <= x <= 255)%Z /\ (0 <= y <= 255)%Z /\ (0 <= z <= 255)%Z.
Proof.
  unfold hexToRgb. destruct (normalizeHexColor hex) as [normalized|] eqn:Hcolour; [|done].
  apply normalizeHexColor_Some in Hcolour as (r1 & r2 & g1 & g2 & b1 & b2 & -> & Hdigits).
  repeat (apply Forall_cons in Hdigits as [? Hdigits]).
  unfold slice. cbn [drop take Nat.sub]. intros [= <-].
  destruct (pair_byte r1 r2) as (x & -> & Hx & Hxs); [done..|].
  destruct (pair_byte g1 g2) as (y & -> & Hy & Hys); [done..|].
  destruct (pair_byte b1 b2) as (z & -> & Hz & Hzs); [done..|].
  cbn [rgb_r rgb_g rgb_b]. split; [|by exists x, y, z].
  rewrite rgbToHex_components. by rewrite Hxs, Hys, Hzs.
Qed.

Lemma rgbToHex_hexToRgb_witness :
  normalizeHexColor (JStr (js " #AbC "))
  = Some (rgbToHex (ofNum (NumFin 170)) (ofNum (NumFin 187)) (ofNum (NumFin 204))).
Proof.
  exact (proj1 (rgbToHex_hexToRgb (JStr (js " #AbC "))
                                  (mkRgb (NumFin 170) (NumFin 187) (NumFin 204))
                                  ltac:(vm_compute; reflexivity))).
Defined.

(** X16. [normalizeHexColor] returns [null] or a canonical colour: a [#]
    followed by six lower-case hexadecimal digits, which it returns
    unchanged when given it again. A value that is not a string gives
    [null], and the short form [#rgb] of three lower-case digits gives
    [#rrggbb]. *)
Theorem normalizeHexColor_canonical value :
  match normalizeHexColor value with
  | Some colour => sixHex colour /\ normalizeHexColor (JStr colour) = Some colour
  | None => True
  end /\
  (match value with JStr _ => True | _ => normalizeHexColor value = None end) /\
  forall r g b,
    isHexDigit r = true -> isHexDigit g = true -> isHexDigit b = true ->
    normalizeHexColor (JStr [35; r; g; b]) = Some [35; r; r; g; g; b; b].
Proof.
  split; [|split].
  - destruct (normalizeHexColor value) as [colour|] eqn:Hcolour; [|done].
    apply normalizeHexColor_Some in Hcolour. split; [done|].
    by apply normalizeHexColor_sixHex.
  - by destruct value.
  - intros r g b Hr Hg Hb. unfold normalizeHexColor.
    rewrite trim_no_white.
    + unfold toLowerCase. cbn [map]. rewrite (isHexDigit_lower r), (isHexDigit_lower g), (isHexDigit_lower b) by done.
      change (lowerChar 35) with 35. cbn [nonEmpty negb].
      unfold isHexColor. cbn [forallb length]. rewrite Hr, Hg, Hb. cbn [andb].
      rewrite (bool_decide_eq_false_2 (3%nat = 6%nat)) by done.
      by rewrite (bool_decide_eq_true_2 (3%nat = 3%nat)).
    + apply Forall_cons. split; [by vm_compute|].
      repeat (apply Forall_cons; split; [by apply isHexDigit_not_white|]). constructor.
Qed.

(** X17. [clamp] on numbers that are not [NaN], with a lower bound that is
    at most the upper bound: the result lies between the bounds, and it is
    the value itself when the value lies between them. A [NaN] value gives
    [NaN]. *)
Theorem clamp_range value lo hi :
  lo <> NumNaN -> hi <> NumNaN -> numLe lo hi = true ->
  clamp NumNaN lo hi = NumNaN /\
  (value <> NumNaN ->
   numLe lo (clamp value lo hi) = true /\ numLe (clamp value lo hi) hi = true /\
   (numLe lo value = true -> numLe value hi = true -> clamp value lo hi = value)).
Proof.
  intros Hlo Hhi Hle. split; [by destruct lo, hi|].
  intros Hvalue.
  destruct value as [v| | |], lo as [l| | |], hi as [h| | |]; try done;
    unfold clamp, mathMin, mathMax, numLe in *;
    repeat case_bool_decide; repeat split; try done; try lia;
    intros; f_equal; try done; lia.
Qed.

Lemma clamp_range_witness :
  clamp (NumFin 300) (NumFin 0) (NumFin 255) = NumFin 255 /\
  clamp NumNaN (NumFin 0) (NumFin 255) = NumNaN.
Proof.
  split; [reflexivity|].
  exact (proj1 (clamp_range (NumFin 300) (NumFin 0) (NumFin 255)
                            ltac:(discriminate) ltac:(discriminate) eq_refl)).
Defined.

(** * Editing and viewing operations

    ** The XOR cap under toggles *)

(** The XOR cap of a session: the selection of every node id whose node
    (the one [findNode] returns) normalises to [xor] holds at most one
    edge id. *)
Definition xorCapped (currentGraph : option Graph) : Prop :=
  forall k node,
    findNode currentGraph k = Some node ->
    normalizeNodeType (JStr (node_type node)) = js "xor" ->
    (length (selectionAt currentGraph k) <= 1)%nat.

Lemma toggleSelection_other sourceNodeType sourceId edgeId selections k :
  k <> sourceId ->
  (toggleSelection sourceNodeType sourceId edgeId selections).1 !! k = selections !! k.
Proof.
  intros Hk. unfold toggleSelection.
  repeat match goal with
         | |- context [if ?c then _ else _] => destruct c
         end; cbn [fst];
    first [by rewrite lookup_insert_ne | by rewrite lookup_delete_ne].
Qed.

Lemma toggleSelection_xor_cap sourceNodeType sourceId edgeId selections :
  sourceNodeType <> js "or" ->
  (length (default [] ((toggleSelection sourceNodeType sourceId edgeId selections).1
                         !! sourceId)) <= 1)%nat.
Proof.
  intros Htype. unfold toggleSelection.
  rewrite (bool_decide_eq_false_2 (sourceNodeType = js "or")) by done.
  case_bool_decide; cbn [fst].
  - rewrite lookup_delete_eq. cbn. lia.
  - rewrite lookup_insert_eq. cbn. lia.
Qed.

(** Deriving the path again never lengthens a selection. *)
Lemma rebuild_selection_length graph k :
  (length (default [] (activeSelections (ui (rebuildActivePathFromSelections graph)) !! k))
   <= length (default [] (activeSelections (ui graph) !! k)))%nat.
Proof.
  destruct (activeSelections (ui (rebuildActivePathFromSelections graph)) !! k)
    as [kept|] eqn:Hkept; [|cbn; lia].
  destruct (rebuild_cases graph)
    as [[_ Hui]|(root & rest & p & Hnodes & Hroot & Hwalk & Hui)];
    rewrite Hui in Hkept; cbn [activeSelections] in Hkept.
  - by rewrite lookup_empty in Hkept.
  - apply pruneSelections_Some in Hkept as (earlier & -> & _ & -> & _).
    cbn [default id]. apply length_pushUnique.
Qed.

(** X18. A toggle keeps the XOR cap: when every node that normalises to
    [xor] has at most one selected edge before [applyTypedEdgeSelection],
    this holds after it as well, whether the toggle is rejected, selects
    or deselects. *)
Theorem applyTypedEdgeSelection_keeps_xor_cap state graph edgeId :
  xorCapped (Some graph) ->
  xorCapped (applyTypedEdgeSelection state (Some graph) edgeId).2.
Proof.
  intros Hcap.
  destruct (findEdge (Some graph) edgeId) as [e|] eqn:He;
    [|by unfold applyTypedEdgeSelection; rewrite He].
  destruct (edgeHasTarget e) eqn:Htarget;
    [|by unfold applyTypedEdgeSelection; rewrite He, Htarget].
  destruct (findNode (Some graph) (edge_from e)) as [sourceNode|] eqn:Hsource;
    [|by unfold applyTypedEdgeSelection; rewrite He, Htarget, Hsource].
  rewrite (apply_graph state graph edgeId e sourceNode He Htarget Hsource).
  intros k node Hnode Hxor.
  rewrite (proj2 (toggledGraph_find graph sourceNode e edgeId k)) in Hnode.
  unfold selectionAt, toggledGraph.
  etrans; [apply rebuild_selection_length|]. cbn [ui withUi activeSelections].
  apply findNode_Some in Hsource as Hsid. destruct Hsid as [_ Hsid].
  destruct (decide (k = node_id sourceNode)) as [->|Hk].
  - rewrite Hsid in Hnode. rewrite Hsource in Hnode. injection Hnode as <-.
    apply toggleSelection_xor_cap. rewrite Hxor. done.
  - rewrite toggleSelection_other by done. exact (Hcap k node Hnode Hxor).
Qed.

Lemma applyTypedEdgeSelection_keeps_xor_cap_witness :
  (length (selectionAt
             (applyTypedEdgeSelection idleState (Some (scenarioGraph "xor" ∅)) (js "e1")).2
             (js "s")) <= 1)%nat.
Proof.
  refine (applyTypedEdgeSelection_keeps_xor_cap idleState (scenarioGraph "xor" ∅) (js "e1")
            _ (js "s")
            (scenarioNode "s" "xor"
               [mkButton (js "b1") (js "Left") (Some (js "a"));
                mkButton (js "b2") (js "Right") (Some (js "b"))]) _ _).
  - intros k node _ _. unfold selectionAt, scenarioGraph. cbn [ui activeSelections].
    rewrite lookup_empty. cbn. lia.
  - vm_compute; reflexivity.
  - vm_compute; reflexivity.
Defined.

(** ** [toggleNodeType], [ensureActivePathSeed] and [clearActivePath]

    [state.mode] is ['edit'] or ['view']: [setMode] assigns nothing
    else. *)

Inductive Mode : Type :=
  | EditMode
  | ViewMode.

(** An array after the element [find] returns, the first one that passes
    the test, has been changed in place. *)
Fixpoint updFirst {A : Type} (test : A -> bool) (f : A -> A) (l : list A) : list A :=
  match l with
  | [] => []
  | x :: l' => if test x then f x :: l' else x :: updFirst test f l'
  end.


(** The two checks of [lastChosenEdgeId] and [lastChosenNodeId] against
    the active path. *)
Definition forgetOffPath (state : AppState) (path : list jsstring) : AppState :=
  mkAppState (selectedEdgeId state) (selectedEdgeSelectionSource state)
             (pendingChoice state)
             (clearIfAbsent path (lastChosenEdgeId state))
             (clearIfAbsent path (lastChosenNodeId state)).


Definition ensureActivePathSeed (state : AppState) (currentGraph : option Graph)
  : AppState * option Graph :=
  match currentGraph with
  | None => (state, currentGraph)
  | Some graph =>
      let graph := rebuildActivePathFromSelections graph in
      let graph :=
        match activePath (ui graph), nodes graph with
        | [], root :: _ =>
            withUi graph (mkUi (selectedNodeId (ui graph)) [node_id root]
                               (activeSelections (ui graph)))
        | _, _ => graph
        end in
      (forgetOffPath state (activePath (ui graph)), Some graph)
  end.




Lemma map_updFirst {A B : Type} (key : A -> B) (test : A -> bool) (f : A -> A) l :
  (forall x, key (f x) = key x) -> map key (updFirst test f l) = map key l.
Proof.
  intros Hkey. induction l as [|y l IH]; [done|].
  cbn [updFirst]. destruct (test y); cbn [map]; [by rewrite Hkey|by rewrite IH].
Qed.






Lemma root_in_nodeMap graph root rest :
  nodes graph = root :: rest -> is_Some (nodeMap graph !! node_id root).
Proof.
  intros Hnodes. apply nodeMap_is_Some, elem_of_nodeIds. exists root.
  rewrite Hnodes. split; [apply elem_of_cons; by left|done].
Qed.

Lemma clearIfAbsent_on_path path x s :
  clearIfAbsent path x = Some s -> nonEmpty s = true -> s ∈ path.
Proof.
  unfold clearIfAbsent. destruct x as [t|]; [|by destruct (_ && _)].
  change (default [] (Some t)) with t. cbn [truthyId].
  destruct (nonEmpty t && negb (includes path t)) eqn:Hstale; [done|].
  intros [= ->] Hs. rewrite Hs in Hstale. cbn [andb] in Hstale.
  apply negb_false_iff in Hstale. by apply includes_true in Hstale.
Qed.

(** X20. After [ensureActivePathSeed] the active path of a graph with
    nodes starts with the id of its first node (the path is never empty,
    also when the derivation gave none), the nodes and edges are as
    before, and a last chosen edge or node that is kept is on the
    path. *)
Theorem ensureActivePathSeed_path state graph :
  exists graph',
    (ensureActivePathSeed state (Some graph)).2 = Some graph' /\
    nodes graph' = nodes graph /\ edges graph' = edges graph /\
    match nodes graph with
    | root :: _ => exists tail, activePath (ui graph') = node_id root :: tail
    | [] => activePath (ui graph') = []
    end /\
    (forall s, lastChosenEdgeId (ensureActivePathSeed state (Some graph)).1 = Some s ->
               nonEmpty s = true -> s ∈ activePath (ui graph')) /\
    (forall s, lastChosenNodeId (ensureActivePathSeed state (Some graph)).1 = Some s ->
               nonEmpty s = true -> s ∈ activePath (ui graph')).
Proof.
  unfold ensureActivePathSeed. cbv zeta. cbn [fst snd].
  set (derived := rebuildActivePathFromSelections graph).
  assert (nodes derived = nodes graph) as Hnodes by apply rebuild_nodes.
  assert (edges derived = edges graph) as Hedges by apply rebuild_edges.
  set (seeded := match activePath (ui derived), nodes derived with
                 | [], root :: _ => _
                 | _, _ => derived
                 end).
  assert (nodes seeded = nodes graph /\ edges seeded = edges graph /\
          match nodes graph with
          | root :: _ => exists tail, activePath (ui seeded) = node_id root :: tail
          | [] => activePath (ui seeded) = []
          end) as (Hn & He & Hpath).
  { subst seeded. rewrite Hnodes.
    destruct (rebuild_cases graph)
      as [[Hroot Hui]|(root & rest & p & Hgraph & Hroot & Hwalk & Hui)];
      fold derived in Hui.
    - rewrite Hui. cbn [activePath].
      destruct (nodes graph) as [|root rest] eqn:Hgraph.
      + by rewrite Hui.
      + cbn [nodes edges withUi ui activePath]. eauto.
    - rewrite Hui, Hgraph. cbn [activePath].
      destruct (root_in_nodeMap graph root rest Hgraph) as [node Hnode].
      destruct (walk_head _ _ _ _ _ _ _ _ Hnode Hwalk) as [tail ->].
      rewrite Hgraph in Hnodes.
      split; [done|]. split; [done|]. rewrite Hui. cbn [activePath]. eauto. }
  exists seeded. split; [done|]. split; [done|]. split; [done|]. split; [done|].
  cbn [forgetOffPath lastChosenEdgeId lastChosenNodeId].
  split; intros s; apply clearIfAbsent_on_path.
Qed.



(** ** The end nodes of the active path: [collectActiveEndNodes] *)

(** [hasActiveOutgoing]: some selected edge of the node leaves it and
    leads to a node of the graph. [edge.to] is a string when
    [edgeHasTarget] holds. *)
Definition hasActiveOutgoing (graph : Graph) (nodeId : jsstring) : bool :=
  existsb (fun edgeId =>
             match edgeMap graph !! edgeId with
             | Some edge =>
                 bool_decide (edge_from edge = nodeId) && edgeHasTarget edge
                 && hasKey (nodeMap graph) (default [] (edge_to edge))
             | None => false
             end)
          (default [] (activeSelections (ui graph) !! nodeId)).

(** [orderedActiveNodeIds]: the node ids of the path, each once, and the
    first node when the path has none. *)
Definition orderedActiveNodeIds (graph : Graph) : list jsstring :=
  let ordered := pushUnique (hasKey (nodeMap graph)) (activePath (ui graph)) in
  match ordered, nodes graph with
  | [], root :: _ => [node_id root]
  | _, _ => ordered
  end.

Definition collectActiveEndNodes (graph : Graph) : list Node :=
  omap (fun nodeId => nodeMap graph !! nodeId)
       (filter (fun nodeId => hasActiveOutgoing graph nodeId = false)
               (orderedActiveNodeIds graph)).

Lemma orderedActiveNodeIds_NoDup graph : NoDup (orderedActiveNodeIds graph).
Proof.
  unfold orderedActiveNodeIds. cbv zeta.
  pose proof (NoDup_pushUnique (hasKey (nodeMap graph)) (activePath (ui graph))) as Hnd.
  destruct (pushUnique _ _); [|done].
  destruct (nodes graph); [done|apply NoDup_singleton].
Qed.

Lemma elem_of_orderedActiveNodeIds graph k :
  k ∈ orderedActiveNodeIds graph <->
  (k ∈ activePath (ui graph) /\ k ∈ nodeIds graph) \/
  ((forall x, x ∈ activePath (ui graph) -> x ∉ nodeIds graph) /\
   exists root rest, nodes graph = root :: rest /\ k = node_id root).
Proof.
  unfold orderedActiveNodeIds. cbv zeta.
  assert (forall x, x ∈ pushUnique (hasKey (nodeMap graph)) (activePath (ui graph)) <->
                    x ∈ activePath (ui graph) /\ x ∈ nodeIds graph) as Hordered.
  { intros x. rewrite elem_of_pushUnique, hasKey_nodeMap, has_true. done. }
  destruct (pushUnique _ _) as [|first ordered] eqn:Hpush.
  - assert (forall x, x ∈ activePath (ui graph) -> x ∉ nodeIds graph) as Hnone.
    { intros x Hx Hn. by apply (elem_of_nil x), Hordered. }
    destruct (nodes graph) as [|root rest].
    + rewrite elem_of_nil. split; [done|]. intros [[Hx Hn]|[_ (? & ? & ? & _)]]; [|done].
      by apply (Hnone k).
    + rewrite list_elem_of_singleton. split.
      * intros ->. right. eauto.
      * intros [[Hx Hn]|[_ (? & ? & [= <- _] & ->)]]; [by destruct (Hnone k)|done].
  - destruct (nodes graph) as [|root rest]; rewrite Hordered;
      (split; [by left|]); (intros [?|[Hnone _]]; [done|]); exfalso;
      assert (first ∈ first :: ordered) as Hin by (apply elem_of_cons; by left);
      apply Hordered in Hin as [Hx Hn]; by apply (Hnone first).
Qed.

Lemma end_node_ids graph (l : list jsstring) :
  map node_id (omap (fun nodeId => nodeMap graph !! nodeId) l)
  = filter (fun nodeId => is_Some (nodeMap graph !! nodeId)) l.
Proof.
  induction l as [|k l IH]; [done|]. cbn [omap list_omap]. rewrite filter_cons.
  destruct (nodeMap graph !! k) as [node|] eqn:Hnode.
  - rewrite decide_True by eauto. cbn [map].
    apply nodeMap_lookup_Some in Hnode as [_ ->]. by rewrite <- IH.
  - rewrite decide_False by by intros [? ?]. exact IH.
Qed.

(** X22. The end nodes [collectActiveEndNodes] returns are the nodes,
    looked up by id, of the node ids on the active path (of the first
    node when the path names no node) that have no selected edge leading
    on to a node of the graph; no two of them have the same id. *)
Theorem collectActiveEndNodes_spec graph :
  (forall node,
     node ∈ collectActiveEndNodes graph <->
     nodeMap graph !! node_id node = Some node /\
     hasActiveOutgoing graph (node_id node) = false /\
     ((node_id node ∈ activePath (ui graph)) \/
      ((forall x, x ∈ activePath (ui graph) -> x ∉ nodeIds graph) /\
       exists root rest, nodes graph = root :: rest /\ node_id node = node_id root))) /\
  NoDup (map node_id (collectActiveEndNodes graph)).
Proof.
  split.
  - intros node. unfold collectActiveEndNodes. rewrite list_elem_of_omap. split.
    + intros (k & [Hend Hk]%list_elem_of_filter & Hnode).
      pose proof (nodeMap_lookup_Some _ _ _ Hnode) as [_ <-].
      split; [done|]. split; [done|].
      apply elem_of_orderedActiveNodeIds in Hk as [[? _]|?]; [by left|by right].
    + intros (Hnode & Hend & Hwhere). exists (node_id node). split; [|done].
      apply list_elem_of_filter. split; [done|].
      apply elem_of_orderedActiveNodeIds. destruct Hwhere as [Hpath|?]; [left|by right].
      split; [done|]. apply nodeMap_is_Some. eauto.
  - unfold collectActiveEndNodes. rewrite end_node_ids.
    apply NoDup_filter, NoDup_filter, orderedActiveNodeIds_NoDup.
Qed.

(** ** Connecting a dangling choice: [assignDanglingChoiceToNode] *)

Definition connectEdge (edge : Edge) (target : jsstring) : Edge :=
  mkEdge (edge_id edge) (edge_from edge) (Some target) (edge_buttonId edge) None None.

Definition connectButton (button : Button) (target : jsstring) : Button :=
  mkButton (button_id button) (button_text button) (Some target).

Definition withButtons (node : Node) (buttons : list Button) : Node :=
  mkNode (node_id node) (node_x node) (node_y node) (node_text node) (node_type node)
         (node_color node) buttons.

(** [findButtonForEdge]: the first button with the button id of the edge
    in the node [findNode] returns for its source. *)
Definition findButtonForEdge (currentGraph : option Graph) (edge : Edge) : option Button :=
  match findNode currentGraph (edge_from edge) with
  | Some source =>
      List.find (fun button => bool_decide (button_id button = edge_buttonId edge))
                (node_buttons source)
  | None => None
  end.

(** [setSelectedEdge(null)] *)
Definition clearSelectedEdge (state : AppState) : AppState :=
  mkAppState None None (pendingChoice state) (lastChosenEdgeId state)
             (lastChosenNodeId state).

Definition assignDanglingChoiceToNode (state : AppState) (currentGraph : option Graph)
           (mode : Mode) (edgeId targetNodeId : jsstring)
  : bool * AppState * option Graph :=
  match currentGraph, mode with
  | Some graph, EditMode =>
      match findEdge currentGraph edgeId, findNode currentGraph targetNodeId with
      | Some edge, Some targetNode =>
          match findNode currentGraph (edge_from edge) with
          | Some sourceNode =>
              if edgeHasTarget edge then (false, state, currentGraph)
              else if bool_decide (node_id sourceNode = node_id targetNode)
              then (false, state, currentGraph)
              else
                let target := node_id targetNode in
                let graph :=
                  withEdges graph
                    (updFirst (fun item => bool_decide (edge_id item = edgeId))
                              (fun item => connectEdge item target) (edges graph)) in
                let graph :=
                  withNodes graph
                    (updFirst (fun item => bool_decide (node_id item = edge_from edge))
                              (fun item =>
                                 withButtons item
                                   (updFirst (fun button =>
                                                bool_decide (button_id button
                                                             = edge_buttonId edge))
                                             (fun button => connectButton button target)
                                             (node_buttons item)))
                              (nodes graph)) in
                let graph :=
                  withUi graph (mkUi (Some target) (activePath (ui graph))
                                     (activeSelections (ui graph))) in
                let '(state, graph) :=
                  enforceGraphConsistency (clearSelectedEdge state) graph in
                (true, state, Some graph)
          | None => (false, state, currentGraph)
          end
      | _, _ => (false, state, currentGraph)
      end
  | _, _ => (false, state, currentGraph)
  end.

Lemma elem_of_updFirst {A : Type} (test : A -> bool) (f : A -> A) l x :
  List.find test l = Some x -> f x ∈ updFirst test f l.
Proof.
  induction l as [|y l IH]; [done|]. cbn [List.find updFirst].
  destruct (test y).
  - intros [= ->]. apply elem_of_cons. by left.
  - intros Hfind. apply elem_of_cons. right. by apply IH.
Qed.

(** The graph [assignDanglingChoiceToNode] hands to the enforcer. *)
Definition connectedGraph (graph : Graph) (edge : Edge) (target : jsstring) : Graph :=
  let graph :=
    withEdges graph
      (updFirst (fun item => bool_decide (edge_id item = edge_id edge))
                (fun item => connectEdge item target) (edges graph)) in
  let graph :=
    withNodes graph
      (updFirst (fun item => bool_decide (node_id item = edge_from edge))
                (fun item =>
                   withButtons item
                     (updFirst (fun button =>
                                  bool_decide (button_id button = edge_buttonId edge))
                               (fun button => connectButton button target)
                               (node_buttons item)))
                (nodes graph)) in
  withUi graph (mkUi (Some target) (activePath (ui graph)) (activeSelections (ui graph))).

(** When [assignDanglingChoiceToNode] connects. *)
Definition connectable (graph : Graph) (mode : Mode) (edgeId targetNodeId : jsstring)
           (edge : Edge) : Prop :=
  mode = EditMode /\
  findEdge (Some graph) edgeId = Some edge /\ edgeHasTarget edge = false /\
  is_Some (findNode (Some graph) (edge_from edge)) /\
  is_Some (findNode (Some graph) targetNodeId) /\
  edge_from edge <> targetNodeId.

Lemma assign_connected state graph mode edgeId targetNodeId edge :
  connectable graph mode edgeId targetNodeId edge ->
  assignDanglingChoiceToNode state (Some graph) mode edgeId targetNodeId
  = (true,
     (enforceGraphConsistency (clearSelectedEdge state)
                              (connectedGraph graph edge targetNodeId)).1,
     Some (enforceGraphConsistency (clearSelectedEdge state)
                                   (connectedGraph graph edge targetNodeId)).2).
Proof.
  intros (-> & Hedge & Hdangling & [sourceNode Hsource] & [targetNode Htarget] & Hloop).
  unfold assignDanglingChoiceToNode. rewrite Hedge, Htarget, Hsource, Hdangling.
  pose proof (findNode_Some _ _ _ Htarget) as [_ Htid].
  pose proof (findNode_Some _ _ _ Hsource) as [_ Hsid].
  pose proof (findEdge_Some _ _ _ Hedge) as [_ Heid].
  rewrite bool_decide_eq_false_2 by congruence.
  rewrite Htid. cbv zeta. unfold connectedGraph. cbv zeta. rewrite Heid.
  by destruct (enforceGraphConsistency _ _).
Qed.

Lemma assign_cases state graph mode edgeId targetNodeId :
  (exists edge, connectable graph mode edgeId targetNodeId edge) \/
  ((forall edge, ~ connectable graph mode edgeId targetNodeId edge) /\
   assignDanglingChoiceToNode state (Some graph) mode edgeId targetNodeId
   = (false, state, Some graph)).
Proof.
  unfold connectable, assignDanglingChoiceToNode.
  destruct mode; [|right; split; [by intros ? [? _]|done]].
  destruct (findEdge (Some graph) edgeId) as [edge|] eqn:Hedge;
    [|right; split; [by intros ? (_ & ? & _)|done]].
  destruct (findNode (Some graph) targetNodeId) as [targetNode|] eqn:Htarget;
    [|right; split; [by intros ? (_ & _ & _ & _ & [? ?] & _)|done]].
  destruct (findNode (Some graph) (edge_from edge)) as [sourceNode|] eqn:Hsource;
    [|right; split; [|done]; intros ? (_ & [= <-] & _ & [? Hs] & _); congruence].
  pose proof (findNode_Some _ _ _ Htarget) as [_ Htid].
  pose proof (findNode_Some _ _ _ Hsource) as [_ Hsid].
  destruct (edgeHasTarget edge) eqn:Hdangling;
    [right; split; [|done]; intros ? (_ & [= <-] & ? & _); congruence|].
  case_bool_decide as Hloop;
    [right; split; [|done]; intros ? (_ & [= <-] & _ & _ & _ & ?); congruence|].
  left. exists edge. repeat split; eauto. congruence.
Qed.

(** X23. [assignDanglingChoiceToNode] connects only a dangling edge of an
    existing node to another existing node: it returns [true] exactly in
    that case (in edit mode), and leaves the state and the graph as they
    were in every other. When it connects to a target whose id is
    non-empty and trimmed, the graph it leaves holds the edge with that
    target, the edge is no loop, the target is the selected node and no
    edge is selected. *)
Theorem assignDanglingChoiceToNode_connects state graph mode edgeId targetNodeId :
  let result := assignDanglingChoiceToNode state (Some graph) mode edgeId targetNodeId in
  (result.1.1 = true <-> exists edge, connectable graph mode edgeId targetNodeId edge) /\
  (result.1.1 = false -> result = (false, state, Some graph)) /\
  ((exists edge, connectable graph mode edgeId targetNodeId edge) ->
   nonEmpty targetNodeId = true -> trim targetNodeId = targetNodeId ->
   exists graph' edge,
     result.2 = Some graph' /\
     edge ∈ edges graph' /\ edge_id edge = edgeId /\
     edge_to edge = Some targetNodeId /\ edge_from edge <> targetNodeId /\
     selectedNodeId (ui graph') = Some targetNodeId /\
     selectedEdgeId result.1.2 = None).
Proof.
  cbv zeta.
  destruct (assign_cases state graph mode edgeId targetNodeId)
    as [[edge Hok]|[Hnot ->]].
  2: { cbn [fst snd]. split; [split; [done|]; intros [edge Hok]; by destruct (Hnot edge)|].
       split; [done|]. intros [edge Hok]. by destruct (Hnot edge). }
  rewrite (assign_connected state graph mode edgeId targetNodeId edge Hok). cbn [fst snd].
  split; [split; [eauto|done]|]. split; [done|]. intros _ Hne Htrim.
  destruct Hok as (-> & Hedge & Hdangling & [sourceNode Hsource] & [targetNode Htarget]
                   & Hloop).
  set (connected := connectedGraph graph edge targetNodeId).
  assert (nodeIds connected = nodeIds graph) as Hids.
  { unfold nodeIds, connected, connectedGraph. cbn [nodes withUi withNodes withEdges].
    by rewrite map_updFirst. }
  assert (targetNodeId ∈ nodeIds graph) as Htin.
  { apply elem_of_nodeIds. exists targetNode. by apply findNode_Some. }
  assert (edge_from edge ∈ nodeIds graph) as Hsin.
  { apply elem_of_nodeIds. exists sourceNode. by apply findNode_Some. }
  exists (enforceGraphConsistency (clearSelectedEdge state) connected).2,
         (connectEdge edge targetNodeId).
  split; [done|]. split; [|split; [|split; [done|split; [done|split]]]].
  - rewrite enforce_edges. cbn [sanitized edges withEdges].
    apply list_elem_of_omap. exists (connectEdge edge targetNodeId). split.
    + unfold connected, connectedGraph. cbn [edges withUi withNodes withEdges].
      apply (elem_of_updFirst _ (fun item => connectEdge item targetNodeId)).
      apply findEdge_Some in Hedge as Heid. destruct Heid as [_ Heid].
      rewrite Heid. exact Hedge.
    + unfold sanitizeEdge. cbn [connectEdge edge_from edge_to]. rewrite Hids, Htrim, Hne.
      rewrite (proj2 (has_true (nodeIds graph) (edge_from edge))) by done.
      by rewrite (proj2 (has_true (nodeIds graph) targetNodeId)) by done.
  - by apply findEdge_Some in Hedge as [_ ?].
  - destruct (rebuild_frame (prepared connected)) as (_ & _ & Hs & _).
    rewrite enforce_graph, Hs. cbn [prepared ui withUi selectedNodeId].
    unfold keptSelectedNode.
    change (selectedNodeId (ui (mirrored connected))) with (Some targetNodeId).
    rewrite nodeIds_mirrored, Hids.
    by rewrite (proj2 (has_true (nodeIds graph) targetNodeId)) by done.
  - rewrite enforce_state. unfold cleanedState, clearSelectedEdge.
    cbn [selectedEdgeId truthyId andb pendingChoice].
    by destruct (pendingChoice state) as [pending|]; [destruct (negb _)|].
Qed.

(** The scenario graph with a third, dangling choice at the root. *)
Definition danglingEdge : Edge :=
  mkEdge (js "e3") (js "s") None (js "b3") (Some (NumFin 250)) (Some (NumFin 18)).

Definition danglingGraph : Graph :=
  mkGraph (js "g") (js "Scenario") 1 (js "2024-01-01") (js "2024-01-01")
    [ scenarioNode "s" "or"
        [mkButton (js "b1") (js "Left") (Some (js "a"));
         mkButton (js "b2") (js "Right") (Some (js "b"));
         mkButton (js "b3") (js "Later") None];
      scenarioNode "a" "xor" [];
      scenarioNode "b" "xor" [] ]
    [scenarioEdge1; scenarioEdge2; danglingEdge]
    (mkUi None [] ∅).

Lemma assignDanglingChoiceToNode_connects_witness :
  exists graph' edge,
    (assignDanglingChoiceToNode idleState (Some danglingGraph) EditMode
                                (js "e3") (js "a")).2 = Some graph' /\
    edge ∈ edges graph' /\ edge_id edge = js "e3" /\
    edge_to edge = Some (js "a") /\ edge_from edge <> js "a" /\
    selectedNodeId (ui graph') = Some (js "a") /\
    selectedEdgeId (assignDanglingChoiceToNode idleState (Some danglingGraph) EditMode
                                               (js "e3") (js "a")).1.2 = None.
Proof.
  refine (proj2 (proj2 (assignDanglingChoiceToNode_connects idleState danglingGraph
                          EditMode (js "e3") (js "a"))) _ _ _).
  - exists danglingEdge. repeat split; try (vm_compute; reflexivity).
    + eexists. vm_compute. reflexivity.
    + eexists. vm_compute. reflexivity.
    + vm_compute. discriminate.
  - reflexivity.
  - vm_compute. reflexivity.
Defined.

(** ** Creating choices and nodes

    [completePendingChoice], [createChoiceWithNewChildNode] and
    [addNodeAt] draw ids with [uid]; as in [normalizeGraph] the number of
    parts drawn so far is threaded through the calls. *)

(** [setSelectedEdge(edgeId, source)] *)
Definition setSelectedEdge (state : AppState) (edgeId source : option jsstring)
  : AppState :=
  if truthyId edgeId
  then mkAppState edgeId source (pendingChoice state)
                  (lastChosenEdgeId state) (lastChosenNodeId state)
  else mkAppState None None (pendingChoice state)
                  (lastChosenEdgeId state) (lastChosenNodeId state).

Definition withPendingChoice (state : AppState) (pending : option PendingChoice)
  : AppState :=
  mkAppState (selectedEdgeId state) (selectedEdgeSelectionSource state) pending
             (lastChosenEdgeId state) (lastChosenNodeId state).

(** [node.buttons.push(button)] on the node [findNode] returns. *)
Definition pushButton (graph : Graph) (nodeId : jsstring) (button : Button) : Graph :=
  withNodes graph
            (updFirst (fun item => bool_decide (node_id item = nodeId))
                      (fun item => withButtons item (node_buttons item ++ [button]))
                      (nodes graph)).

Definition withSelectedNode (graph : Graph) (selected : option jsstring) : Graph :=
  withUi graph (mkUi selected (activePath (ui graph)) (activeSelections (ui graph))).



Section Editing.
Variable random : nat -> jsstring.

Definition completePendingChoice (state : AppState) (currentGraph : option Graph)
           (n : nat) (targetNodeId : jsstring) : AppState * option Graph * nat :=
  match currentGraph, pendingChoice state with
  | Some graph, Some pending =>
      match findNode currentGraph (sourceNodeId pending),
            findNode currentGraph targetNodeId with
      | Some sourceNode, Some targetNode =>
          let buttonId := uid random (js "b") n in
          let edgeId := uid random (js "e") (S n) in
          let graph :=
            pushButton graph (sourceNodeId pending)
                       (mkButton buttonId (buttonText pending)
                                 (Some (node_id targetNode))) in
          let graph :=
            withEdges graph
                      (edges graph ++
                         [mkEdge edgeId (node_id sourceNode) (Some (node_id targetNode))
                                 buttonId None None]) in
          let state := setSelectedEdge (withPendingChoice state None) (Some edgeId) None in
          let graph := withSelectedNode graph None in
          let '(state, graph) := enforceGraphConsistency state graph in
          (state, Some graph, S (S n))
      | _, _ => (withPendingChoice state None, currentGraph, n)
      end
  | _, _ => (state, currentGraph, n)
  end.



End Editing.




(** The graph the two choice-creating functions hand to the enforcer: a
    button pushed on the source node, an edge pushed on the edges, no node
    selected. *)
Definition withChoice (graph : Graph) (sourceId : jsstring) (button : Button) (edge : Edge)
  : Graph :=
  let graph := pushButton graph sourceId button in
  withSelectedNode (withEdges graph (edges graph ++ [edge])) None.

Lemma cleanedState_keeps nodeIdSet edgeIdSet state s :
  selectedEdgeId state = Some s -> s ∈ edgeIdSet -> pendingChoice state = None ->
  cleanedState nodeIdSet edgeIdSet state = state.
Proof.
  intros Hselected Hin Hpending. unfold cleanedState. rewrite Hselected.
  change (default [] (Some s)) with s.
  rewrite (proj2 (has_true edgeIdSet s) Hin), andb_false_r. by rewrite Hpending.
Qed.

(** A pass of the enforcer over a graph with a new choice whose edge it
    keeps: the edges are those it keeps of the earlier ones, then the new
    one; the new edge stays selected. *)
Lemma enforce_withChoice state graph sourceId button edge edge' :
  sanitizeEdge (nodeIds graph) edge = Some edge' ->
  selectedEdgeId state = Some (edge_id edge) -> pendingChoice state = None ->
  let result := enforceGraphConsistency state (withChoice graph sourceId button edge) in
  edges result.2 = edges (enforceGraphConsistency state graph).2 ++ [edge'] /\
  map node_id (nodes result.2) = map node_id (nodes graph) /\
  selectedNodeId (ui result.2) = None /\
  selectedEdgeId result.1 = Some (edge_id edge) /\ pendingChoice result.1 = None.
Proof.
  intros Hedge Hselected Hpending. cbv zeta.
  set (changed := withChoice graph sourceId button edge).
  assert (map node_id (nodes changed) = map node_id (nodes graph)) as Hmap.
  { unfold changed, withChoice, pushButton, withSelectedNode.
    cbn [nodes withUi withNodes withEdges]. by apply map_updFirst. }
  assert (nodeIds changed = nodeIds graph) as Hids by (unfold nodeIds; by rewrite Hmap).
  assert (edges (enforceGraphConsistency state changed).2
          = edges (enforceGraphConsistency state graph).2 ++ [edge']) as Hedges.
  { rewrite !enforce_edges. cbn [sanitized edges withEdges]. rewrite Hids.
    unfold changed, withChoice, pushButton, withSelectedNode.
    cbn [edges withUi withNodes withEdges].
    rewrite omap_app. cbn [omap list_omap]. by rewrite Hedge. }
  split; [done|]. split; [by rewrite enforce_nodes, mirrored_node_ids|].
  split; [|split].
  - destruct (rebuild_frame (prepared changed)) as (_ & _ & Hs & _).
    rewrite enforce_graph, Hs. done.
  - assert (edge_id edge ∈ edgeIds (enforceGraphConsistency state changed).2) as Hin.
    { apply elem_of_edgeIds. exists edge'. rewrite Hedges. split.
      - apply elem_of_app. right. by apply list_elem_of_singleton.
      - by apply sanitizeEdge_Some in Hedge as [? _]. }
    by rewrite enforce_state, (cleanedState_keeps _ _ _ _ Hselected Hin Hpending).
  - assert (edge_id edge ∈ edgeIds (enforceGraphConsistency state changed).2) as Hin.
    { apply elem_of_edgeIds. exists edge'. rewrite Hedges. split.
      - apply elem_of_app. right. by apply list_elem_of_singleton.
      - by apply sanitizeEdge_Some in Hedge as [? _]. }
    by rewrite enforce_state, (cleanedState_keeps _ _ _ _ Hselected Hin Hpending).
Qed.

(** [completePendingChoice] when both nodes are found: the call of the
    enforcer it ends with. *)
Lemma completePendingChoice_found random state graph n targetNodeId
      pending sourceNode targetNode :
  pendingChoice state = Some pending ->
  findNode (Some graph) (sourceNodeId pending) = Some sourceNode ->
  findNode (Some graph) targetNodeId = Some targetNode ->
  let button := mkButton (uid random (js "b") n) (buttonText pending) (Some targetNodeId) in
  let edge := mkEdge (uid random (js "e") (S n)) (sourceNodeId pending)
                     (Some targetNodeId) (uid random (js "b") n) None None in
  let state1 := setSelectedEdge (withPendingChoice state None) (Some (edge_id edge)) None in
  let result :=
    enforceGraphConsistency state1 (withChoice graph (sourceNodeId pending) button edge) in
  completePendingChoice random state (Some graph) n targetNodeId
  = (result.1, Some result.2, S (S n)) /\
  selectedEdgeId state1 = Some (edge_id edge) /\ pendingChoice state1 = None /\
  (nonEmpty targetNodeId = true -> trim targetNodeId = targetNodeId ->
   sanitizeEdge (nodeIds graph) edge = Some edge).
Proof.
  intros Hpending Hsource Htarget. cbv zeta.
  unfold completePendingChoice. rewrite Hpending, Hsource, Htarget. cbv zeta.
  pose proof (findNode_Some _ _ _ Hsource) as [Hsin Hsid].
  pose proof (findNode_Some _ _ _ Htarget) as [Htin Htid].
  rewrite Hsid, Htid. split; [|split; [|split]].
  - unfold withChoice. by destruct (enforceGraphConsistency _ _).
  - unfold setSelectedEdge. cbn [truthyId edge_id].
    by rewrite (uid_nonEmpty random (js "e") (S n)).
  - unfold setSelectedEdge. cbn [truthyId edge_id].
    by rewrite (uid_nonEmpty random (js "e") (S n)).
  - intros Hne Htrim. unfold sanitizeEdge. cbn [edge_from edge_to]. rewrite Htrim, Hne.
    rewrite (proj2 (has_true (nodeIds graph) (sourceNodeId pending)));
      [|apply elem_of_nodeIds; eauto].
    rewrite (proj2 (has_true (nodeIds graph) targetNodeId));
      [|apply elem_of_nodeIds; eauto].
    done.
Qed.

(** X24. [completePendingChoice] with a pending choice whose source node
    exists and a target node whose id is non-empty and trimmed: the edges
    afterwards are the ones a pass of the enforcer keeps, followed by one
    new edge from the source to the target with freshly drawn edge and
    button ids; the new edge is the selected edge, no node is selected, no
    choice is pending, the nodes keep their ids and two ids have been
    drawn. *)
Theorem completePendingChoice_connects random state graph n targetNodeId
        pending sourceNode targetNode :
  pendingChoice state = Some pending ->
  findNode (Some graph) (sourceNodeId pending) = Some sourceNode ->
  findNode (Some graph) targetNodeId = Some targetNode ->
  nonEmpty targetNodeId = true -> trim targetNodeId = targetNodeId ->
  exists state' graph',
    completePendingChoice random state (Some graph) n targetNodeId
    = (state', Some graph', S (S n)) /\
    edges graph'
    = edges (enforceGraphConsistency state graph).2 ++
      [mkEdge (uid random (js "e") (S n)) (sourceNodeId pending) (Some targetNodeId)
              (uid random (js "b") n) None None] /\
    map node_id (nodes graph') = map node_id (nodes graph) /\
    selectedNodeId (ui graph') = None /\
    selectedEdgeId state' = Some (uid random (js "e") (S n)) /\
    pendingChoice state' = None.
Proof.
  intros Hpending Hsource Htarget Hne Htrim.
  destruct (completePendingChoice_found random state graph n targetNodeId pending
              sourceNode targetNode Hpending Hsource Htarget)
    as (-> & Hselected & Hnone & Hedge).
  specialize (Hedge Hne Htrim).
  destruct (enforce_withChoice _ graph (sourceNodeId pending)
              (mkButton (uid random (js "b") n) (buttonText pending) (Some targetNodeId))
              _ _ Hedge Hselected Hnone) as (Hedges & Hnodes & Hnode & Hsel & Hpend).
  eexists _, _. split; [reflexivity|].
  split; [|done]. rewrite Hedges. by rewrite !enforce_edges.
Qed.

(** A session with a pending choice at the root of the scenario. *)
Definition pendingState : AppState :=
  mkAppState None None (Some (mkPendingChoice (js "s") (js "Go"))) None None.

Lemma completePendingChoice_connects_witness :
  exists state' graph',
    completePendingChoice countingRandom pendingState (Some danglingGraph) 0 (js "b")
    = (state', Some graph', 2%nat) /\
    edges graph'
    = edges (enforceGraphConsistency pendingState danglingGraph).2 ++
      [mkEdge (uid countingRandom (js "e") 1) (js "s") (Some (js "b"))
              (uid countingRandom (js "b") 0) None None] /\
    map node_id (nodes graph') = map node_id (nodes danglingGraph) /\
    selectedNodeId (ui graph') = None /\
    selectedEdgeId state' = Some (uid countingRandom (js "e") 1) /\
    pendingChoice state' = None.
Proof.
  refine (completePendingChoice_connects countingRandom pendingState danglingGraph 0
            (js "b") (mkPendingChoice (js "s") (js "Go")) _ _ _ _ _ _ _);
    try reflexivity; vm_compute; reflexivity.
Defined.







